(** * fetchens: the lenient JSON normalizer, the path indexer and the paste
      boundary of [AppShell.tsx], embedded and verified.

    Source files: [src/components/AppShell.tsx] ([parseJsonSafely],
    [parseJsonFlexible], [filterPaths], [extractPaths], [applyPastedJson]) and
    the revision of the same component that carries the tree view
    ([createValuePreview], [buildJsonTree], [filterTreeByQuery]).

    Modelling conventions.
    - A JavaScript string is a sequence of UTF-16 code units: [str := list N].
    - [unknown | null] is the type [value]; the JavaScript value [null] is
      [JNull], which [parseJsonSafely] also returns when decoding fails.
    - Regular expressions are terms of [regex], run by a backtracking matcher
      with the priorities of ECMAScript ([exec]); [replace_all] is
      [String.prototype.replace] with a global pattern.
    - A Number is the real number it denotes, in binary64: [Fin m e] is
      [m * 2^e] with [m] odd (or zero), [Inf] is an infinity.  The sign of
      zero is not tracked ([-0 === 0] in the source language). *)

From Stdlib Require Import String Ascii List NArith ZArith Bool Lia.
Import ListNotations.

Local Open Scope N_scope.

(** ** Text *)

Definition str := list N.

(** [txt] writes a text in the file: every character of the literal is its
    code unit, except that a backquote stands for the double quote (code 34),
    so JSON samples need no escaping. *)
Definition unit_of_ascii (a : ascii) : N :=
  let n := N_of_ascii a in if n =? 96 then 34 else n.

Definition txt (s : string) : str := map unit_of_ascii (list_ascii_of_string s).

Definition LF : N := 10.

(** ** Character classes of ECMAScript *)

Definition is_line_terminator (c : N) : bool :=
  (c =? 10) || (c =? 13) || (c =? 8232) || (c =? 8233).

(** [\s]: WhiteSpace and LineTerminator. *)
Definition is_space (c : N) : bool :=
  (c =? 9) || (c =? 10) || (c =? 11) || (c =? 12) || (c =? 13) || (c =? 32)
  || (c =? 160) || (c =? 5760) || ((8192 <=? c) && (c <=? 8202))
  || (c =? 8232) || (c =? 8233) || (c =? 8239) || (c =? 8287)
  || (c =? 12288) || (c =? 65279).

Definition is_upper (c : N) : bool := (65 <=? c) && (c <=? 90).
Definition is_lower (c : N) : bool := (97 <=? c) && (c <=? 122).
Definition is_digit (c : N) : bool := (48 <=? c) && (c <=? 57).

(** [\w] *)
Definition is_word (c : N) : bool :=
  is_upper c || is_lower c || is_digit c || (c =? 95).

(** [.] without the s flag *)
Definition dot (c : N) : bool := negb (is_line_terminator c).

(** [[\s\S]] *)
Definition any_unit (c : N) : bool := is_space c || negb (is_space c).

Definition ch (a : N) (c : N) : bool := c =? a.

(** ** Regular expressions and the backtracking matcher *)

Inductive regex : Type :=
| Empty
| Char (p : N -> bool)
| Seq (r1 r2 : regex)
| Alt (r1 r2 : regex)
| Star (greedy : bool) (r : regex)
| Group (i : nat) (r : regex)
| LineStart      (* ^ under the m flag *)
| LineEnd        (* $ under the m flag *)
| WordBoundary.  (* \b *)

(** A position in the subject: the unit before it (if any) and what follows. *)
Record pos : Type := mkpos { before : option N; after : str }.

Definition captures := list (nat * str).

Definition cap (i : nat) (c : captures) : str :=
  match find (fun e => Nat.eqb (fst e) i) c with
  | Some e => snd e
  | None => []
  end.

Definition consumed (x y : pos) : str :=
  firstn (length (after x) - length (after y)) (after x).

Definition word_at (o : option N) : bool :=
  match o with Some c => is_word c | None => false end.

Definition result := option (pos * captures).
Definition cont := pos -> captures -> result.

(** The iteration of [r*] and [r*?]: [body] runs [r] once.  An iteration
    that consumes nothing is not taken; [n] bounds the number of iterations
    by the number of units left. *)
Definition star_loop (body : pos -> captures -> cont -> result)
  (greedy : bool) (k : cont) : nat -> pos -> captures -> result :=
  fix loop (n : nat) (x : pos) (c : captures) : result :=
    match n with
    | O => k x c
    | S n' =>
        let step y c' :=
          if (length (after y) <? length (after x))%nat
          then loop n' y c' else None in
        if greedy then
          match body x c step with
          | Some res => Some res
          | None => k x c
          end
        else
          match k x c with
          | Some res => Some res
          | None => body x c step
          end
    end.

Arguments star_loop body greedy k n x c : simpl never.

Fixpoint exec (r : regex) (x : pos) (c : captures) (k : cont) : result :=
  match r with
  | Empty => k x c
  | Char p =>
      match after x with
      | a :: s => if p a then k (mkpos (Some a) s) c else None
      | [] => None
      end
  | Seq r1 r2 => exec r1 x c (fun y c' => exec r2 y c' k)
  | Alt r1 r2 =>
      match exec r1 x c k with
      | Some res => Some res
      | None => exec r2 x c k
      end
  | Star greedy r1 =>
      star_loop (exec r1) greedy k (S (length (after x))) x c
  | Group i r1 => exec r1 x c (fun y c' => k y ((i, consumed x y) :: c'))
  | LineStart =>
      match before x with
      | None => k x c
      | Some a => if is_line_terminator a then k x c else None
      end
  | LineEnd =>
      match after x with
      | [] => k x c
      | a :: _ => if is_line_terminator a then k x c else None
      end
  | WordBoundary =>
      if xorb (word_at (before x)) (word_at (hd_error (after x)))
      then k x c else None
  end.

Definition accept : cont := fun y c => Some (y, c).

(** [s.replace(r, f)] for a global [r]: leftmost matches, left to right,
    never overlapping; after an empty match the scan moves on one unit. *)
Fixpoint replace_from (fuel : nat) (r : regex) (f : str -> captures -> str)
  (x : pos) : str :=
  match fuel with
  | O => after x
  | S fuel' =>
      match exec r x [] accept with
      | Some (y, c) =>
          match consumed x y with
          | [] =>
              match after x with
              | [] => f [] c
              | a :: s => f [] c ++ a :: replace_from fuel' r f (mkpos (Some a) s)
              end
          | m => f m c ++ replace_from fuel' r f y
          end
      | None =>
          match after x with
          | [] => []
          | a :: s => a :: replace_from fuel' r f (mkpos (Some a) s)
          end
      end
  end.

Definition replace_at (r : regex) (f : str -> captures -> str) (x : pos) : str :=
  replace_from (S (length (after x))) r f x.

Definition replace_all (r : regex) (f : str -> captures -> str) (s : str) : str :=
  replace_at r f (mkpos None s).

Fixpoint cat (rs : list regex) : regex :=
  match rs with
  | [] => Empty
  | [r] => r
  | r :: rs' => Seq r (cat rs')
  end.

Definition lit (s : string) : regex := cat (map (fun a => Char (ch a)) (txt s)).

(** ** The rewrite stages of [parseJsonFlexible] *)

(** [/\/\*[\s\S]*?\*\//g] *)
Definition re_block_comment : regex :=
  cat [Char (ch 47); Char (ch 42); Star false (Char any_unit);
       Char (ch 42); Char (ch 47)].

(** [/(^|\s)\/\/.*$/gm] *)
Definition re_line_comment : regex :=
  cat [Group 1 (Alt LineStart (Char is_space)); Char (ch 47); Char (ch 47);
       Star true (Char dot); LineEnd].

(** Step 2 of the source: a single quote, then greedily any number of
    group 1 (a unit other than quote and backslash, or a backslash and a
    [.]), then a single quote. *)
Definition quoted_unit : regex :=
  Group 1 (Alt (Char (fun c => negb ((c =? 39) || (c =? 92))))
               (Seq (Char (ch 92)) (Char dot))).

Definition re_single_quoted : regex :=
  cat [Char (ch 39); Star true quoted_unit; Char (ch 39)].

(** The two patterns applied to the inside of a single-quoted literal: a
    backslash followed by a single quote, and a double quote. *)
Definition re_escaped_quote : regex := Seq (Char (ch 92)) (Char (ch 39)).
Definition re_double_quote : regex := Char (ch 34).

Definition ident_start (c : N) : bool := is_upper c || is_lower c || (c =? 95).
Definition ident_part (c : N) : bool :=
  is_upper c || is_lower c || is_digit c || (c =? 95) || (c =? 45).

(** Step 3 of the source.  Group 1: [[\{,]] then [\s*]; group 2:
    [[A-Za-z_]] then [[A-Za-z0-9_\-]*]; group 3: [\s*], a colon, [\s*]. *)
Definition re_unquoted_key : regex :=
  cat [Group 1 (Seq (Char (fun c => (c =? 123) || (c =? 44))) (Star true (Char is_space)));
       Group 2 (Seq (Char ident_start) (Star true (Char ident_part)));
       Group 3 (cat [Star true (Char is_space); Char (ch 58); Star true (Char is_space)])].

(** [/,\s*([}\]])/g] *)
Definition re_trailing_comma : regex :=
  cat [Char (ch 44); Star true (Char is_space);
       Group 1 (Char (fun c => (c =? 125) || (c =? 93)))].

(** [/\bundefined\b/g] *)
Definition re_undefined : regex :=
  cat [WordBoundary; lit "undefined"; WordBoundary].

(** [m.slice(1, -1)] *)
Definition slice_1_m1 (m : str) : str := removelast (tl m).

Definition strip_block_comments (t : str) : str :=
  replace_all re_block_comment (fun _ _ => []) t.

Definition strip_line_comments (t : str) : str :=
  replace_all re_line_comment (fun _ _ => []) t.

Definition requote_inner (m : str) : str :=
  replace_all re_double_quote (fun _ _ => [92; 34])
    (replace_all re_escaped_quote (fun _ _ => [39]) (slice_1_m1 m)).

Definition normalize_quotes (t : str) : str :=
  replace_all re_single_quoted (fun m _ => 34 :: requote_inner m ++ [34]) t.

Definition quote_keys (t : str) : str :=
  replace_all re_unquoted_key
    (fun _ c => cap 1 c ++ 34 :: cap 2 c ++ 34 :: cap 3 c) t.

Definition drop_trailing_commas (t : str) : str :=
  replace_all re_trailing_comma (fun _ c => cap 1 c) t.

Definition replace_undefined (t : str) : str :=
  replace_all re_undefined (fun _ _ => txt "null") t.

Definition rewrite_stages (t : str) : str :=
  replace_undefined
    (drop_trailing_commas
       (quote_keys
          (normalize_quotes
             (strip_line_comments
                (strip_block_comments t))))).

(** ** Numbers: binary64 by exact integer arithmetic *)

Local Open Scope Z_scope.

Inductive number : Type :=
| Fin (m e : Z)      (* m * 2^e, m odd or m = 0 = e *)
| Inf (neg : bool).

Definition number_eqb (x y : number) : bool :=
  match x, y with
  | Fin m e, Fin m' e' => (m =? m') && (e =? e')
  | Inf a, Inf b => Bool.eqb a b
  | _, _ => false
  end.

Fixpoint strip_twos (m : positive) (e : Z) : positive * Z :=
  match m with
  | xO m' => strip_twos m' (e + 1)
  | _ => (m, e)
  end.

Definition canonical (m e : Z) : number :=
  match m with
  | Z0 => Fin 0 0
  | Zpos p => let (p', e') := strip_twos p e in Fin (Zpos p') e'
  | Zneg p => let (p', e') := strip_twos p e in Fin (Zneg p') e'
  end.

(** The fraction [(a/b) / 2^e]. *)
Definition div_pow2 (a b e : Z) : Z * Z :=
  (a * 2 ^ Z.max (- e) 0, b * 2 ^ Z.max e 0).

(** [floor (log2 (a/b))] for positive [a], [b]. *)
Definition ilog2_ratio (a b : Z) : Z :=
  let l := Z.log2 a - Z.log2 b in
  let (a', b') := div_pow2 a b l in
  if b' <=? a' then l else l - 1.

Definition round_half_even (a b : Z) : Z :=
  let q := a / b in
  match 2 * (a mod b) ?= b with
  | Lt => q
  | Gt => q + 1
  | Eq => if Z.even q then q else q + 1
  end.

(** Round the positive rational [a/b] to the nearest binary64 value, ties to
    even: 53 bits of precision, least exponent -1074, overflow at 2^1024. *)
Definition round_ratio (a b : Z) : number :=
  let e := Z.max (ilog2_ratio a b - 52) (-1074) in
  let (a', b') := div_pow2 a b e in
  let m := round_half_even a' b' in
  if 1024 <=? Z.log2 m + e then Inf false else canonical m e.

(** The fraction [s * 10^j]. *)
Definition dec_ratio (s j : Z) : Z * Z :=
  (s * 10 ^ Z.max j 0, 10 ^ Z.max (- j) 0).

(** The Number nearest to the positive decimal [s * 10^j]. *)
Definition round_dec (s j : Z) : number :=
  let (a, b) := dec_ratio s j in round_ratio a b.

Definition negate (x : number) : number :=
  match x with
  | Fin m e => Fin (- m) e
  | Inf neg => Inf (negb neg)
  end.

(** The value of a decimal literal with sign [neg], digits [s] and decimal
    exponent [j]. *)
Definition number_of_decimal (neg : bool) (s j : Z) : number :=
  if s =? 0 then Fin 0 0
  else if neg then negate (round_dec s j) else round_dec s j.

(** *** Number::toString: the shortest decimal that reads back *)

(** [floor (m * 2^e / 10^j)] and the remainder's position, as a fraction. *)
Definition scaled (m e j : Z) : Z * Z :=
  (m * 2 ^ (Z.max e 0) * 10 ^ (Z.max (- j) 0),
   2 ^ (Z.max (- e) 0) * 10 ^ (Z.max j 0)).

(** The digits [s] with [s * 10^j] reading back as [Fin m e], if there are
    any at scale [j]: one of the two neighbours of the value, the closer one
    (the even one at equal distance) when both read back. *)
Definition candidate (m e j : Z) : option Z :=
  let (a, b) := scaled m e j in
  let lo := a / b in
  let hi := lo + 1 in
  let ok_lo := (0 <? lo) && number_eqb (round_dec lo j) (Fin m e) in
  let ok_hi := number_eqb (round_dec hi j) (Fin m e) in
  match ok_lo, ok_hi with
  | true, false => Some lo
  | false, true => Some hi
  | false, false => None
  | true, true =>
      match 2 * (a mod b) ?= b with
      | Lt => Some lo
      | Gt => Some hi
      | Eq => if Z.even lo then Some lo else Some hi
      end
  end.

(** The largest scale at which a candidate exists is the one with the fewest
    digits; scales are tried downwards. *)
Fixpoint shortest_from (fuel : nat) (m e j : Z) : option (Z * Z) :=
  match fuel with
  | O => None
  | S fuel' =>
      match candidate m e j with
      | Some s => Some (s, j)
      | None => shortest_from fuel' m e (j - 1)
      end
  end.

Definition shortest (m e : Z) : option (Z * Z) :=
  let top := Z.max 1 (Z.log2 m + e + 1) in
  shortest_from (Z.to_nat (top - Z.min e 0 + 1)) m e top.

Fixpoint digits_fuel (fuel : nat) (n : Z) (acc : str) : str :=
  match fuel with
  | O => acc
  | S fuel' =>
      let acc' := Z.to_N (48 + n mod 10) :: acc in
      if n <? 10 then acc' else digits_fuel fuel' (n / 10) acc'
  end.

(** The decimal digits of a natural number, most significant first. *)
Definition digits (n : Z) : str := digits_fuel (S (Z.to_nat (Z.log2 n))) n [].

Definition zeros (n : Z) : str := repeat 48%N (Z.to_nat n).

(** Steps 7 to 11 of Number::toString for the digits [ds] (there are [k]) of
    a value in [[10^(n-1), 10^n)]. *)
Definition format_digits (ds : str) (n : Z) : str :=
  let k := Z.of_nat (length ds) in
  if (k <=? n) && (n <=? 21) then ds ++ zeros (n - k)
  else if (0 <? n) && (n <=? 21) then
    firstn (Z.to_nat n) ds ++ 46%N :: skipn (Z.to_nat n) ds
  else if (-6 <? n) && (n <=? 0) then
    48%N :: 46%N :: zeros (- n) ++ ds
  else
    let ex := (if 0 <=? n - 1 then 43%N else 45%N) :: digits (Z.abs (n - 1)) in
    match ds with
    | [d] => d :: 101%N :: ex
    | d :: ds' => d :: 46%N :: ds' ++ 101%N :: ex
    | [] => []
    end.

Definition positive_to_string (m e : Z) : str :=
  match shortest m e with
  | Some (s, j) => let ds := digits s in format_digits ds (Z.of_nat (length ds) + j)
  | None => []
  end.

(** [String(x)] for a Number [x]. *)
Definition number_to_string (x : number) : str :=
  match x with
  | Fin 0 _ => [48%N]
  | Fin (Zpos p) e => positive_to_string (Zpos p) e
  | Fin (Zneg p) e => 45%N :: positive_to_string (Zpos p) e
  | Inf false => txt "Infinity"
  | Inf true => txt "-Infinity"
  end.

(** ** Values *)

Local Open Scope N_scope.
Local Set Warnings "-register-all".

Inductive value : Type :=
| JNull
| JBool (b : bool)
| JNum (x : number)
| JStr (s : str)
| JArr (items : list value)
| JObj (members : list (str * value)).

Fixpoint str_eqb (a b : str) : bool :=
  match a, b with
  | [], [] => true
  | x :: a', y :: b' => (x =? y) && str_eqb a' b'
  | _, _ => false
  end.

(** *** Objects: own properties in the order of [Object.keys]

    Array-index keys (canonical decimal numerals below 2^32 - 1) come first,
    in ascending order; the other keys follow in order of creation. *)

Definition object := list (str * value).

Definition digits_value (ds : str) : Z :=
  fold_left (fun a d => (a * 10 + (Z.of_N d - 48))%Z) ds 0%Z.

Definition array_index (k : str) : option Z :=
  match k with
  | [] => None
  | d :: k' =>
      if forallb is_digit k && (negb (d =? 48) || (length k' =? 0)%nat) then
        let i := digits_value k in
        if (i <? 4294967295)%Z then Some i else None
      else None
  end.

Definition has_key (k : str) (o : object) : bool :=
  existsb (fun e => str_eqb (fst e) k) o.

Fixpoint obj_replace (k : str) (v : value) (o : object) : object :=
  match o with
  | [] => []
  | (k', v') :: o' =>
      if str_eqb k' k then (k', v) :: o' else (k', v') :: obj_replace k v o'
  end.

Fixpoint obj_insert_index (i : Z) (k : str) (v : value) (o : object) : object :=
  match o with
  | [] => [(k, v)]
  | (k', v') :: o' =>
      match array_index k' with
      | Some i' =>
          if (i <? i')%Z then (k, v) :: o
          else (k', v') :: obj_insert_index i k v o'
      | None => (k, v) :: o
      end
  end.

(** [CreateDataProperty(o, k, v)] *)
Definition obj_set (k : str) (v : value) (o : object) : object :=
  if has_key k o then obj_replace k v o
  else match array_index k with
       | Some i => obj_insert_index i k v o
       | None => o ++ [(k, v)]
       end.

(** ** [JSON.parse] *)

Definition is_json_ws (c : N) : bool :=
  (c =? 32) || (c =? 9) || (c =? 10) || (c =? 13).

Fixpoint skip_ws (s : str) : str :=
  match s with
  | c :: s' => if is_json_ws c then skip_ws s' else s
  | [] => []
  end.

Fixpoint strip_prefix (p s : str) : option str :=
  match p, s with
  | [], _ => Some s
  | a :: p', b :: s' => if b =? a then strip_prefix p' s' else None
  | _ :: _, [] => None
  end.

Definition hex_value (c : N) : option N :=
  if is_digit c then Some (c - 48)
  else if (97 <=? c) && (c <=? 102) then Some (c - 87)
  else if (65 <=? c) && (c <=? 70) then Some (c - 55)
  else None.

Definition hex4 (a b c d : N) : option N :=
  match hex_value a, hex_value b, hex_value c, hex_value d with
  | Some x, Some y, Some z, Some w => Some (((x * 16 + y) * 16 + z) * 16 + w)
  | _, _, _, _ => None
  end.

(** The single-character escapes of a JSON string. *)
Definition unescape (c : N) : option N :=
  if c =? 34 then Some 34
  else if c =? 92 then Some 92
  else if c =? 47 then Some 47
  else if c =? 98 then Some 8
  else if c =? 102 then Some 12
  else if c =? 110 then Some 10
  else if c =? 114 then Some 13
  else if c =? 116 then Some 9
  else None.

Definition push (c : N) (r : option (str * str)) : option (str * str) :=
  match r with
  | Some (s, rest) => Some (c :: s, rest)
  | None => None
  end.

(** The characters of a string literal, after its opening quote. *)
Fixpoint parse_chars (s : str) : option (str * str) :=
  match s with
  | [] => None
  | c :: s1 =>
      if c =? 34 then Some ([], s1)
      else if c =? 92 then
        match s1 with
        | [] => None
        | d :: s2 =>
            if d =? 117 then
              match s2 with
              | h1 :: h2 :: h3 :: h4 :: s3 =>
                  match hex4 h1 h2 h3 h4 with
                  | Some u => push u (parse_chars s3)
                  | None => None
                  end
              | _ => None
              end
            else
              match unescape d with
              | Some u => push u (parse_chars s2)
              | None => None
              end
        end
      else if c <? 32 then None
      else push c (parse_chars s1)
  end.

Fixpoint span_digits (s : str) : str * str :=
  match s with
  | c :: s' =>
      if is_digit c then let (ds, r) := span_digits s' in (c :: ds, r)
      else ([], s)
  | [] => ([], [])
  end.

Definition parse_sign (s : str) : bool * str :=
  match s with
  | c :: s' => if c =? 45 then (true, s') else (false, s)
  | [] => (false, s)
  end.

Definition parse_int (s : str) : option (str * str) :=
  match s with
  | c :: s' =>
      if c =? 48 then Some ([48], s')
      else if is_digit c then Some (span_digits s)
      else None
  | [] => None
  end.

Definition parse_frac (s : str) : option (str * str) :=
  match s with
  | c :: s' =>
      if c =? 46 then
        match span_digits s' with
        | ([], _) => None
        | (ds, r) => Some (ds, r)
        end
      else Some ([], s)
  | [] => Some ([], s)
  end.

Definition parse_exp (s : str) : option (Z * str) :=
  match s with
  | c :: s' =>
      if (c =? 101) || (c =? 69) then
        let (neg, s'') :=
          match s' with
          | d :: t => if d =? 43 then (false, t)
                      else if d =? 45 then (true, t) else (false, s')
          | [] => (false, s')
          end in
        match span_digits s'' with
        | ([], _) => None
        | (ds, r) => Some (if neg then (- digits_value ds)%Z else digits_value ds, r)
        end
      else Some (0%Z, s)
  | [] => Some (0%Z, s)
  end.

Definition parse_number (s : str) : option (number * str) :=
  let (neg, s1) := parse_sign s in
  match parse_int s1 with
  | None => None
  | Some (ip, s2) =>
      match parse_frac s2 with
      | None => None
      | Some (fp, s3) =>
          match parse_exp s3 with
          | None => None
          | Some (ex, s4) =>
              Some (number_of_decimal neg (digits_value (ip ++ fp))
                      (ex - Z.of_nat (length fp))%Z, s4)
          end
      end
  end.

Definition literal (p : string) (v : value) (s : str) : option (value * str) :=
  match strip_prefix (txt p) s with
  | Some r => Some (v, r)
  | None => None
  end.

Fixpoint parse_value (fuel : nat) (s : str) : option (value * str) :=
  match fuel with
  | O => None
  | S f =>
      match s with
      | [] => None
      | c :: s' =>
          if c =? 123 then
            match skip_ws s' with
            | d :: s2 =>
                if d =? 125 then Some (JObj [], s2)
                else parse_members f (skip_ws s') []
            | [] => None
            end
          else if c =? 91 then
            match skip_ws s' with
            | d :: s2 =>
                if d =? 93 then Some (JArr [], s2)
                else match parse_elements f (skip_ws s') with
                     | Some (vs, r) => Some (JArr vs, r)
                     | None => None
                     end
            | [] => None
            end
          else if c =? 34 then
            match parse_chars s' with
            | Some (x, r) => Some (JStr x, r)
            | None => None
            end
          else if c =? 116 then literal "true" (JBool true) s
          else if c =? 102 then literal "false" (JBool false) s
          else if c =? 110 then literal "null" JNull s
          else
            match parse_number s with
            | Some (x, r) => Some (JNum x, r)
            | None => None
            end
      end
  end

with parse_elements (fuel : nat) (s : str) : option (list value * str) :=
  match fuel with
  | O => None
  | S f =>
      match parse_value f s with
      | None => None
      | Some (v, r) =>
          match skip_ws r with
          | c :: r' =>
              if c =? 44 then
                match parse_elements f (skip_ws r') with
                | Some (vs, r'') => Some (v :: vs, r'')
                | None => None
                end
              else if c =? 93 then Some ([v], r')
              else None
          | [] => None
          end
      end
  end

with parse_members (fuel : nat) (s : str) (acc : object) : option (value * str) :=
  match fuel with
  | O => None
  | S f =>
      match s with
      | [] => None
      | c :: s1 =>
          if c =? 34 then
            match parse_chars s1 with
            | None => None
            | Some (k, r) =>
                match skip_ws r with
                | [] => None
                | d :: r1 =>
                    if d =? 58 then
                      match parse_value f (skip_ws r1) with
                      | None => None
                      | Some (v, r2) =>
                          match skip_ws r2 with
                          | [] => None
                          | e :: r3 =>
                              if e =? 44 then
                                parse_members f (skip_ws r3) (obj_set k v acc)
                              else if e =? 125 then
                                Some (JObj (obj_set k v acc), r3)
                              else None
                          end
                      end
                    else None
                end
            end
          else None
      end
  end.

(** [JSON.parse(t)], [None] when it throws a SyntaxError. *)
Definition JSON_parse (t : str) : option value :=
  match parse_value (2 * length t + 2) (skip_ws t) with
  | Some (v, r) =>
      match skip_ws r with
      | [] => Some v
      | _ :: _ => None
      end
  | None => None
  end.

(** ** The decoders of the source *)

Definition parseJsonSafely (text : str) : value :=
  match JSON_parse text with
  | Some v => v
  | None => JNull
  end.

Definition parseJsonFlexible (input : str) : value :=
  match parseJsonSafely input with
  | JNull => parseJsonSafely (rewrite_stages input)
  | strict => strict
  end.

(** ** [JSON.stringify(v, null, 2)] *)

Definition hex_digit (n : N) : N := if n <? 10 then 48 + n else 87 + n.

(** [UnicodeEscape]: backslash, u and four lower-case hexadecimal digits. *)
Definition unicode_escape (c : N) : str :=
  [92; 117; hex_digit (c / 4096); hex_digit ((c / 256) mod 16);
   hex_digit ((c / 16) mod 16); hex_digit (c mod 16)].

Definition is_lead (c : N) : bool := (55296 <=? c) && (c <=? 56319).
Definition is_trail (c : N) : bool := (56320 <=? c) && (c <=? 57343).

(** The inside of [QuoteJSONString]: short escapes, control characters and
    lone surrogates as unicode escapes, everything else as it is. *)
Fixpoint quote_units (s : str) : str :=
  match s with
  | [] => []
  | c :: s' =>
      if c =? 8 then 92 :: 98 :: quote_units s'
      else if c =? 9 then 92 :: 116 :: quote_units s'
      else if c =? 10 then 92 :: 110 :: quote_units s'
      else if c =? 12 then 92 :: 102 :: quote_units s'
      else if c =? 13 then 92 :: 114 :: quote_units s'
      else if c =? 34 then 92 :: 34 :: quote_units s'
      else if c =? 92 then 92 :: 92 :: quote_units s'
      else if c <? 32 then unicode_escape c ++ quote_units s'
      else if is_lead c then
        match s' with
        | d :: s'' =>
            if is_trail d then c :: d :: quote_units s''
            else unicode_escape c ++ quote_units s'
        | [] => unicode_escape c
        end
      else if is_trail c then unicode_escape c ++ quote_units s'
      else c :: quote_units s'
  end.

Definition quote (s : str) : str := 34 :: quote_units s ++ [34].

Fixpoint join (sep : str) (parts : list str) : str :=
  match parts with
  | [] => []
  | [x] => x
  | x :: rest => x ++ sep ++ join sep rest
  end.

Definition gap : str := [32; 32].

(** [SerializeJSONProperty] with the gap of two spaces; [ind] is the current
    indentation.  A Number that is not finite is written [null]. *)
Fixpoint serialize (ind : str) (v : value) : str :=
  match v with
  | JNull => txt "null"
  | JBool true => txt "true"
  | JBool false => txt "false"
  | JNum (Inf _) => txt "null"
  | JNum x => number_to_string x
  | JStr s => quote s
  | JArr [] => txt "[]"
  | JArr items =>
      let ind' := ind ++ gap in
      91 :: LF :: ind'
        ++ join (44 :: LF :: ind') (map (serialize ind') items)
        ++ LF :: ind ++ [93]
  | JObj [] => txt "{}"
  | JObj members =>
      let ind' := ind ++ gap in
      123 :: LF :: ind'
        ++ join (44 :: LF :: ind')
             (map (fun kv => quote (fst kv) ++ 58 :: 32 :: serialize ind' (snd kv))
                  members)
        ++ LF :: ind ++ [125]
  end.

Definition JSON_stringify (v : value) : str := serialize [] v.

(** ** String helpers of the source language *)

Fixpoint drop_space (s : str) : str :=
  match s with
  | c :: s' => if is_space c then drop_space s' else s
  | [] => []
  end.

(** [s.trim()] *)
Definition trim (s : str) : str := rev (drop_space (rev (drop_space s))).

(** [s.toLowerCase()] for the units up to U+00FF; other units are kept (the
    Unicode case tables are outside the model). *)
Definition lower_unit (c : N) : N :=
  if is_upper c then c + 32
  else if ((192 <=? c) && (c <=? 222)) && negb (c =? 215) then c + 32
  else c.

Definition toLowerCase (s : str) : str := map lower_unit s.

Fixpoint starts_with (p s : str) : bool :=
  match p, s with
  | [], _ => true
  | a :: p', b :: s' => (b =? a) && starts_with p' s'
  | _ :: _, [] => false
  end.

(** [s.includes(q)] *)
Fixpoint includes (s q : str) : bool :=
  starts_with q s ||
  match s with
  | [] => false
  | _ :: s' => includes s' q
  end.

(** [s.split(r)] for a pattern without groups: the pieces between the
    matches; a match that is empty at the start of a piece is skipped.  Each
    unit costs at most two steps (an empty match that closes a piece, then the
    skip of the same empty match). *)
Fixpoint split_from (fuel : nat) (r : regex) (piece : str) (x : pos) : list str :=
  match fuel with
  | O => [piece ++ after x]
  | S fuel' =>
      match after x with
      | [] => [piece]
      | a :: s =>
          let skip := split_from fuel' r (piece ++ [a]) (mkpos (Some a) s) in
          match exec r x [] accept with
          | Some (y, _) =>
              match piece, consumed x y with
              | [], [] => skip
              | _, _ => piece :: split_from fuel' r [] y
              end
          | None => skip
          end
      end
  end.

Definition split (r : regex) (s : str) : list str :=
  match s with
  | [] => match exec r (mkpos None []) [] accept with Some _ => [] | None => [[]] end
  | _ => split_from (S (2 * length s)) r [] (mkpos None s)
  end.

(** [String(i)] for an array index *)
Definition index_to_string (i : nat) : str := digits (Z.of_nat i).

(** ** The path indexer *)

(** [extractPaths(value, base)].  The members of an object are visited in the
    order of [Object.keys]. *)
Fixpoint extractPaths (v : value) (base : str) : list str :=
  match v with
  | JArr items =>
      (fix each (vs : list value) (i : nat) : list str :=
         match vs with
         | [] => []
         | child :: vs' =>
             let next := base ++ 91 :: index_to_string i ++ [93] in
             next :: extractPaths child next ++ each vs' (S i)
         end) items O
  | JObj members =>
      (fix each (ms : list (str * value)) : list str :=
         match ms with
         | [] => []
         | (key, child) :: ms' =>
             let sep := match base with [] => [] | _ => [46] end in
             let next := base ++ sep ++ key in
             next :: extractPaths child next ++ each ms'
         end) members
  | _ => []
  end.

(** [filterPaths(paths, query)] *)
Definition filterPaths (paths : list str) (query : str) : list str :=
  let q := toLowerCase (trim query) in
  match q with
  | [] => paths
  | _ => filter (fun p => includes (toLowerCase p) q) paths
  end.

(** *** The tree variant *)

Inductive node_type : Type := TObject | TArray | TValue.

Inductive JsonTreeNode : Type :=
| Node (key path : str) (type : node_type) (valuePreview : option str)
       (children : option (list JsonTreeNode)).

Definition node_key (n : JsonTreeNode) : str := let (k, _, _, _, _) := n in k.
Definition node_path (n : JsonTreeNode) : str := let (_, p, _, _, _) := n in p.
Definition node_preview (n : JsonTreeNode) : option str := let (_, _, _, v, _) := n in v.
Definition node_children (n : JsonTreeNode) : option (list JsonTreeNode) :=
  let (_, _, _, _, c) := n in c.

Definition ELLIPSIS : N := 8230.

(** [createValuePreview(v)] *)
Definition createValuePreview (v : value) : str :=
  match v with
  | JNull => txt "null"
  | JStr s => if (24 <? length s)%nat then firstn 24 s ++ [ELLIPSIS] else s
  | JNum x => number_to_string x
  | JBool true => txt "true"
  | JBool false => txt "false"
  | _ => []
  end.

(** The pattern of [basePath.split(...)]: a dot or an opening bracket. *)
Definition re_path_separator : regex := Alt (Char (ch 46)) (Char (ch 91)).

(** [basePath.split(/\.|\[/).pop() || basePath] *)
Definition key_of_path (basePath : str) : str :=
  match last (split re_path_separator basePath) [] with
  | [] => basePath
  | k => k
  end.

(** [buildJsonTree(value, basePath)] *)
Fixpoint buildJsonTree (v : value) (basePath : str) : JsonTreeNode :=
  match v with
  | JArr items =>
      Node (key_of_path basePath) basePath TArray None
        (Some ((fix each (vs : list value) (i : nat) : list JsonTreeNode :=
                  match vs with
                  | [] => []
                  | childValue :: vs' =>
                      buildJsonTree childValue
                        (basePath ++ 91 :: index_to_string i ++ [93])
                      :: each vs' (S i)
                  end) items O))
  | JObj members =>
      Node (key_of_path basePath) basePath TObject None
        (Some ((fix each (ms : list (str * value)) : list JsonTreeNode :=
                  match ms with
                  | [] => []
                  | (k, child) :: ms' =>
                      buildJsonTree child (basePath ++ 46 :: k) :: each ms'
                  end) members))
  | _ => Node (key_of_path basePath) basePath TValue (Some (createValuePreview v)) None
  end.

Definition preview_text (o : option str) : str :=
  match o with Some s => s | None => [] end.

Fixpoint keep_some {A : Type} (l : list (option A)) : list A :=
  match l with
  | [] => []
  | Some a :: l' => a :: keep_some l'
  | None :: l' => keep_some l'
  end.

(** [filterTreeByQuery(node, q)] *)
Fixpoint filterTreeByQuery (node : JsonTreeNode) (q : str) : option JsonTreeNode :=
  match q with
  | [] => Some node
  | _ =>
      let ql := toLowerCase q in
      let '(Node key path type preview children) := node in
      let selfMatch :=
        includes (toLowerCase path) ql
        || includes (toLowerCase (preview_text preview)) ql in
      match children with
      | Some (c :: cs) =>
          let filteredChildren :=
            keep_some (map (fun c => filterTreeByQuery c q) (c :: cs)) in
          match filteredChildren with
          | [] => if selfMatch then Some (Node key path type preview (Some [])) else None
          | _ => Some (Node key path type preview (Some filteredChildren))
          end
      | _ => if selfMatch then Some node else None
      end
  end.

(** ** The paste boundary *)

Record state : Type := mkstate {
  rawJson : str;
  toast : option str;
  isPasteOverlayOpen : bool;
  pasteBuffer : str
}.

(** [applyPastedJson()]; the state setters become a new state. *)
Definition applyPastedJson (st : state) : state :=
  let candidate := trim (pasteBuffer st) in
  match candidate with
  | [] => mkstate (rawJson st) (Some (txt "Nothing to paste"))
            (isPasteOverlayOpen st) (pasteBuffer st)
  | _ =>
      match parseJsonFlexible candidate with
      | JNull => mkstate (rawJson st) (Some (txt "Invalid JSON"))
                   (isPasteOverlayOpen st) (pasteBuffer st)
      | data => mkstate (JSON_stringify data) (Some (txt "Pasted JSON"))
                  false (pasteBuffer st)
      end
  end.

(** ** Vocabulary of the statements *)

(** No unit of [s] satisfies [P]. *)
Definition lacks (P : N -> bool) (s : str) : bool :=
  forallb (fun a => negb (P a)) s.

(** The pattern [r] cannot match where no unit satisfying [P] follows. *)
Definition never_without (r : regex) (P : N -> bool) : Prop :=
  forall x c k, lacks P (after x) = true -> exec r x c k = None.

(** The units of a document that decodes to [null]: JSON white space and
    the letters of the literal. *)
Definition null_unit (c : N) : bool :=
  is_json_ws c || (c =? 110) || (c =? 117) || (c =? 108).

(** *** The addressing scheme, as the specification words it *)

(** [P.k] and [P[i]] *)
Definition member_path (P k : str) : str := P ++ 46 :: k.
Definition element_path (P : str) (i : nat) : str := P ++ 91 :: index_to_string i ++ [93].

(** [addressed v P q]: [q] is the path of a member or element of [v], or of
    one of their descendants, when [v] itself has path [P]. *)
Inductive addressed : value -> str -> str -> Prop :=
| addr_member ms P k c :
    In (k, c) ms -> addressed (JObj ms) P (member_path P k)
| addr_element items P i c :
    nth_error items i = Some c -> addressed (JArr items) P (element_path P i)
| addr_under_member ms P k c q :
    In (k, c) ms -> addressed c (member_path P k) q -> addressed (JObj ms) P q
| addr_under_element items P i c q :
    nth_error items i = Some c -> addressed c (element_path P i) q ->
    addressed (JArr items) P q.

(** The two loops of [extractPaths], by name. *)
Fixpoint each_element (base : str) (vs : list value) (i : nat) : list str :=
  match vs with
  | [] => []
  | child :: vs' =>
      let next := base ++ 91 :: index_to_string i ++ [93] in
      next :: extractPaths child next ++ each_element base vs' (S i)
  end.

Fixpoint each_member (base : str) (ms : list (str * value)) : list str :=
  match ms with
  | [] => []
  | (key, child) :: ms' =>
      let sep := match base with [] => [] | _ => [46] end in
      let next := base ++ sep ++ key in
      next :: extractPaths child next ++ each_member base ms'
  end.

(** Sample data of the statements *)
Definition users_sample : value :=
  JObj [(txt "users", JArr [JObj [(txt "id", JNum (Fin 1 0))]])].

Definition failed_paste_state : state :=
  mkstate (txt "{`status`: `ready`}") None true (txt " not json at all { ").


Definition xyz_sample : value := JObj [(txt "a", JStr (txt "xyz"))].

(** *** The key of a tree node *)

Definition is_path_separator (c : N) : bool := (c =? 46) || (c =? 91).

(** What follows the last dot or opening bracket of [s] ([piece] is what was
    read since the last one). *)
Fixpoint last_segment (piece s : str) : str :=
  match s with
  | [] => piece
  | a :: s' =>
      if is_path_separator a then last_segment [] s'
      else last_segment (piece ++ [a]) s'
  end.

(** The two loops of [buildJsonTree], by name. *)
Fixpoint tree_elements (basePath : str) (vs : list value) (i : nat) : list JsonTreeNode :=
  match vs with
  | [] => []
  | childValue :: vs' =>
      buildJsonTree childValue (basePath ++ 91 :: index_to_string i ++ [93])
        :: tree_elements basePath vs' (S i)
  end.

Fixpoint tree_members (basePath : str) (ms : list (str * value)) : list JsonTreeNode :=
  match ms with
  | [] => []
  | (k, child) :: ms' =>
      buildJsonTree child (basePath ++ 46 :: k) :: tree_members basePath ms'
  end.

Definition children_of (n : JsonTreeNode) : list JsonTreeNode :=
  match node_children n with Some cs => cs | None => [] end.

(** The pattern [r] cannot match unless the next unit satisfies [P]. *)
Definition needs_head (r : regex) (P : N -> bool) : Prop :=
  forall b s c k,
    match s with [] => True | a :: _ => P a = false end ->
    exec r (mkpos b s) c k = None.

(** The pattern [r] does not look at the unit before the position. *)
Definition looks_ahead_only (r : regex) : Prop :=
  forall b b' s c k, exec r (mkpos b s) c k = exec r (mkpos b' s) c k.

(** The unit before the position reached after reading [pre] from a position
    that had [b] before it. *)
Definition prev_of (b : option N) (pre : str) : option N :=
  match pre with
  | [] => b
  | _ :: _ => Some (last pre 0)
  end.

(** *** Comments, as the specification words them *)


(** The rest of the line: the units up to the next line terminator, and the
    text from that terminator on. *)
Fixpoint rest_of_line (s : str) : str * str :=
  match s with
  | [] => ([], [])
  | a :: s' =>
      if dot a then let (l, r) := rest_of_line s' in (a :: l, r)
      else ([], s)
  end.

(** The stage of the line comments on a text whose previous unit is [b]. *)
Definition strip_line_comments_at (b : option N) (t : str) : str :=
  replace_at re_line_comment (fun _ _ => []) (mkpos b t).

(** What follows the optional blank in the pattern of the line comments:
    two slashes, the rest of the line, the end of the line. *)
Definition line_comment_tail : regex :=
  cat [Char (ch 47); Char (ch 47); Star true (Char dot); LineEnd].

(** *** Single-quoted literals, as the specification words them *)

(** The inside of a single-quoted literal is a sequence of plain units (any
    unit but the single quote and the backslash) and of escapes (a backslash
    and the unit it escapes, which is not a line terminator). *)
Inductive token : Type :=
| Plain (c : N)
| Escaped (c : N).

Definition token_ok (t : token) : bool :=
  match t with
  | Plain c => negb ((c =? 39) || (c =? 92))
  | Escaped c => dot c
  end.

Definition token_text (t : token) : str :=
  match t with
  | Plain c => [c]
  | Escaped c => [92; c]
  end.

Definition literal_body (ts : list token) : str := flat_map token_text ts.

(** The escaped single quote becomes a single quote; the rest stays. *)
Definition unescape_single (ts : list token) : str :=
  flat_map (fun t => match t with
                     | Plain c => [c]
                     | Escaped c => if c =? 39 then [39] else [92; c]
                     end) ts.

(** Every double quote gets a backslash before it. *)
Definition escape_double (s : str) : str :=
  flat_map (fun c => if c =? 34 then [92; 34] else [c]) s.

(** *** Object keys, as the specification words them *)

Definition is_opener (c : N) : bool := (c =? 123) || (c =? 44).

(** Letters, digits, underscore, hyphen, not starting with a digit. *)
Definition bare_identifier_as_specified (k : str) : bool :=
  match k with
  | [] => false
  | c :: _ => forallb ident_part k && negb (is_digit c)
  end.

(** The next unit, if any, is not white space. *)
Definition no_space_ahead (s : str) : Prop :=
  match s with [] => True | a :: _ => is_space a = false end.

(** *** Vocabulary for binary64 values *)

Local Open Scope Z_scope.

(** [m * 2^e] with [m] positive is a finite binary64 value in lowest terms:
    an odd mantissa of at most 53 bits, an exponent of at least -1074, and a
    value below 2^1024. *)
Definition representable (m e : Z) : Prop :=
  Z.odd m = true /\ 0 < m < 2 ^ 53 /\ -1074 <= e /\ Z.log2 m + e < 1024.

Definition wf_number (x : number) : Prop :=
  match x with
  | Fin m e => (m = 0 /\ e = 0) \/ representable (Z.abs m) e
  | Inf _ => True
  end.

(** [2^e <= a/b] and [a/b < 2^e], with the denominators cleared. *)
Definition pow2_le (e a b : Z) : Prop :=
  b * 2 ^ Z.max e 0 <= a * 2 ^ Z.max (- e) 0.
Definition lt_pow2 (a b e : Z) : Prop :=
  a * 2 ^ Z.max (- e) 0 < b * 2 ^ Z.max e 0.

Local Open Scope N_scope.

(** What may follow a number in a JSON text: nothing, or a unit that is not
    part of a number. *)
Definition ends_number (rest : str) : bool :=
  match rest with
  | [] => true
  | c :: _ => negb (is_digit c || (c =? 46) || (c =? 101) || (c =? 69))
  end.

(** The text is an unsigned number literal followed by [rest], and its value
    is the decimal [s * 10^j]. *)
Definition reads_as (text rest : str) (s j : Z) : Prop :=
  exists ip fp ex r1 r2,
    parse_int text = Some (ip, r1) /\
    parse_frac r1 = Some (fp, r2) /\
    parse_exp r2 = Some (ex, rest) /\
    (0 < digits_value (ip ++ fp))%Z /\
    dec_ratio (digits_value (ip ++ fp)) (ex - Z.of_nat (length fp))%Z = dec_ratio s j.

(** *** Values that [JSON.parse] builds *)

(** The keys of an object in the order of [Object.keys]: no key twice, an
    array-index key before every larger one, and no array-index key after a
    key that is not one. *)
Fixpoint keys_ok (ks : list str) : bool :=
  match ks with
  | [] => true
  | k :: ks' =>
      negb (existsb (fun k' => str_eqb k' k) ks')
      && match array_index k with
         | Some i =>
             forallb (fun k' => match array_index k' with
                                | Some i' => (i <? i')%Z
                                | None => true
                                end) ks'
         | None =>
             forallb (fun k' => match array_index k' with
                                | Some _ => false
                                | None => true
                                end) ks'
         end
      && keys_ok ks'
  end.

Inductive wf_value : value -> Prop :=
| wf_null : wf_value JNull
| wf_bool b : wf_value (JBool b)
| wf_num x : wf_number x -> wf_value (JNum x)
| wf_str s : wf_value (JStr s)
| wf_arr items : Forall wf_value items -> wf_value (JArr items)
| wf_obj ms :
    keys_ok (map fst ms) = true ->
    Forall (fun kv => wf_value (snd kv)) ms -> wf_value (JObj ms).

(** No Number of the value is an infinity. *)
Fixpoint finite_value (v : value) : bool :=
  match v with
  | JNum (Inf _) => false
  | JArr items => forallb finite_value items
  | JObj ms => forallb (fun kv => finite_value (snd kv)) ms
  | _ => true
  end.

(** The members of an object text, set one after the other. *)
Definition set_all (ms : list (str * value)) (acc : object) : object :=
  fold_left (fun o kv => obj_set (fst kv) (snd kv) o) ms acc.

(** A numeral without a leading zero (the empty one included). *)
Definition plain_numeral (k : str) : Prop :=
  forallb is_digit k = true /\ (k = [] \/ hd 48 k <> 48).

(** Every array-index key of [ks] is larger than [i]. *)
Definition after_index (i : Z) (ks : list str) : bool :=
  forallb (fun k' => match array_index k' with
                     | Some i' => (i <? i')%Z
                     | None => true
                     end) ks.

(** No key of [ks] is an array-index key. *)
Definition no_index (ks : list str) : bool :=
  forallb (fun k' => match array_index k' with
                     | Some _ => false
                     | None => true
                     end) ks.

(** What follows a value inside a serialization: nothing, a comma or a line
    feed. *)
Definition delimited (rest : str) : bool :=
  match rest with
  | [] => true
  | c :: _ => (c =? 44) || (c =? 10)
  end.

(** A unit that opens a value of a serialization. *)
Definition opens_value (c : N) : bool :=
  negb (is_json_ws c) && negb (c =? 93) && negb (c =? 125) && negb (c =? 44).

(** The text of one member of an object. *)
Definition member_text (ind : str) (kv : str * value) : str :=
  quote (fst kv) ++ 58 :: 32 :: serialize ind (snd kv).

(** [v] is read back from its serialization, whatever the indentation, in
    front of whatever may follow a value. *)
Definition reads_back (v : value) : Prop :=
  wf_value v -> finite_value v = true ->
  forall ind rest f,
    forallb is_json_ws ind = true -> delimited rest = true ->
    (2 * length (serialize ind v) <= f)%nat ->
    parse_value f (serialize ind v ++ rest) = Some (v, rest).

(** ** The request side of the component *)

(** [isValidEndpointPath(candidate)]: [candidate.startsWith("/")] *)
Definition isValidEndpointPath (candidate : str) : bool :=
  starts_with [47] candidate.

Inductive token_type : Type :=
| Bearer | ApiKey | RefreshToken | Basic | CustomHeader.

(** A [Record<string, string>]: the header names with their values. *)
Definition headers := list (str * str).

(** [buildAuthHeaders(tokenType, token, customHeaderName, customPrefix)] *)
Definition buildAuthHeaders (tokenType : token_type)
  (tokenText customHeaderName customPrefix : str) : headers :=
  match tokenText with
  | [] => []
  | _ :: _ =>
      match tokenType with
      | Bearer => [(txt "Authorization", txt "Bearer " ++ tokenText)]
      | ApiKey => [(txt "X-API-Key", tokenText)]
      | RefreshToken => [(txt "Authorization", txt "Refresh " ++ tokenText)]
      | Basic => [(txt "Authorization", txt "Basic " ++ tokenText)]
      | CustomHeader =>
          let headerName :=
            trim (match customHeaderName with
                  | [] => txt "X-Custom-Token"
                  | _ :: _ => customHeaderName
                  end) in
          let value :=
            match customPrefix with
            | [] => tokenText
            | _ :: _ => trim customPrefix ++ 32 :: tokenText
            end in
          [(headerName, value)]
      end
  end.

(** [new Blob([text]).size]: the length of the text in UTF-8.  A surrogate
    pair is one code point of four bytes; a surrogate on its own is written
    as U+FFFD, three bytes. *)
Fixpoint utf8_size (s : str) : nat :=
  match s with
  | [] => 0
  | c :: s' =>
      if c <? 128 then S (utf8_size s')
      else if c <? 2048 then (2 + utf8_size s')%nat
      else if is_lead c then
        match s' with
        | d :: s'' =>
            if is_trail d then (4 + utf8_size s'')%nat
            else (3 + utf8_size s')%nat
        | [] => 3%nat
        end
      else (3 + utf8_size s')%nat
  end.

(** The state of the component: the [useState] cells.  The four cells of the
    paste boundary are the [view]. *)
Record component : Type := mkcomponent {
  domain : str;
  endpoint : str;
  tokenText : str;               (* the cell [token] *)
  tokenType : token_type;
  customHeaderName : str;
  customPrefix : str;
  showToken : bool;
  isLoading : bool;
  error : option str;
  statusCode : option nat;
  pathSearch : str;
  showAuthControls : bool;
  responseTimeMs : option Z;
  responseSizeBytes : option nat;
  view : state
}.

Definition setIsLoading (b : bool) (a : component) : component :=
  mkcomponent (domain a) (endpoint a) (tokenText a) (tokenType a) (customHeaderName a)
    (customPrefix a) (showToken a) b (error a) (statusCode a) (pathSearch a)
    (showAuthControls a) (responseTimeMs a) (responseSizeBytes a) (view a).

Definition setError (e : option str) (a : component) : component :=
  mkcomponent (domain a) (endpoint a) (tokenText a) (tokenType a) (customHeaderName a)
    (customPrefix a) (showToken a) (isLoading a) e (statusCode a) (pathSearch a)
    (showAuthControls a) (responseTimeMs a) (responseSizeBytes a) (view a).

Definition setStatusCode (c : option nat) (a : component) : component :=
  mkcomponent (domain a) (endpoint a) (tokenText a) (tokenType a) (customHeaderName a)
    (customPrefix a) (showToken a) (isLoading a) (error a) c (pathSearch a)
    (showAuthControls a) (responseTimeMs a) (responseSizeBytes a) (view a).

Definition setResponseTimeMs (t : option Z) (a : component) : component :=
  mkcomponent (domain a) (endpoint a) (tokenText a) (tokenType a) (customHeaderName a)
    (customPrefix a) (showToken a) (isLoading a) (error a) (statusCode a)
    (pathSearch a) (showAuthControls a) t (responseSizeBytes a) (view a).

Definition setResponseSizeBytes (n : option nat) (a : component) : component :=
  mkcomponent (domain a) (endpoint a) (tokenText a) (tokenType a) (customHeaderName a)
    (customPrefix a) (showToken a) (isLoading a) (error a) (statusCode a)
    (pathSearch a) (showAuthControls a) (responseTimeMs a) n (view a).

Definition setView (v : state) (a : component) : component :=
  mkcomponent (domain a) (endpoint a) (tokenText a) (tokenType a) (customHeaderName a)
    (customPrefix a) (showToken a) (isLoading a) (error a) (statusCode a)
    (pathSearch a) (showAuthControls a) (responseTimeMs a) (responseSizeBytes a) v.

Definition setRawJson (t : str) (a : component) : component :=
  setView (mkstate t (toast (view a)) (isPasteOverlayOpen (view a))
             (pasteBuffer (view a))) a.

(** What a [throw] or a rejected promise carries: an [Error] with its
    message, or something that is not an [Error]. *)
Inductive thrown : Type :=
| ErrorObject (message : str)
| NotAnError.

(** What the platform answers to [fetch(url, { headers, method: "GET" })]:
    the promise is rejected, or there is a response with its status and a
    body whose [text()] resolves or is rejected.  [elapsed] is
    [Math.round(t1 - t0)] for the two readings of [performance.now()]. *)
Inductive body_outcome : Type :=
| BodyText (text : str)
| BodyFails (e : thrown).

Inductive fetch_outcome : Type :=
| FetchFails (e : thrown)
| Responds (elapsed : Z) (status : nat) (body : body_outcome).

(** [res.ok]: the status is in the range 200 to 299. *)
Definition response_ok (status : nat) : bool :=
  (200 <=? status)%nat && (status <=? 299)%nat.

(** A handler runs on the cells and ends normally or by a [throw]. *)
Inductive completion : Type :=
| Normal
| Throw (e : thrown).

Definition handler := component -> component * completion.

Definition done : handler := fun a => (a, Normal).
Definition throw (e : thrown) : handler := fun a => (a, Throw e).
Definition throw_error (message : string) : handler := throw (ErrorObject (txt message)).
Definition update (f : component -> component) : handler := fun a => (f a, Normal).

Definition then_ (m k : handler) : handler :=
  fun a =>
    match m a with
    | (a', Normal) => k a'
    | (a', Throw e) => (a', Throw e)
    end.

Notation "m ;; k" := (then_ m k) (at level 61, right associativity).

Definition when (b : bool) (m : handler) : handler := if b then m else done.

(** [try { body } catch (e) { recover(e) } finally { last }], for a [recover]
    that does not throw. *)
Definition try_catch_finally (body : handler) (recover : thrown -> component -> component)
  (last : component -> component) (a : component) : component :=
  match body a with
  | (a', Normal) => last a'
  | (a', Throw e) => last (recover e a')
  end.

Definition is_empty (s : str) : bool := match s with [] => true | _ :: _ => false end.

Section Platform.

(** [isValidDomainUrl]: [new URL(candidate)] does not throw and gives the
    protocol [http:] or [https:].  The URL parser belongs to the platform. *)
Variable isValidDomainUrl : str -> bool.

Variable fetch : str -> headers -> fetch_outcome.

Definition domainInvalid (a : component) : bool :=
  if is_empty (domain a) then false else negb (isValidDomainUrl (domain a)).

Definition endpointInvalid (a : component) : bool :=
  if is_empty (endpoint a) then false else negb (isValidEndpointPath (endpoint a)).

Definition composedUrl (a : component) : str := domain a ++ endpoint a.

(** The [try] block of [onFetch], for the cells [a] the handler closed
    over. *)
Definition onFetch_try (a : component) : handler :=
  when (is_empty (domain a)) (throw_error "Domain is required") ;;
  when (domainInvalid a) (throw_error "Invalid domain URL") ;;
  when (endpointInvalid a) (throw_error "Endpoint must start with /") ;;
  let url := composedUrl a in
  let hs := buildAuthHeaders (tokenType a) (tokenText a) (customHeaderName a)
              (customPrefix a) in
  match fetch url hs with
  | FetchFails e => throw e
  | Responds elapsed status body =>
      update (setResponseTimeMs (Some (Z.max 0 elapsed))) ;;
      update (setStatusCode (Some status)) ;;
      when (negb (response_ok status))
        (if (status =? 401)%nat then throw_error "Unauthorized (401)"
         else throw (ErrorObject (txt "Request failed (" ++ index_to_string status
                                    ++ txt ")"))) ;;
      match body with
      | BodyFails e => throw e
      | BodyText text =>
          update (setResponseSizeBytes (Some (utf8_size text))) ;;
          let data := parseJsonSafely text in
          when (match data with JNull => true | _ => false end)
            (throw_error "Response is not JSON") ;;
          update (setRawJson (JSON_stringify data))
      end
  end.

(** [e instanceof Error ? e.message : "Network error"] *)
Definition error_message (e : thrown) : str :=
  match e with
  | ErrorObject message => message
  | NotAnError => txt "Network error"
  end.

(** [onFetch()] *)
Definition onFetch (a : component) : component :=
  let a1 := setResponseSizeBytes None
              (setResponseTimeMs None
                 (setStatusCode None (setError None (setIsLoading true a)))) in
  try_catch_finally (onFetch_try a)
    (fun e => setError (Some (error_message e)))
    (setIsLoading false) a1.

End Platform.

(** The document of the first render and of [onReset]. *)
Definition ready_document : value :=
  JObj [(txt "status", JStr (txt "ready"));
        (txt "hint", JStr (txt "Fetch an API to preview its raw JSON here."))].

(** [onReset()] *)
Definition onReset (a : component) : component :=
  mkcomponent [] [] [] (tokenType a) (customHeaderName a) (customPrefix a)
    false (isLoading a) None None [] false
    (responseTimeMs a) (responseSizeBytes a)
    (mkstate (JSON_stringify ready_document) (toast (view a))
       (isPasteOverlayOpen (view a)) (pasteBuffer (view a))).

(** What [navigator.clipboard.readText()] gives: a text, or a rejection. *)
Inductive clipboard : Type :=
| ClipboardText (text : str)
| ClipboardDenied.

(** [openPasteOverlayAndMaybeReadClipboard()] *)
Definition openPasteOverlayAndMaybeReadClipboard (clip : clipboard) (st : state) : state :=
  let opened := mkstate (rawJson st) (toast st) true [] in
  match clip with
  | ClipboardText text =>
      if negb (is_empty text) && negb (is_empty (trim text))
      then mkstate (rawJson st) (toast st) true (trim text)
      else opened
  | ClipboardDenied => opened
  end.

(** ** What is derived from the cells *)

(** The truthiness of a decoded value. *)
Definition truthy (v : value) : bool :=
  match v with
  | JNull => false
  | JBool b => b
  | JNum (Fin m _) => negb (m =? 0)%Z
  | JNum (Inf _) => true
  | JStr s => negb (is_empty s)
  | JArr _ | JObj _ => true
  end.

Definition parsedObject (st : state) : value := parseJsonSafely (rawJson st).

Definition allPaths (st : state) : list str :=
  if truthy (parsedObject st) then extractPaths (parsedObject st) (txt "data") else [].

Definition filteredPaths (st : state) (search : str) : list str :=
  filterPaths (allPaths st) search.

Definition rootTree (st : state) : option JsonTreeNode :=
  if truthy (parsedObject st) then Some (buildJsonTree (parsedObject st) (txt "data"))
  else None.

Definition filteredTree (st : state) (search : str) : option JsonTreeNode :=
  match rootTree st with
  | Some root => filterTreeByQuery root search
  | None => None
  end.

(** ** The expanded branches of the tree view *)

(** A [Set<string>]: its elements in the order of insertion, none twice. *)
Definition string_set := list str.

Definition set_has (s : string_set) (p : str) : bool := existsb (str_eqb p) s.

Definition set_add (p : str) (s : string_set) : string_set :=
  if set_has s p then s else s ++ [p].

Definition set_delete (p : str) (s : string_set) : string_set :=
  filter (fun x => negb (str_eqb p x)) s.

(** [toggleExpand(path)], as the update of the cell [expanded] *)
Definition toggleExpand (path : str) (prev : string_set) : string_set :=
  if set_has prev path then set_delete path prev else set_add path prev.

(** [stack.pop()]: the last element and what stays. *)
Definition pop {A : Type} (stack : list A) : option (A * list A) :=
  match rev stack with
  | [] => None
  | n :: r => Some (n, rev r)
  end.

(** The loop of the effect that expands every branch during a search: while
    the stack is not empty, pop a node, add its path, push its children.
    [None] when the fuel runs out. *)
Fixpoint expand_loop (fuel : nat) (stack : list JsonTreeNode) (all : string_set)
  : option string_set :=
  match pop stack with
  | None => Some all
  | Some (n, stack') =>
      match fuel with
      | O => None
      | S fuel' =>
          expand_loop fuel'
            (match node_children n with
             | Some cs => stack' ++ cs
             | None => stack'
             end)
            (set_add (node_path n) all)
      end
  end.

(** The number of nodes of a tree. *)
Fixpoint tree_size (n : JsonTreeNode) : nat :=
  match n with
  | Node _ _ _ _ (Some cs) => S (list_sum (map tree_size cs))
  | Node _ _ _ _ None => 1
  end.

(** The effect on [pathSearch] and [rootTree]: the new [expanded], if the
    effect sets it. *)
Definition expand_on_search (search : str) (root : option JsonTreeNode)
  : option string_set :=
  match search, root with
  | _ :: _, Some r => expand_loop (tree_size r) [r] []
  | _, _ => None
  end.

(** ** The rows of the tree view *)

Definition node_kind (n : JsonTreeNode) : node_type := let (_, _, t, _, _) := n in t.

Inductive marker : Type := Open | Closed | Leaf.

(** One row of [JsonTreeView]: the left padding in pixels, the marker, the
    label and the path shown beside the copy button. *)
Record row : Type := mkrow {
  row_padding : nat;
  row_marker : marker;
  row_label : str;
  row_path : str
}.

(** The text after the key: the brackets of the kind, or the preview of a
    value when it is not empty. *)
Definition label_suffix (n : JsonTreeNode) : str :=
  match node_kind n with
  | TArray => txt " []"
  | TObject => txt " {}"
  | TValue =>
      match node_preview n with
      | Some (c :: p) => 58 :: 32 :: c :: p
      | _ => []
      end
  end.

Definition isBranch (n : JsonTreeNode) : bool :=
  match node_kind n with TObject | TArray => true | TValue => false end.

(** [JsonTreeView({ node, depth })]: its row, then the rows of its children
    when it is an open branch. *)
Fixpoint JsonTreeView (expanded : string_set) (node : JsonTreeNode) (depth : nat)
  : list row :=
  let isOpen := set_has expanded (node_path node) in
  mkrow (depth * 12)
    (if isBranch node then if isOpen then Open else Closed else Leaf)
    (node_key node ++ label_suffix node) (node_path node)
  :: match node with
     | Node _ _ _ _ (Some cs) =>
         if isBranch node && isOpen
         then flat_map (fun c => JsonTreeView expanded c (S depth)) cs
         else []
     | Node _ _ _ _ None => []
     end.

(** ** The text of the highlighted view *)

(** [Punct({ ch, depth })]: the character; the depth only picks its colour. *)
Definition Punct (c : N) (depth : nat) : str := [c].

(** ["  ".repeat(depth)] *)
Definition indent_of (depth : nat) : str := concat (repeat gap depth).

(** The text that [JsonCode({ value, depth })] renders.  A value that is
    neither an array nor an object goes to [PrimitiveToken]: [null], a
    string between two double quotes as it is, [String(value)] for a number
    or a boolean.  Every element but the last is followed by a comma. *)
Fixpoint JsonCode (v : value) (depth : nat) : str :=
  let indent := indent_of depth in
  match v with
  | JArr [] => Punct 91 depth ++ Punct 93 depth
  | JArr items =>
      Punct 91 depth ++ LF ::
      (fix each (vs : list value) : str :=
         match vs with
         | [] => []
         | [x] => indent ++ gap ++ JsonCode x (S depth) ++ [LF]
         | x :: vs' => indent ++ gap ++ JsonCode x (S depth) ++ 44 :: LF :: each vs'
         end) items
      ++ indent ++ Punct 93 depth
  | JObj [] => Punct 123 depth ++ Punct 125 depth
  | JObj entries =>
      Punct 123 depth ++ LF ::
      (fix each (es : list (str * value)) : str :=
         match es with
         | [] => []
         | [(k, x)] =>
             indent ++ gap ++ 34 :: k ++ 34 :: 58 :: 32 :: JsonCode x (S depth) ++ [LF]
         | (k, x) :: es' =>
             indent ++ gap ++ 34 :: k ++ 34 :: 58 :: 32 :: JsonCode x (S depth)
               ++ 44 :: LF :: each es'
         end) entries
      ++ indent ++ Punct 125 depth
  | JNull => txt "null"
  | JStr s => 34 :: s ++ [34]
  | JNum x => number_to_string x
  | JBool true => txt "true"
  | JBool false => txt "false"
  end.

(** The cells after a request: those of the request and of the paste
    boundary as they were, no loading, and the given outcome. *)
Definition settled (a : component) (time : option Z) (status : option nat)
  (size : option nat) (err : option str) (document : str) : component :=
  mkcomponent (domain a) (endpoint a) (tokenText a) (tokenType a) (customHeaderName a)
    (customPrefix a) (showToken a) false err status (pathSearch a)
    (showAuthControls a) time size
    (mkstate document (toast (view a)) (isPasteOverlayOpen (view a))
       (pasteBuffer (view a))).

(** The message of a response whose status is not in the range of success. *)
Definition status_message (status : nat) : str :=
  if (status =? 401)%nat then txt "Unauthorized (401)"
  else txt "Request failed (" ++ index_to_string status ++ txt ")".

(** Cells whose endpoint does not start with a slash. *)
Definition refused_request : component :=
  mkcomponent (txt "https://api.example.com") (txt "v1/users") [] Bearer
    (txt "X-Custom-Token") [] false false None None [] false None None
    (mkstate (txt "{}") None false []).

(** The nodes of a tree, each before its children. *)
Fixpoint tree_nodes (n : JsonTreeNode) : list JsonTreeNode :=
  n :: match n with
       | Node _ _ _ _ (Some cs) => flat_map tree_nodes cs
       | Node _ _ _ _ None => []
       end.

Definition tree_paths (n : JsonTreeNode) : list str := map node_path (tree_nodes n).

(** [selfMatch] of [filterTreeByQuery]: the path or the preview of the node
    contains the query, whatever the case of the letters. *)
Definition self_match (q : str) (n : JsonTreeNode) : bool :=
  includes (toLowerCase (node_path n)) (toLowerCase q)
  || includes (toLowerCase (preview_text (node_preview n))) (toLowerCase q).

(** Two nodes that show the same key, path, kind and preview. *)
Definition same_label (n' n : JsonTreeNode) : Prop :=
  node_key n' = node_key n /\ node_path n' = node_path n /\
  node_kind n' = node_kind n /\ node_preview n' = node_preview n.

(** The children that [filterTreeByQuery] keeps. *)
Definition kept_children (q : str) (n : JsonTreeNode) : list JsonTreeNode :=
  keep_some (map (fun c => filterTreeByQuery c q) (children_of n)).

Definition users_pruned : JsonTreeNode :=
  Eval vm_compute in
    match filterTreeByQuery (buildJsonTree users_sample (txt "data")) (txt "ID") with
    | Some t => t
    | None => buildJsonTree users_sample (txt "data")
    end.

Definition users_expanded : string_set :=
  Eval vm_compute in
    match expand_on_search (txt "ID") (Some (buildJsonTree users_sample (txt "data"))) with
    | Some all => all
    | None => []
    end.

(** [JSON.stringify] writes the string between the quotes as it is. *)
Definition written_as_is (s : str) : bool := str_eqb (quote_units s) s.

(** Every string and every key of the value is written as it is. *)
Fixpoint plain_strings (v : value) : bool :=
  match v with
  | JStr s => written_as_is s
  | JArr items => forallb plain_strings items
  | JObj ms => forallb (fun kv => written_as_is (fst kv) && plain_strings (snd kv)) ms
  | _ => true
  end.

(** Every unit is at most U+00FF: the part of the case tables that
    [toLowerCase] models. *)
Definition latin1 (s : str) : bool := forallb (fun c => c <? 256) s.

(** The units on which [lower_unit] is the lower case of the source: those
    up to U+00FF, and the ellipsis that ends a shortened preview, which has
    no case. *)
Definition modelled_case (s : str) : bool :=
  forallb (fun c => (c <? 256) || (c =? ELLIPSIS)) s.

(** Every path and every preview of the tree is made of such units. *)
Definition modelled_tree (n : JsonTreeNode) : bool :=
  forallb (fun m => modelled_case (node_path m)
                    && modelled_case (preview_text (node_preview m)))
    (tree_nodes n).

Definition is_closer (c : N) : bool := (c =? 125) || (c =? 93).

Definition UNDEFINED : str := [117; 110; 100; 101; 102; 105; 110; 101; 100].

(** Cells with a paste in the buffer whose number is beyond the range of a
    Number. *)
Definition overflowing_paste : component :=
  mkcomponent (txt "https://api.example.com") (txt "/v1/users") [] Bearer
    (txt "X-Custom-Token") [] false false None None [] false None None
    (mkstate (txt "{}") None true (txt "{big: [1e999, 2],}")).

(** The value with [null] in the place of every infinity: what
    [JSON.stringify] writes. *)
Fixpoint without_infinities (v : value) : value :=
  match v with
  | JNum (Inf _) => JNull
  | JArr items => JArr (map without_infinities items)
  | JObj ms => JObj (map (fun kv => (fst kv, without_infinities (snd kv))) ms)
  | _ => v
  end.

(** The units that can start a rewrite: slash, single quote, opening brace,
    comma and the letter u. *)
Definition rewrite_trigger (c : N) : bool :=
  (c =? 47) || (c =? 39) || (c =? 123) || (c =? 44) || (c =? 117).

(** What is left of a text after its longest prefix of identifier units. *)
Fixpoint drop_ident (s : str) : str :=
  match s with
  | c :: s' => if ident_part c then drop_ident s' else s
  | [] => []
  end.

(** What follows an opener is optional white space, an identifier, optional
    white space and a colon. *)
Definition key_follows (rest : str) : bool :=
  match drop_space rest with
  | i0 :: r =>
      ident_start i0
      && match drop_space (drop_ident r) with
         | c :: _ => c =? 58
         | [] => false
         end
  | [] => false
  end.

(** After an opening apostrophe the text reaches a closing one: plain units
    and escapes (a backslash and a unit that is not a line terminator), then
    an apostrophe. *)
Fixpoint closes (s : str) : bool :=
  match s with
  | [] => false
  | c :: s' =>
      if c =? 39 then true
      else if c =? 92 then
        match s' with
        | d :: s'' => dot d && closes s''
        | [] => false
        end
      else closes s'
  end.


(** The stage of the bare word on a text whose previous unit is [b]. *)
Definition replace_undefined_at (b : option N) (t : str) : str :=
  replace_at re_undefined (fun _ _ => txt "null") (mkpos b t).

(** The word undefined stands at the start of [t] as a word of its own: no
    word unit is before it, none after it. *)
Definition stands_alone (b : option N) (t : str) : bool :=
  negb (word_at b) && starts_with UNDEFINED t
  && negb (word_at (hd_error (skipn 9 t))).

(** * Properties *)

(** ** The matcher and [replace] *)

Lemma consumed_app b b' (m r : str) :
  consumed (mkpos b (m ++ r)) (mkpos b' r) = m.
Proof.
  unfold consumed; simpl.
  rewrite length_app.
  replace (length m + length r - length r)%nat with (length m) by lia.
  rewrite firstn_app, Nat.sub_diag, firstn_all. simpl. apply app_nil_r.
Qed.

Lemma lacks_app P (s t : str) :
  lacks P (s ++ t) = lacks P s && lacks P t.
Proof. apply forallb_app. Qed.

Lemma replace_from_lacks r P g :
  never_without r P ->
  forall fuel b s, lacks P s = true -> replace_from fuel r g (mkpos b s) = s.
Proof.
  intros H fuel. induction fuel as [|fuel IH]; intros b s Hs; simpl.
  - reflexivity.
  - rewrite (H (mkpos b s)) by exact Hs.
    destruct s as [|a s]; [reflexivity|].
    simpl in Hs. apply andb_prop in Hs as [_ Hs].
    f_equal. apply IH, Hs.
Qed.

Lemma replace_all_lacks r P g (s : str) :
  never_without r P -> lacks P s = true -> replace_all r g s = s.
Proof. intros H Hs. apply (replace_from_lacks r P g H), Hs. Qed.

Lemma block_comment_needs_slash : never_without re_block_comment (ch 47).
Proof.
  intros [b s] c k H. unfold re_block_comment. simpl.
  destruct s as [|a s]; [reflexivity|].
  simpl in H. apply andb_prop in H as [H _].
  unfold ch in *. destruct (a =? 47); [discriminate|reflexivity].
Qed.

Lemma lacks_cons P a (s : str) :
  lacks P (a :: s) = true -> P a = false /\ lacks P s = true.
Proof.
  simpl. intros H. apply andb_prop in H as [H1 H2].
  split; [now destruct (P a)|exact H2].
Qed.

Ltac head_lacks H :=
  let Ha := fresh "Ha" in
  apply lacks_cons in H as [Ha H]; unfold ch in Ha; try rewrite Ha.

Lemma line_comment_needs_slash : never_without re_line_comment (ch 47).
Proof.
  intros [b s] c k H. unfold re_line_comment, ch. simpl in *.
  destruct s as [|a s]; simpl.
  - now destruct b as [a|]; [destruct (is_line_terminator a)|].
  - head_lacks H.
    destruct b as [a0|]; [destruct (is_line_terminator a0)|];
      (destruct (is_space a); [|reflexivity]);
      (destruct s as [|a1 s]; [reflexivity|]);
      now head_lacks H.
Qed.

Lemma single_quoted_needs_quote : never_without re_single_quoted (ch 39).
Proof.
  intros [b s] c k H. unfold re_single_quoted, ch. simpl in *.
  destruct s as [|a s]; [reflexivity|]. now head_lacks H.
Qed.

Lemma unquoted_key_needs_opener :
  never_without re_unquoted_key (fun c => (c =? 123) || (c =? 44)).
Proof.
  intros [b s] c k H. unfold re_unquoted_key. simpl in *.
  destruct s as [|a s]; [reflexivity|]. now head_lacks H.
Qed.

Lemma trailing_comma_needs_comma : never_without re_trailing_comma (ch 44).
Proof.
  intros [b s] c k H. unfold re_trailing_comma, ch. simpl in *.
  destruct s as [|a s]; [reflexivity|]. now head_lacks H.
Qed.

Lemma undefined_needs_d : never_without re_undefined (ch 100).
Proof.
  intros [b s] c k H. unfold re_undefined, lit, ch. simpl in *.
  destruct (xorb (word_at b) (word_at (hd_error s))); [|reflexivity].
  destruct s as [|a s]; [reflexivity|]. head_lacks H.
  destruct (a =? unit_of_ascii "u"); [|reflexivity].
  destruct s as [|a0 s]; [reflexivity|]. head_lacks H.
  destruct (a0 =? unit_of_ascii "n"); [|reflexivity].
  destruct s as [|a1 s]; [reflexivity|].
  change (unit_of_ascii "d") with 100. now head_lacks H.
Qed.

(** ** The strict decoder on documents that decode to [null] *)

Ltac break_match H :=
  repeat match type of H with
         | context [match ?e with _ => _ end] => destruct e eqn:?; try discriminate H
         end.

Lemma skip_ws_split (s : str) :
  exists w, s = w ++ skip_ws s /\ forallb is_json_ws w = true.
Proof.
  induction s as [|a s [w [E W]]]; simpl.
  - now exists [].
  - destruct (is_json_ws a) eqn:Ea.
    + exists (a :: w). simpl. now rewrite Ea, W, <- E.
    + now exists [].
Qed.

Lemma skip_ws_nil (s : str) : skip_ws s = [] -> forallb is_json_ws s = true.
Proof.
  induction s as [|a s IH]; simpl; [reflexivity|].
  destruct (is_json_ws a); [exact IH|discriminate].
Qed.

Lemma strip_prefix_spec (p s r : str) : strip_prefix p s = Some r -> s = p ++ r.
Proof.
  revert s. induction p as [|a p IH]; intros s H; simpl in *.
  - now inversion H.
  - destruct s as [|b s]; [discriminate|].
    destruct (b =? a) eqn:E; [|discriminate].
    apply N.eqb_eq in E. subst b. f_equal. now apply IH.
Qed.

Lemma parse_members_object fuel :
  forall s acc v r, parse_members fuel s acc = Some (v, r) -> exists o, v = JObj o.
Proof.
  induction fuel as [|f IH]; intros s acc v r H; simpl in H; [discriminate|].
  break_match H.
  - eapply IH; eassumption.
  - inversion H. eauto.
Qed.

Lemma parse_value_null fuel (s r : str) :
  parse_value fuel s = Some (JNull, r) -> s = txt "null" ++ r.
Proof.
  destruct fuel as [|f]; intros H; simpl in H; [discriminate|].
  unfold literal in H. break_match H; try (inversion H; fail).
  - apply parse_members_object in H as [o Ho]. discriminate.
  - inversion H. subst. now apply strip_prefix_spec.
Qed.

Lemma forallb_weaken {A} (P Q : A -> bool) (l : list A) :
  (forall a, P a = true -> Q a = true) ->
  forallb P l = true -> forallb Q l = true.
Proof.
  intros PQ. induction l as [|a l IH]; simpl; [reflexivity|].
  intros H. apply andb_prop in H as [H1 H2].
  now rewrite (PQ a H1), IH.
Qed.

Lemma json_ws_null_unit (w : str) :
  forallb is_json_ws w = true -> forallb null_unit w = true.
Proof.
  apply forallb_weaken. intros a H. unfold null_unit. now rewrite H.
Qed.

Lemma null_document_units (t : str) :
  JSON_parse t = Some JNull -> forallb null_unit t = true.
Proof.
  unfold JSON_parse. intros H.
  destruct (parse_value _ (skip_ws t)) as [[v r]|] eqn:P; [|discriminate].
  destruct (skip_ws r) eqn:R; [|discriminate].
  inversion H; subst v.
  apply parse_value_null in P.
  destruct (skip_ws_split t) as [w [E W]].
  rewrite E, P, !forallb_app.
  rewrite (json_ws_null_unit w W), (json_ws_null_unit r (skip_ws_nil r R)).
  reflexivity.
Qed.

Lemma null_unit_lacks P (t : str) :
  (forall c, null_unit c = true -> P c = false) ->
  forallb null_unit t = true -> lacks P t = true.
Proof.
  intros HP. apply forallb_weaken. intros a Ha. now rewrite (HP a Ha).
Qed.

Ltac null_unit_cases :=
  let c := fresh "c" in
  let H := fresh "H" in
  intros c H; unfold null_unit, is_json_ws in H;
  repeat (apply orb_prop in H as [H|H]);
  apply N.eqb_eq in H; subst c; reflexivity.

(** The rewrite stages leave a document that decodes to [null] as it is. *)
Lemma rewrite_stages_null_document (t : str) :
  forallb null_unit t = true -> rewrite_stages t = t.
Proof.
  intros H. unfold rewrite_stages.
  unfold strip_block_comments.
  rewrite (replace_all_lacks _ _ _ t block_comment_needs_slash)
    by (apply null_unit_lacks; [null_unit_cases|exact H]).
  unfold strip_line_comments.
  rewrite (replace_all_lacks _ _ _ t line_comment_needs_slash)
    by (apply null_unit_lacks; [null_unit_cases|exact H]).
  unfold normalize_quotes.
  rewrite (replace_all_lacks _ _ _ t single_quoted_needs_quote)
    by (apply null_unit_lacks; [null_unit_cases|exact H]).
  unfold quote_keys.
  rewrite (replace_all_lacks _ _ _ t unquoted_key_needs_opener)
    by (apply null_unit_lacks; [null_unit_cases|exact H]).
  unfold drop_trailing_commas.
  rewrite (replace_all_lacks _ _ _ t trailing_comma_needs_comma)
    by (apply null_unit_lacks; [null_unit_cases|exact H]).
  unfold replace_undefined.
  apply (replace_all_lacks _ _ _ t undefined_needs_d).
  apply null_unit_lacks; [null_unit_cases|exact H].
Qed.

(** C1 (amended).  For every text [t] that is valid strict JSON with decoded
    value [v], the lenient normalizer returns exactly the strict decoder's
    result, [parseJsonFlexible t = parseJsonSafely t = v]; the result differs
    from the failure value [null] exactly when [v] is not [null]. *)
Theorem parseJsonFlexible_fast_path (t : str) (v : value) :
  JSON_parse t = Some v ->
  parseJsonFlexible t = parseJsonSafely t /\
  parseJsonSafely t = v /\
  (parseJsonFlexible t <> JNull <-> v <> JNull).
Proof.
  intros H.
  assert (S : parseJsonSafely t = v) by (unfold parseJsonSafely; now rewrite H).
  assert (F : parseJsonFlexible t = v).
  { unfold parseJsonFlexible. rewrite S.
    destruct v; try reflexivity.
    rewrite (rewrite_stages_null_document t (null_document_units t H)).
    exact S. }
  rewrite F, S. repeat split; auto.
Qed.

Lemma parseJsonFlexible_fast_path_witness :
  parseJsonFlexible (txt "{`a`: [1, null]}") =
  parseJsonSafely (txt "{`a`: [1, null]}") /\
  parseJsonSafely (txt "{`a`: [1, null]}") =
  JObj [(txt "a", JArr [JNum (Fin 1 0); JNull])] /\
  (parseJsonFlexible (txt "{`a`: [1, null]}") <> JNull <->
   JObj [(txt "a", JArr [JNum (Fin 1 0); JNull])] <> JNull).
Proof.
  apply (parseJsonFlexible_fast_path (txt "{`a`: [1, null]}")).
  vm_compute. reflexivity.
Defined.

(** C1 as stated fails at the document [null]: it is valid strict JSON, yet
    the normalizer returns the value it returns for undecodable text, and the
    paste boundary reports it as invalid and keeps the old display. *)
Lemma parseJsonFlexible_null_document_rejected :
  JSON_parse (txt "null") = Some JNull /\
  parseJsonFlexible (txt "null") = JNull /\
  parseJsonFlexible (txt "not json at all {") = JNull /\
  JSON_parse (txt "not json at all {") = None /\
  forall st, pasteBuffer st = txt "null" ->
    toast (applyPastedJson st) = Some (txt "Invalid JSON") /\
    rawJson (applyPastedJson st) = rawJson st.
Proof.
  assert (E : parseJsonFlexible (txt "null") = JNull) by (vm_compute; reflexivity).
  split; [vm_compute; reflexivity|].
  split; [exact E|].
  split; [vm_compute; reflexivity|].
  split; [vm_compute; reflexivity|].
  intros st H. unfold applyPastedJson. rewrite H.
  change (trim (txt "null")) with (txt "null").
  rewrite E. split; reflexivity.
Qed.

(** ** The rewrites inside string data *)

(** C9.  Once the strict fast path fails, the textual rewrites also apply
    inside double-quoted strings: the input [{"a": "undefined",}] is invalid
    only because of its trailing comma (without it, it decodes to the string
    undefined), and it normalizes to the object whose member a is the string
    null. *)
Theorem parseJsonFlexible_rewrites_string_data :
  JSON_parse (txt "{`a`: `undefined`,}") = None /\
  JSON_parse (txt "{`a`: `undefined`}") = Some (JObj [(txt "a", JStr (txt "undefined"))]) /\
  rewrite_stages (txt "{`a`: `undefined`,}") = txt "{`a`: `null`}" /\
  parseJsonFlexible (txt "{`a`: `undefined`,}") = JObj [(txt "a", JStr (txt "null"))].
Proof. repeat split; vm_compute; reflexivity. Qed.

(** ** The paste boundary *)

Lemma parseJsonFlexible_undecodable (t : str) :
  JSON_parse t = None -> JSON_parse (rewrite_stages t) = None ->
  parseJsonFlexible t = JNull.
Proof.
  intros H1 H2. unfold parseJsonFlexible, parseJsonSafely. now rewrite H1, H2.
Qed.

(** C8.  A paste-apply attempt whose trimmed input is empty, or is decodable
    neither as it is nor after the lenient rewrites, signals failure through
    the toast and leaves the displayed text [rawJson] (and with it the value
    decoded from it), the overlay and the buffer as they were. *)
Theorem applyPastedJson_failure_keeps_display (st : state) :
  trim (pasteBuffer st) = [] \/
  (JSON_parse (trim (pasteBuffer st)) = None /\
   JSON_parse (rewrite_stages (trim (pasteBuffer st))) = None) ->
  rawJson (applyPastedJson st) = rawJson st /\
  parseJsonSafely (rawJson (applyPastedJson st)) = parseJsonSafely (rawJson st) /\
  isPasteOverlayOpen (applyPastedJson st) = isPasteOverlayOpen st /\
  pasteBuffer (applyPastedJson st) = pasteBuffer st /\
  (toast (applyPastedJson st) = Some (txt "Nothing to paste") \/
   toast (applyPastedJson st) = Some (txt "Invalid JSON")).
Proof.
  intros [E|[H1 H2]]; unfold applyPastedJson.
  - rewrite E. simpl. auto 6.
  - rewrite (parseJsonFlexible_undecodable _ H1 H2).
    destruct (trim (pasteBuffer st)); simpl; auto 6.
Qed.

Lemma applyPastedJson_failure_keeps_display_witness :
  rawJson (applyPastedJson failed_paste_state) = rawJson failed_paste_state /\
  parseJsonSafely (rawJson (applyPastedJson failed_paste_state)) =
  parseJsonSafely (rawJson failed_paste_state) /\
  isPasteOverlayOpen (applyPastedJson failed_paste_state) =
  isPasteOverlayOpen failed_paste_state /\
  pasteBuffer (applyPastedJson failed_paste_state) = pasteBuffer failed_paste_state /\
  (toast (applyPastedJson failed_paste_state) = Some (txt "Nothing to paste") \/
   toast (applyPastedJson failed_paste_state) = Some (txt "Invalid JSON")).
Proof.
  apply (applyPastedJson_failure_keeps_display failed_paste_state).
  right. split; vm_compute; reflexivity.
Defined.

(** ** The path indexer *)

Lemma value_induction (P : value -> Prop) :
  P JNull -> (forall b, P (JBool b)) -> (forall x, P (JNum x)) ->
  (forall s, P (JStr s)) ->
  (forall items, Forall P items -> P (JArr items)) ->
  (forall ms, Forall (fun kv => P (snd kv)) ms -> P (JObj ms)) ->
  forall v, P v.
Proof.
  intros Hn Hb Hx Hs Ha Ho.
  fix IH 1. intros [| b | x | s | items | ms].
  - exact Hn.
  - apply Hb.
  - apply Hx.
  - apply Hs.
  - apply Ha. induction items as [|v items IHi]; constructor; [apply IH|exact IHi].
  - apply Ho. induction ms as [|[k v] ms IHm]; constructor; [apply IH|exact IHm].
Qed.

Lemma extractPaths_array base items :
  extractPaths (JArr items) base = each_element base items 0.
Proof.
  simpl. generalize 0%nat. induction items as [|v vs IH]; intros i; simpl.
  - reflexivity.
  - now rewrite IH.
Qed.

Lemma extractPaths_object base ms :
  extractPaths (JObj ms) base = each_member base ms.
Proof.
  simpl. induction ms as [|[k v] ms IH]; simpl.
  - reflexivity.
  - now rewrite IH.
Qed.

Lemma element_path_nonempty base i : element_path base i <> [].
Proof. unfold element_path. now destruct base. Qed.

Lemma member_path_nonempty base k : member_path base k <> [].
Proof. unfold member_path. now destruct base. Qed.

Lemma addressed_array items base q :
  addressed (JArr items) base q <->
  exists j c, nth_error items j = Some c /\
    (q = element_path base j \/ addressed c (element_path base j) q).
Proof.
  split.
  - intros H. inversion H; subst; eauto 6.
  - intros (j & c & Hj & [->|H]); [eapply addr_element|eapply addr_under_element]; eauto.
Qed.

Lemma addressed_object ms base q :
  addressed (JObj ms) base q <->
  exists k c, In (k, c) ms /\
    (q = member_path base k \/ addressed c (member_path base k) q).
Proof.
  split.
  - intros H. inversion H; subst; eauto 6.
  - intros (k & c & Hk & [->|H]); [eapply addr_member|eapply addr_under_member]; eauto.
Qed.

Lemma each_element_in base vs :
  Forall (fun v => forall P q, P <> [] ->
            (In q (extractPaths v P) <-> addressed v P q)) vs ->
  forall i q,
    In q (each_element base vs i) <->
    exists j c, nth_error vs j = Some c /\
      (q = element_path base (i + j) \/ addressed c (element_path base (i + j)) q).
Proof.
  induction 1 as [|v vs Hv _ IH]; intros i q; simpl.
  - split; [contradiction|]. intros (j & c & Hj & _). now destruct j.
  - fold (element_path base i). rewrite in_app_iff, IH, Hv by apply element_path_nonempty.
    split.
    + intros [E|[H|(j & c & Hj & H)]].
      * exists 0%nat, v. rewrite Nat.add_0_r. auto.
      * exists 0%nat, v. rewrite Nat.add_0_r. auto.
      * exists (S j), c. rewrite Nat.add_succ_r. auto.
    + intros (j & c & Hj & H). destruct j as [|j]; simpl in Hj.
      * inversion Hj; subst c. rewrite Nat.add_0_r in H. destruct H; auto.
      * right; right. exists j, c. rewrite Nat.add_succ_r in H. auto.
Qed.

Lemma each_member_in base ms :
  base <> [] ->
  Forall (fun kv => forall P q, P <> [] ->
            (In q (extractPaths (snd kv) P) <-> addressed (snd kv) P q)) ms ->
  forall q,
    In q (each_member base ms) <->
    exists k c, In (k, c) ms /\
      (q = member_path base k \/ addressed c (member_path base k) q).
Proof.
  intros Hb. induction 1 as [|[k v] ms Hv _ IH]; intros q; simpl.
  - split; [contradiction|]. now intros (k & c & [] & _).
  - replace (base ++ match base with [] => [] | _ :: _ => [46] end ++ k)
      with (member_path base k) by (unfold member_path; now destruct base).
    simpl in Hv. rewrite in_app_iff, IH, Hv by apply member_path_nonempty.
    split.
    + intros [E|[H|(k' & c & Hk & H)]]; eauto 7.
    + intros (k' & c & [E|Hk] & H).
      * inversion E; subst. destruct H; auto.
      * right; right. eauto.
Qed.

Lemma extractPaths_addressed v :
  forall P q, P <> [] -> (In q (extractPaths v P) <-> addressed v P q).
Proof.
  induction v as [| b | x | s | items IH | ms IH] using value_induction;
    intros P q HP;
    try (split; [contradiction|intros H; inversion H]).
  - rewrite extractPaths_array, addressed_array.
    apply (each_element_in P items IH 0).
  - rewrite extractPaths_object, addressed_object.
    now apply each_member_in.
Qed.

Lemma each_element_app base vs ws i :
  each_element base (vs ++ ws) i =
  each_element base vs i ++ each_element base ws (i + length vs).
Proof.
  revert i. induction vs as [|v vs IH]; intros i; simpl.
  - now rewrite Nat.add_0_r.
  - rewrite IH, Nat.add_succ_r. simpl. now rewrite <- app_assoc.
Qed.

(** C5 (amended).  With a non-empty root label, the paths listed for a value
    are exactly the addresses of the specification: member [k] under parent
    path [P] has path [P.k], element [i] has path [P[i]], recursively; the
    list is in pre-order (a node, then its descendants, then its later
    siblings) and leaves out the root.  For the value users: [ {id: 1} ] and
    the root label data the list is data.users, data.users[0],
    data.users[0].id.  Under an empty parent path a member [k] has path [k],
    with no dot. *)
Theorem extractPaths_addressing :
  (forall v root q, root <> [] ->
     (In q (extractPaths v root) <-> addressed v root q)) /\
  (forall root k c ms, root <> [] ->
     extractPaths (JObj ((k, c) :: ms)) root =
     member_path root k :: extractPaths c (member_path root k)
       ++ extractPaths (JObj ms) root) /\
  (forall root items c,
     extractPaths (JArr (items ++ [c])) root =
     extractPaths (JArr items) root
       ++ element_path root (length items)
       :: extractPaths c (element_path root (length items))) /\
  (forall k c ms,
     extractPaths (JObj ((k, c) :: ms)) [] =
     k :: extractPaths c k ++ extractPaths (JObj ms) []) /\
  parseJsonSafely (txt "{`users`:[{`id`:1}]}") = users_sample /\
  extractPaths users_sample (txt "data") =
  [txt "data.users"; txt "data.users[0]"; txt "data.users[0].id"].
Proof.
  split; [intros v root q H; now apply extractPaths_addressed|].
  split.
  { intros root k c ms H. rewrite !extractPaths_object. simpl.
    unfold member_path. now destruct root. }
  split.
  { intros root items c. rewrite !extractPaths_array, each_element_app.
    simpl. now rewrite app_nil_r. }
  split.
  { intros k c ms. now rewrite !extractPaths_object. }
  split; vm_compute; reflexivity.
Qed.

Lemma extractPaths_addressing_witness :
  In (txt "data.users[0].id") (extractPaths users_sample (txt "data")) <->
  addressed users_sample (txt "data") (txt "data.users[0].id").
Proof.
  apply (proj1 extractPaths_addressing users_sample (txt "data")).
  discriminate.
Defined.

(** C5 as stated fails for the empty root label, the default of
    [extractPaths]: the member a of an object gets the path a, not .a *)
Lemma extractPaths_empty_root_no_dot :
  extractPaths (parseJsonSafely (txt "{`a`:1}")) [] = [txt "a"] /\
  member_path [] (txt "a") = txt ".a" /\
  ~ In (member_path [] (txt "a")) (extractPaths (parseJsonSafely (txt "{`a`:1}")) []).
Proof.
  split; [vm_compute; reflexivity|].
  split; [reflexivity|].
  vm_compute. intros [H|[]]. discriminate.
Qed.

(** ** Filtering *)

Lemma starts_with_nil (s : str) : starts_with [] s = true.
Proof. now destruct s. Qed.

Lemma includes_nil (s : str) : includes s [] = true.
Proof. destruct s; simpl; reflexivity. Qed.

Lemma filter_all {A} (f : A -> bool) (l : list A) :
  (forall a, f a = true) -> filter f l = l.
Proof.
  intros H. induction l as [|a l IH]; simpl; [reflexivity|].
  now rewrite H, IH.
Qed.

Lemma filterPaths_filter paths query :
  filterPaths paths query =
  filter (fun p => includes (toLowerCase p) (toLowerCase (trim query))) paths.
Proof.
  unfold filterPaths. destruct (toLowerCase (trim query)) eqn:E; [|reflexivity].
  symmetry. apply filter_all. intros a. apply includes_nil.
Qed.




(** ** Keys of tree nodes *)

Lemma split_from_nonempty fuel r piece x : split_from fuel r piece x <> [].
Proof.
  revert piece x. induction fuel as [|f IH]; intros piece x; simpl; [discriminate|].
  destruct (after x) as [|a s]; [discriminate|].
  destruct (exec r x [] accept) as [[y c]|]; [|apply IH].
  destruct piece; [destruct (consumed x y)|]; try discriminate. apply IH.
Qed.

Lemma last_cons_nonempty {A} (a : A) (l : list A) d :
  l <> [] -> last (a :: l) d = last l d.
Proof. now destruct l. Qed.

Lemma exec_path_separator b a (s : str) :
  exec re_path_separator (mkpos b (a :: s)) [] accept =
  if is_path_separator a then Some (mkpos (Some a) s, []) else None.
Proof.
  unfold re_path_separator, is_path_separator, ch, accept. simpl.
  now destruct (a =? 46), (a =? 91).
Qed.

Lemma split_from_last fuel :
  forall piece b s, (length s < fuel)%nat ->
    last (split_from fuel re_path_separator piece (mkpos b s)) [] =
    last_segment piece s.
Proof.
  induction fuel as [|f IH]; intros piece b s Hf; [lia|].
  destruct s as [|a s]; [reflexivity|].
  simpl in Hf.
  cbn [split_from after last_segment]. rewrite exec_path_separator.
  destruct (is_path_separator a).
  - change (a :: s) with ([a] ++ s).
    rewrite (consumed_app b (Some a) [a] s).
    assert (E : last (piece :: split_from f re_path_separator [] (mkpos (Some a) s)) [] =
                last_segment [] s).
    { rewrite last_cons_nonempty by apply split_from_nonempty. apply IH. lia. }
    now destruct piece.
  - apply IH. lia.
Qed.

Lemma key_of_path_last_segment (p : str) :
  key_of_path p = match last_segment [] p with [] => p | k => k end.
Proof.
  unfold key_of_path, split. destruct p as [|a p].
  - reflexivity.
  - rewrite split_from_last by (simpl; lia). reflexivity.
Qed.

Lemma last_segment_lacks (k : str) :
  lacks is_path_separator k = true ->
  forall piece, last_segment piece k = piece ++ k.
Proof.
  induction k as [|a k IH]; intros H piece; simpl.
  - now rewrite app_nil_r.
  - apply lacks_cons in H as [Ha H]. rewrite Ha, IH by exact H.
    now rewrite <- app_assoc.
Qed.

Lemma last_segment_after_separator (u : str) c (k : str) :
  is_path_separator c = true ->
  forall piece, last_segment piece (u ++ c :: k) = last_segment [] k.
Proof.
  intros Hc. induction u as [|a u IH]; intros piece; simpl.
  - now rewrite Hc.
  - destruct (is_path_separator a); apply IH.
Qed.

Lemma digit_unit_is_digit (n : Z) : is_digit (Z.to_N (48 + n mod 10)) = true.
Proof.
  pose proof (Z.mod_pos_bound n 10 ltac:(lia)) as B.
  unfold is_digit. apply andb_true_intro; split; apply N.leb_le; lia.
Qed.

Lemma digits_fuel_all_digits fuel :
  forall n acc, forallb is_digit acc = true ->
    forallb is_digit (digits_fuel fuel n acc) = true.
Proof.
  induction fuel as [|f IH]; intros n acc H; simpl; [exact H|].
  assert (H' : forallb is_digit (Z.to_N (48 + n mod 10) :: acc) = true)
    by (cbn [forallb]; now rewrite digit_unit_is_digit, H).
  destruct (n <? 10)%Z; [exact H'|]. apply IH, H'.
Qed.

Lemma digits_all_digits (n : Z) : forallb is_digit (digits n) = true.
Proof. apply digits_fuel_all_digits. reflexivity. Qed.

Lemma digit_not_separator c : is_digit c = true -> is_path_separator c = false.
Proof.
  unfold is_digit, is_path_separator. intros H.
  apply andb_prop in H as [H1 H2]. apply N.leb_le in H1. apply N.leb_le in H2.
  apply orb_false_intro; apply N.eqb_neq; lia.
Qed.

Lemma index_segment_lacks_separator i :
  lacks is_path_separator (index_to_string i ++ [93]) = true.
Proof.
  rewrite lacks_app. apply andb_true_intro; split; [|reflexivity].
  unfold lacks, index_to_string. apply (forallb_weaken is_digit).
  - intros a H. now rewrite digit_not_separator.
  - apply digits_all_digits.
Qed.

Lemma key_of_element_path base i :
  key_of_path (element_path base i) = index_to_string i ++ [93].
Proof.
  rewrite key_of_path_last_segment. unfold element_path.
  rewrite last_segment_after_separator by reflexivity.
  rewrite last_segment_lacks by apply index_segment_lacks_separator.
  simpl. now destruct (index_to_string i).
Qed.

Lemma key_of_member_path base k :
  key_of_path (member_path base k) =
  match last_segment [] k with [] => member_path base k | seg => seg end.
Proof.
  rewrite key_of_path_last_segment. unfold member_path.
  now rewrite last_segment_after_separator by reflexivity.
Qed.

Lemma buildJsonTree_key_path v p :
  node_key (buildJsonTree v p) = key_of_path p /\ node_path (buildJsonTree v p) = p.
Proof. now destruct v as [| [] | | | |]. Qed.

Lemma buildJsonTree_array items p :
  children_of (buildJsonTree (JArr items) p) = tree_elements p items 0.
Proof.
  unfold children_of. simpl. generalize 0%nat.
  induction items as [|v vs IH]; intros i; simpl; [reflexivity|]. now rewrite IH.
Qed.

Lemma buildJsonTree_object ms p :
  children_of (buildJsonTree (JObj ms) p) = tree_members p ms.
Proof.
  unfold children_of. simpl.
  induction ms as [|[k v] ms IH]; simpl; [reflexivity|]. now rewrite IH.
Qed.

Lemma tree_elements_nth p vs :
  forall i j c, nth_error vs j = Some c ->
    nth_error (tree_elements p vs i) j = Some (buildJsonTree c (element_path p (i + j))).
Proof.
  induction vs as [|v vs IH]; intros i j c H; destruct j as [|j]; simpl in *;
    try discriminate.
  - inversion H. now rewrite Nat.add_0_r.
  - rewrite (IH (S i) j c H). now rewrite Nat.add_succ_r.
Qed.

Lemma tree_members_nth p ms :
  forall j k c, nth_error ms j = Some (k, c) ->
    nth_error (tree_members p ms) j = Some (buildJsonTree c (member_path p k)).
Proof.
  induction ms as [|[k' v] ms IH]; intros j k c H; destruct j as [|j]; simpl in *;
    try discriminate.
  - now inversion H.
  - apply IH, H.
Qed.

(** C10 (amended).  The key of a tree node is what follows the last dot or
    opening bracket of its path.  So the node of the array element at index
    [i] has the key made of the decimal index and a closing bracket (the node
    at path data[0] has key 0 followed by a bracket); the node of an object
    member whose name is not empty and has no dot and no opening bracket has
    the bare name as key; for any other member name the key is what follows
    the last dot or opening bracket of the name, or the whole path when
    nothing follows. *)
Theorem buildJsonTree_keys :
  (forall items p i c, nth_error items i = Some c ->
     exists child,
       nth_error (children_of (buildJsonTree (JArr items) p)) i = Some child /\
       node_path child = element_path p i /\
       node_key child = index_to_string i ++ [93]) /\
  (forall ms p j k c, nth_error ms j = Some (k, c) ->
     exists child,
       nth_error (children_of (buildJsonTree (JObj ms) p)) j = Some child /\
       node_path child = member_path p k /\
       node_key child =
         match last_segment [] k with [] => member_path p k | seg => seg end /\
       (k <> [] -> lacks is_path_separator k = true -> node_key child = k)) /\
  node_key (buildJsonTree JNull (txt "data[0]")) = txt "0]" /\
  map node_key (children_of (buildJsonTree (parseJsonSafely (txt "[{`id`: 1}]")) (txt "data")))
  = [txt "0]"] /\
  map node_key (children_of (buildJsonTree users_sample (txt "data"))) = [txt "users"].
Proof.
  split.
  { intros items p i c H. exists (buildJsonTree c (element_path p i)).
    rewrite buildJsonTree_array, (tree_elements_nth p items 0 i c H).
    destruct (buildJsonTree_key_path c (element_path p i)) as [K P].
    now rewrite K, P, key_of_element_path. }
  split.
  { intros ms p j k c H. exists (buildJsonTree c (member_path p k)).
    rewrite buildJsonTree_object, (tree_members_nth p ms j k c H).
    destruct (buildJsonTree_key_path c (member_path p k)) as [K P].
    rewrite K, P, key_of_member_path. repeat split.
    intros Hk Hl. rewrite last_segment_lacks by exact Hl. simpl.
    now destruct k. }
  repeat split; vm_compute; reflexivity.
Qed.

Lemma buildJsonTree_keys_witness :
  exists child,
    nth_error (children_of (buildJsonTree (JArr [JNull; JBool true]) (txt "data"))) 1
      = Some child /\
    node_path child = element_path (txt "data") 1 /\
    node_key child = index_to_string 1 ++ [93].
Proof.
  apply (proj1 buildJsonTree_keys [JNull; JBool true] (txt "data") 1%nat (JBool true)).
  reflexivity.
Defined.

(** C10 as stated fails for member names with a dot or a bracket and for the
    empty name: the member a.b gets the key b, the member a[0 gets the key 0,
    and the member with the empty name gets its whole path as key. *)
Lemma buildJsonTree_member_key_not_name :
  map node_key
    (children_of (buildJsonTree (parseJsonSafely (txt "{`a.b`: 1, `a[0`: 2, ``: 3}")) (txt "data")))
  = [txt "b"; txt "0"; txt "data."] /\
  map fst (match parseJsonSafely (txt "{`a.b`: 1, `a[0`: 2, ``: 3}") with
           | JObj ms => ms | _ => [] end)
  = [txt "a.b"; txt "a[0"; txt ""].
Proof. split; vm_compute; reflexivity. Qed.

(** ** [replace], one step at a time *)

Lemma replace_from_fuel r g :
  forall f1 f2 x,
    (length (after x) < f1)%nat -> (length (after x) < f2)%nat ->
    replace_from f1 r g x = replace_from f2 r g x.
Proof.
  induction f1 as [|f1 IH]; intros f2 x H1 H2; [lia|].
  destruct f2 as [|f2]; [lia|]. simpl.
  destruct (exec r x [] accept) as [[y c]|].
  - destruct (consumed x y) as [|m0 m] eqn:E.
    + destruct (after x) as [|a s] eqn:A; [reflexivity|].
      simpl in H1, H2. do 2 f_equal. apply IH; simpl; lia.
    + f_equal. apply IH;
        (assert (length (consumed x y) <= length (after x) - length (after y))%nat
           by (unfold consumed; apply firstn_le_length);
         rewrite E in *; simpl in *; lia).
  - destruct (after x) as [|a s] eqn:A; [reflexivity|].
    simpl in H1, H2. f_equal. apply IH; simpl; lia.
Qed.

Lemma replace_at_none r g b a (s : str) :
  exec r (mkpos b (a :: s)) [] accept = None ->
  replace_at r g (mkpos b (a :: s)) = a :: replace_at r g (mkpos (Some a) s).
Proof. intros H. unfold replace_at. simpl. now rewrite H. Qed.

Lemma replace_from_match r g f x y c :
  exec r x [] accept = Some (y, c) -> consumed x y <> [] ->
  replace_from (S f) r g x = g (consumed x y) c ++ replace_from f r g y.
Proof.
  intros H Hm. simpl. rewrite H. now destruct (consumed x y).
Qed.

Lemma replace_at_match r g b b' c (m s : str) :
  exec r (mkpos b (m ++ s)) [] accept = Some (mkpos b' s, c) ->
  m <> [] ->
  replace_at r g (mkpos b (m ++ s)) = g m c ++ replace_at r g (mkpos b' s).
Proof.
  intros H Hm. unfold replace_at.
  rewrite (replace_from_match _ _ _ _ _ _ H) by now rewrite consumed_app.
  rewrite consumed_app. f_equal.
  destruct m as [|m0 m]; [contradiction|].
  apply replace_from_fuel; simpl; rewrite ?length_app; simpl; lia.
Qed.

Lemma prev_of_cons b a (pre : str) : prev_of (Some a) pre = prev_of b (a :: pre).
Proof. now destruct pre. Qed.

Lemma replace_at_skip r P g :
  needs_head r P ->
  forall pre b s, lacks P pre = true ->
    replace_at r g (mkpos b (pre ++ s)) = pre ++ replace_at r g (mkpos (prev_of b pre) s).
Proof.
  intros H. induction pre as [|a pre IH]; intros b s L; [reflexivity|].
  apply lacks_cons in L as [La L].
  rewrite <- app_comm_cons, replace_at_none by (apply H; exact La).
  rewrite IH by exact L. now rewrite (prev_of_cons b).
Qed.

Lemma replace_at_context r g :
  looks_ahead_only r ->
  forall b b' s, replace_at r g (mkpos b s) = replace_at r g (mkpos b' s).
Proof.
  intros H b b' s. unfold replace_at. simpl.
  rewrite (H b b'). reflexivity.
Qed.

Lemma needs_head_never_without r P : needs_head r P -> never_without r P.
Proof.
  intros H [b s] c k L. apply H. destruct s as [|a s]; [exact I|].
  now apply lacks_cons in L.
Qed.

(** ** Iteration *)

Lemma star_loop_S body g k n x c :
  star_loop body g k (S n) x c =
  let step y c' :=
    if (length (after y) <? length (after x))%nat
    then star_loop body g k n y c' else None in
  if g then
    match body x c step with
    | Some res => Some res
    | None => k x c
    end
  else
    match k x c with
    | Some res => Some res
    | None => body x c step
    end.
Proof. reflexivity. Qed.

(** A greedy iteration of a character class takes the whole run when what
    follows the pattern matches there. *)
Lemma star_greedy_run p k :
  forall run n b rest c res,
    forallb p run = true ->
    match rest with [] => True | a :: _ => p a = false end ->
    (length (run ++ rest) < n)%nat ->
    k (mkpos (prev_of b run) rest) c = Some res ->
    star_loop (exec (Char p)) true k n (mkpos b (run ++ rest)) c = Some res.
Proof.
  induction run as [|a run IH]; intros n b rest c res Hrun Hrest Hn Hk;
    (destruct n as [|n]; [simpl in Hn; lia|]); rewrite star_loop_S; cbn zeta.
  - simpl in *. destruct rest as [|a rest]; [now rewrite Hk|].
    now rewrite Hrest, Hk.
  - simpl in Hrun. apply andb_prop in Hrun as [Ha Hrun].
    cbn [app exec after]. rewrite Ha. cbn [after].
    assert (L : (length (run ++ rest) <? length (a :: run ++ rest))%nat = true)
      by (apply Nat.ltb_lt; simpl; lia).
    rewrite L. erewrite IH; eauto.
    + simpl in Hn. lia.
    + now rewrite (prev_of_cons b).
Qed.




(** ** Comment stripping *)










Lemma rest_of_line_spec (s l r : str) :
  rest_of_line s = (l, r) ->
  s = l ++ r /\ forallb dot l = true /\
  match r with [] => True | a :: _ => dot a = false end.
Proof.
  revert l r. induction s as [|a s IH]; intros l r H; simpl in H.
  - inversion H. auto.
  - destruct (dot a) eqn:D.
    + destruct (rest_of_line s) as [l' r']. inversion H; subst.
      destruct (IH l' r eq_refl) as (E & F & G).
      simpl. rewrite D, F, <- E. auto.
    + inversion H; subst. simpl. auto.
Qed.

Lemma exec_line_tail b (rest l r : str) c :
  rest_of_line rest = (l, r) ->
  exec line_comment_tail (mkpos b (47 :: 47 :: rest)) c accept =
  Some (mkpos (prev_of (Some 47) l) r, c).
Proof.
  intros H. destruct (rest_of_line_spec _ _ _ H) as (E & F & G).
  unfold line_comment_tail. cbn [cat exec after]. unfold ch. simpl N.eqb. cbn iota.
  rewrite E. apply star_greedy_run; auto.
  cbn [exec after]. destruct r as [|a r]; [reflexivity|].
  unfold dot in G. now destruct (is_line_terminator a).
Qed.


Lemma re_line_comment_unfold x c k :
  exec re_line_comment x c k =
  match
    match before x with
    | None => exec line_comment_tail x ((1%nat, consumed x x) :: c) k
    | Some a =>
        if is_line_terminator a
        then exec line_comment_tail x ((1%nat, consumed x x) :: c) k
        else None
    end
  with
  | Some res => Some res
  | None =>
      match after x with
      | a :: s =>
          if is_space a
          then exec line_comment_tail (mkpos (Some a) s)
                 ((1%nat, consumed x (mkpos (Some a) s)) :: c) k
          else None
      | [] => None
      end
  end.
Proof. reflexivity. Qed.




(** A line comment at the start of the text or of a line. *)
Lemma exec_line_comment_at_line_start b (rest l r : str) :
  match b with None => True | Some a => is_line_terminator a = true end ->
  rest_of_line rest = (l, r) ->
  exists c,
    exec re_line_comment (mkpos b (47 :: 47 :: rest)) [] accept =
    Some (mkpos (prev_of (Some 47) l) r, c).
Proof.
  intros Hb H. rewrite re_line_comment_unfold. cbn [before after].
  rewrite (exec_line_tail _ _ _ _ _ H).
  destruct b as [a|]; [rewrite Hb|]; eauto.
Qed.





Lemma strip_line_comments_at_start (rest l r : str) :
  rest_of_line rest = (l, r) ->
  strip_line_comments (47 :: 47 :: rest) =
  strip_line_comments_at (prev_of (Some 47) l) r.
Proof.
  intros H. unfold strip_line_comments, strip_line_comments_at, replace_all.
  destruct (exec_line_comment_at_line_start None rest l r I H) as [c M].
  destruct (rest_of_line_spec _ _ _ H) as (E & _).
  replace (47 :: 47 :: rest) with ((47 :: 47 :: l) ++ r) in *
    by (rewrite E; reflexivity).
  now rewrite (replace_at_match _ _ _ _ _ _ _ M) by discriminate.
Qed.


(** ** Quote normalization *)

Lemma quoted_unit_stops b (post : str) c k :
  exec quoted_unit (mkpos b (39 :: post)) c k = None.
Proof. reflexivity. Qed.

Lemma first_some (o alt : result) res :
  o = Some res ->
  match o with Some r => Some r | None => alt end = Some res.
Proof. now intros ->. Qed.

Lemma quoted_unit_plain b a (s : str) c k res :
  negb ((a =? 39) || (a =? 92)) = true ->
  k (mkpos (Some a) s) ((1%nat, [a]) :: c) = Some res ->
  exec quoted_unit (mkpos b (a :: s)) c k = Some res.
Proof.
  intros Ha Hk. unfold quoted_unit. cbn [exec after]. rewrite Ha.
  change (a :: s) with ([a] ++ s). rewrite consumed_app.
  apply first_some. exact Hk.
Qed.

Lemma quoted_unit_escaped b a (s : str) c k res :
  dot a = true ->
  k (mkpos (Some a) s) ((1%nat, [92; a]) :: c) = Some res ->
  exec quoted_unit (mkpos b (92 :: a :: s)) c k = Some res.
Proof.
  intros Ha Hk. unfold quoted_unit. cbn [exec after]. unfold ch. simpl N.eqb.
  cbn [negb]. cbn iota. rewrite Ha.
  change (92 :: a :: s) with ([92; a] ++ s). rewrite consumed_app. exact Hk.
Qed.

Lemma star_tokens :
  forall ts n b post c,
    forallb token_ok ts = true ->
    (length (literal_body ts ++ 39%N :: post) < n)%nat ->
    exists c',
      star_loop (exec quoted_unit) true
        (fun y c' => exec (Char (ch 39)) y c' accept) n
        (mkpos b (literal_body ts ++ 39 :: post)) c =
      Some (mkpos (Some 39) post, c').
Proof.
  induction ts as [|t ts IH]; intros n b post c Hok Hn;
    (destruct n as [|n]; [simpl in Hn; lia|]); rewrite star_loop_S; cbn zeta.
  - cbn [literal_body flat_map app]. rewrite quoted_unit_stops.
    cbn [exec after]. unfold ch. rewrite N.eqb_refl. unfold accept. eauto.
  - cbn [forallb] in Hok. apply andb_prop in Hok as [Ht Hok].
    destruct t as [a|a]; cbn [literal_body flat_map token_text app] in *;
      fold (literal_body ts) in *; cbn [token_ok] in Ht.
    + destruct (IH n (Some a) post ((1%nat, [a]) :: c) Hok
                  ltac:(simpl in Hn; lia)) as [c' E].
      exists c'. erewrite quoted_unit_plain; [reflexivity|exact Ht|].
      cbn [after].
      replace (length (literal_body ts ++ 39%N :: post) <?
               length (a :: literal_body ts ++ 39%N :: post))%nat with true
        by (symmetry; apply Nat.ltb_lt; simpl; lia).
      exact E.
    + destruct (IH n (Some a) post ((1%nat, [92; a]) :: c) Hok
                  ltac:(simpl in Hn; lia)) as [c' E].
      exists c'. erewrite quoted_unit_escaped; [reflexivity|exact Ht|].
      cbn [after].
      replace (length (literal_body ts ++ 39%N :: post) <?
               length (92%N :: a :: literal_body ts ++ 39%N :: post))%nat with true
        by (symmetry; apply Nat.ltb_lt; simpl; lia).
      exact E.
Qed.

Lemma exec_single_quoted b ts (post : str) :
  forallb token_ok ts = true ->
  exists c,
    exec re_single_quoted (mkpos b (39 :: literal_body ts ++ 39 :: post)) [] accept =
    Some (mkpos (Some 39) post, c).
Proof.
  intros Hok. unfold re_single_quoted. cbn [cat exec after].
  unfold ch at 1. simpl N.eqb. cbn iota.
  apply star_tokens; [exact Hok|lia].
Qed.

Lemma single_quoted_needs_head : needs_head re_single_quoted (ch 39).
Proof.
  intros b s c k H. unfold re_single_quoted. cbn [cat exec after].
  destruct s as [|a s]; [reflexivity|]. now rewrite H.
Qed.

Lemma single_quoted_looks_ahead : looks_ahead_only re_single_quoted.
Proof.
  intros b b' s c k. unfold re_single_quoted. cbn [cat exec after].
  now destruct s.
Qed.

Lemma body_head_not_quote ts :
  forallb token_ok ts = true ->
  match literal_body ts with [] => True | a :: _ => (a =? 39) = false end.
Proof.
  destruct ts as [|[a|a] ts]; simpl; auto.
  intros H. apply andb_prop in H as [H _].
  now destruct (a =? 39).
Qed.

Lemma exec_escaped_quote_none b (s : str) :
  starts_with [92; 39] s = false ->
  exec re_escaped_quote (mkpos b s) [] accept = None.
Proof.
  unfold re_escaped_quote, ch. cbn [exec after starts_with].
  destruct s as [|a [|a' s]]; try reflexivity.
  - now destruct (a =? 92).
  - destruct (a =? 92); [|reflexivity]. simpl. now destruct (a' =? 39).
Qed.

Lemma starts_with_escaped_quote_tail a (s : str) :
  match s with [] => True | x :: _ => (x =? 39) = false end ->
  starts_with [92; 39] (a :: s) = false.
Proof.
  cbn [starts_with]. destruct s as [|x s]; intros H.
  - apply andb_false_r.
  - rewrite H. apply andb_false_r.
Qed.

(** The first rewrite of the callback: every escaped single quote of the
    body becomes a single quote. *)
Lemma unescape_body ts :
  forallb token_ok ts = true ->
  forall b,
    replace_at re_escaped_quote (fun _ _ => [39]) (mkpos b (literal_body ts)) =
    unescape_single ts.
Proof.
  induction ts as [|t ts IH]; intros Hok b; [reflexivity|].
  cbn [forallb] in Hok. apply andb_prop in Hok as [Ht Hok].
  pose proof (body_head_not_quote ts Hok) as Hh.
  destruct t as [a|a]; cbn [literal_body unescape_single flat_map token_text app] in *;
    fold (literal_body ts) in *; fold (unescape_single ts); cbn [token_ok] in Ht.
  - rewrite replace_at_none; [now rewrite IH|].
    apply exec_escaped_quote_none. cbn [starts_with].
    destruct (a =? 92); [now rewrite orb_true_r in Ht|reflexivity].
  - destruct (N.eqb_spec a 39) as [->|Ha].
    + change (92 :: 39 :: literal_body ts) with ([92; 39] ++ literal_body ts).
      rewrite (replace_at_match _ _ b (Some 39) []) by (reflexivity || discriminate).
      now rewrite IH.
    + rewrite replace_at_none.
      * rewrite replace_at_none; [now rewrite IH|].
        apply exec_escaped_quote_none.
        now apply starts_with_escaped_quote_tail.
      * apply exec_escaped_quote_none. cbn [starts_with].
        apply N.eqb_neq in Ha. rewrite Ha. reflexivity.
Qed.

(** The second rewrite of the callback: a backslash before every double
    quote. *)
Lemma escape_double_replace (s : str) :
  forall b,
    replace_at re_double_quote (fun _ _ => [92; 34]) (mkpos b s) = escape_double s.
Proof.
  induction s as [|a s IH]; intros b; [reflexivity|].
  cbn [escape_double flat_map]. fold (escape_double s).
  destruct (N.eqb_spec a 34) as [->|Ha].
  - change (34 :: s) with ([34] ++ s).
    rewrite (replace_at_match _ _ b (Some 34) []) by (reflexivity || discriminate).
    now rewrite IH.
  - rewrite replace_at_none; [now rewrite IH|].
    unfold re_double_quote, ch. cbn [exec after].
    apply N.eqb_neq in Ha. now rewrite Ha.
Qed.

Lemma requote_inner_literal ts :
  forallb token_ok ts = true ->
  requote_inner (39 :: literal_body ts ++ [39]) = escape_double (unescape_single ts).
Proof.
  intros Hok. unfold requote_inner, slice_1_m1, replace_all. cbn [tl].
  rewrite removelast_last, unescape_body by exact Hok.
  apply escape_double_replace.
Qed.

Lemma normalize_quotes_first (pre : str) ts (post : str) :
  lacks (ch 39) pre = true -> forallb token_ok ts = true ->
  normalize_quotes (pre ++ 39 :: literal_body ts ++ 39 :: post) =
  pre ++ 34 :: escape_double (unescape_single ts) ++ 34 :: normalize_quotes post.
Proof.
  intros Hpre Hok. unfold normalize_quotes, replace_all.
  rewrite (replace_at_skip _ _ _ single_quoted_needs_head) by exact Hpre.
  destruct (exec_single_quoted (prev_of None pre) ts post Hok) as [c M].
  replace (39 :: literal_body ts ++ 39 :: post)
    with ((39 :: literal_body ts ++ [39]) ++ post) in *
    by (simpl; now rewrite <- app_assoc).
  rewrite (replace_at_match _ _ _ _ _ _ _ M) by discriminate.
  rewrite requote_inner_literal by exact Hok.
  rewrite (replace_at_context _ _ single_quoted_looks_ahead _ None).
  simpl. now rewrite <- app_assoc.
Qed.

(** ** Key quoting *)

Lemma consumed_eq x y (m : str) : after x = m ++ after y -> consumed x y = m.
Proof.
  destruct x as [b s], y as [b' r]. cbn [after]. intros ->. apply consumed_app.
Qed.

Ltac units_to_prop :=
  repeat rewrite ?orb_true_iff, ?orb_false_iff, ?andb_true_iff, ?andb_false_iff,
    ?N.eqb_eq, ?N.eqb_neq, ?N.leb_le, ?N.leb_gt in *.

Lemma ident_start_not_space c : ident_start c = true -> is_space c = false.
Proof.
  unfold ident_start, is_upper, is_lower, is_space. intros H.
  units_to_prop. lia.
Qed.

Lemma space_not_ident_part c : is_space c = true -> ident_part c = false.
Proof.
  unfold ident_part, is_upper, is_lower, is_digit, is_space. intros H.
  units_to_prop. lia.
Qed.

Lemma exec_unquoted_key b d (ws1 : str) i0 (irest ws2 ws3 post : str) :
  is_opener d = true -> forallb is_space ws1 = true ->
  ident_start i0 = true -> forallb ident_part irest = true ->
  forallb is_space ws2 = true -> forallb is_space ws3 = true ->
  no_space_ahead post ->
  exec re_unquoted_key
    (mkpos b (d :: ws1 ++ i0 :: irest ++ ws2 ++ 58 :: ws3 ++ post)) [] accept =
  Some (mkpos (prev_of (Some 58) ws3) post,
        [(3%nat, ws2 ++ 58 :: ws3); (2%nat, i0 :: irest); (1%nat, d :: ws1)]).
Proof.
  intros Hd H1 Hi0 Hi H2 H3 Hp.
  unfold re_unquoted_key. cbn [cat exec after].
  unfold is_opener in Hd. rewrite Hd.
  apply star_greedy_run; [exact H1|now apply ident_start_not_space|lia|].
  cbn [exec after]. rewrite Hi0.
  apply star_greedy_run; [exact Hi| |lia|].
  { destruct ws2 as [|w ws2]; [reflexivity|]. cbn [app].
    simpl in H2. apply andb_prop in H2 as [H2 _]. now apply space_not_ident_part. }
  cbn [exec after].
  apply star_greedy_run; [exact H2|reflexivity|lia|].
  cbn [exec after]. unfold ch at 1. simpl N.eqb. cbn iota.
  apply star_greedy_run; [exact H3|exact Hp|lia|].
  unfold accept. do 2 f_equal.
  f_equal; [|f_equal; [|f_equal]]; f_equal; apply consumed_eq; cbn [after];
    rewrite <- ?app_assoc; reflexivity.
Qed.

Lemma unquoted_key_needs_head : needs_head re_unquoted_key is_opener.
Proof.
  intros b s c k H. unfold re_unquoted_key. cbn [cat exec after].
  destruct s as [|a s]; [reflexivity|]. unfold is_opener in H. now rewrite H.
Qed.

Lemma unquoted_key_looks_ahead : looks_ahead_only re_unquoted_key.
Proof.
  intros b b' s c k. unfold re_unquoted_key. cbn [cat exec after].
  now destruct s.
Qed.

Lemma quote_keys_first (pre : str) d (ws1 : str) i0 (irest ws2 ws3 post : str) :
  lacks is_opener pre = true ->
  is_opener d = true -> forallb is_space ws1 = true ->
  ident_start i0 = true -> forallb ident_part irest = true ->
  forallb is_space ws2 = true -> forallb is_space ws3 = true ->
  no_space_ahead post ->
  quote_keys (pre ++ d :: ws1 ++ i0 :: irest ++ ws2 ++ 58 :: ws3 ++ post) =
  pre ++ d :: ws1 ++ 34 :: i0 :: irest ++ 34 :: ws2 ++ 58 :: ws3 ++ quote_keys post.
Proof.
  intros Hpre Hd H1 Hi0 Hi H2 H3 Hp. unfold quote_keys, replace_all.
  rewrite (replace_at_skip _ _ _ unquoted_key_needs_head) by exact Hpre.
  pose proof (exec_unquoted_key (prev_of None pre) d ws1 i0 irest ws2 ws3 post
                Hd H1 Hi0 Hi H2 H3 Hp) as M.
  replace (d :: ws1 ++ i0 :: irest ++ ws2 ++ 58 :: ws3 ++ post)
    with ((d :: ws1 ++ i0 :: irest ++ ws2 ++ 58 :: ws3) ++ post) in *
    by (simpl; rewrite <- !app_assoc; simpl; rewrite <- !app_assoc; reflexivity).
  rewrite (replace_at_match _ _ _ _ _ _ _ M) by discriminate.
  rewrite (replace_at_context _ _ unquoted_key_looks_ahead _ None).
  cbv beta.
  change (cap 1 [(3%nat, ws2 ++ 58 :: ws3); (2%nat, i0 :: irest); (1%nat, d :: ws1)])
    with (d :: ws1).
  change (cap 2 [(3%nat, ws2 ++ 58 :: ws3); (2%nat, i0 :: irest); (1%nat, d :: ws1)])
    with (i0 :: irest).
  change (cap 3 [(3%nat, ws2 ++ 58 :: ws3); (2%nat, i0 :: irest); (1%nat, d :: ws1)])
    with (ws2 ++ 58 :: ws3).
  f_equal. cbn [app]. f_equal. rewrite <- !app_assoc. cbn [app]. do 3 f_equal.
  rewrite <- !app_assoc. cbn [app]. rewrite <- !app_assoc. reflexivity.
Qed.

(** C3 as stated fails for an identifier that starts with a hyphen: it is
    made of the units the claim allows and does not start with a digit, yet
    it is not quoted, and the text is not decoded. *)
Lemma key_quoting_hyphen_first :
  bare_identifier_as_specified (txt "-a") = true /\
  quote_keys (txt "{-a: 1}") = txt "{-a: 1}" /\
  parseJsonFlexible (txt "{-a: 1}") = JNull /\
  parseJsonFlexible (txt "{a-: 1}") = JObj [(txt "a-", JNum (Fin 1 0))].
Proof. repeat split; vm_compute; reflexivity. Qed.

(** ** Decimal digits *)

Local Open Scope Z_scope.

Lemma digits_value_from (ds : str) (acc : Z) :
  fold_left (fun a d => a * 10 + (Z.of_N d - 48)) ds acc =
  acc * 10 ^ Z.of_nat (length ds) + digits_value ds.
Proof.
  unfold digits_value. revert acc.
  induction ds as [|d ds IH]; intros acc.
  - simpl. lia.
  - cbn [fold_left length]. rewrite IH, (IH (0 * 10 + _)).
    rewrite Nat2Z.inj_succ, Z.pow_succ_r by lia. ring.
Qed.

Lemma digits_value_app (a b : str) :
  digits_value (a ++ b) = digits_value a * 10 ^ Z.of_nat (length b) + digits_value b.
Proof.
  unfold digits_value at 1. rewrite fold_left_app.
  fold (digits_value a). apply digits_value_from.
Qed.

Lemma digits_value_nonneg (ds : str) :
  forallb is_digit ds = true -> 0 <= digits_value ds.
Proof.
  induction ds as [|d ds IH] using rev_ind; intros H; [reflexivity|].
  rewrite forallb_app in H. apply andb_prop in H as [H1 H2].
  rewrite digits_value_app. specialize (IH H1).
  simpl in H2. rewrite andb_true_r in H2. unfold is_digit in H2.
  apply andb_prop in H2 as [L U]. apply N.leb_le in L.
  unfold digits_value at 2. simpl. lia.
Qed.

Lemma digits_value_zeros (n : Z) : digits_value (zeros n) = 0.
Proof.
  unfold zeros. induction (Z.to_nat n) as [|k IH]; [reflexivity|].
  change (repeat 48%N (S k)) with ([48%N] ++ repeat 48%N k).
  rewrite digits_value_app, IH. reflexivity.
Qed.

Lemma zeros_length (n : Z) : 0 <= n -> Z.of_nat (length (zeros n)) = n.
Proof. intros H. unfold zeros. rewrite repeat_length. lia. Qed.

Lemma zeros_all_digits (n : Z) : forallb is_digit (zeros n) = true.
Proof.
  unfold zeros. induction (Z.to_nat n) as [|k IH]; [reflexivity|].
  simpl. exact IH.
Qed.

(** What [digits_fuel] puts in front of [acc] when the fuel suffices: the
    decimal numeral of [n], without a leading zero. *)
Lemma digits_fuel_spec (fuel : nat) :
  forall n acc, 0 <= n < 2 ^ Z.of_nat fuel -> (0 < fuel)%nat ->
    exists ds,
      digits_fuel fuel n acc = ds ++ acc /\
      forallb is_digit ds = true /\
      digits_value ds = n /\
      ds <> [] /\
      (0 < n -> hd 48%N ds <> 48%N).
Proof.
  induction fuel as [|fuel IH]; intros n acc Hn Hf; [lia|].
  cbn [digits_fuel].
  pose proof (Z.mod_pos_bound n 10 ltac:(lia)) as Hm.
  assert (Hd : Z.of_N (Z.to_N (48 + n mod 10)) - 48 = n mod 10)
    by (rewrite Z2N.id; lia).
  assert (Hne : 0 < n mod 10 -> Z.to_N (48 + n mod 10) <> 48%N) by lia.
  destruct (n <? 10) eqn:E.
  - apply Z.ltb_lt in E. exists [Z.to_N (48 + n mod 10)].
    assert (Hs : n mod 10 = n) by (apply Z.mod_small; lia).
    repeat split.
    + cbn [forallb]. now rewrite digit_unit_is_digit.
    + unfold digits_value. cbn [fold_left]. rewrite Hd. lia.
    + discriminate.
    + intros Hp. cbn [hd]. apply Hne. lia.
  - apply Z.ltb_ge in E.
    assert (Hq : 0 < n / 10) by (apply Z.div_str_pos; lia).
    assert (Hf' : (0 < fuel)%nat).
    { destruct fuel; [simpl in Hn; lia|lia]. }
    assert (Hb : n / 10 < 2 ^ Z.of_nat fuel).
    { rewrite Nat2Z.inj_succ, Z.pow_succ_r in Hn by lia.
      apply Z.div_lt_upper_bound; lia. }
    destruct (IH (n / 10) (Z.to_N (48 + n mod 10) :: acc) ltac:(lia) Hf')
      as (ds & E1 & E2 & E3 & E4 & E5).
    exists (ds ++ [Z.to_N (48 + n mod 10)]).
    repeat split.
    + rewrite E1, <- app_assoc. reflexivity.
    + rewrite forallb_app, E2. cbn [forallb]. now rewrite digit_unit_is_digit.
    + rewrite digits_value_app, E3. unfold digits_value at 1. cbn [fold_left length].
      rewrite Hd. pose proof (Z.div_mod n 10 ltac:(lia)). lia.
    + now destruct ds.
    + intros _. destruct ds as [|d ds]; [contradiction|]. cbn [app hd] in *. now apply E5.
Qed.

Lemma digits_spec (n : Z) :
  0 <= n ->
  forallb is_digit (digits n) = true /\
  digits_value (digits n) = n /\
  digits n <> [] /\
  (0 < n -> hd 48%N (digits n) <> 48%N).
Proof.
  intros Hn. unfold digits.
  destruct (digits_fuel_spec (S (Z.to_nat (Z.log2 n))) n []) as (ds & E & H).
  - split; [exact Hn|].
    destruct (Z.eq_dec n 0) as [->|Hz]; [reflexivity|].
    rewrite Nat2Z.inj_succ, Z2Nat.id by apply Z.log2_nonneg.
    apply Z.log2_spec. lia.
  - lia.
  - rewrite E, app_nil_r. exact H.
Qed.

(** ** Binary64 rounding *)

Lemma pow2_max_pos (e : Z) : 0 < 2 ^ Z.max e 0.
Proof. apply Z.pow_pos_nonneg; lia. Qed.

Lemma pow10_max_pos (e : Z) : 0 < 10 ^ Z.max e 0.
Proof. apply Z.pow_pos_nonneg; lia. Qed.

(** [2^(e+k) / 2^e = 2^k], with the denominators cleared. *)
Lemma pow2_frac_shift (e k : Z) :
  0 <= k ->
  2 ^ Z.max (e + k) 0 * 2 ^ Z.max (- e) 0 =
  2 ^ k * 2 ^ Z.max e 0 * 2 ^ Z.max (- (e + k)) 0.
Proof.
  intros Hk.
  destruct (Z_le_gt_dec 0 e); [|destruct (Z_le_gt_dec 0 (e + k))].
  - rewrite (Z.max_l (e + k)), (Z.max_r (- e)), (Z.max_l e), (Z.max_r (- (e + k))) by lia.
    change (2 ^ 0) with 1. rewrite Z.pow_add_r by lia. ring.
  - rewrite (Z.max_l (e + k)), (Z.max_l (- e)), (Z.max_r e), (Z.max_r (- (e + k))) by lia.
    change (2 ^ 0) with 1.
    rewrite <- Z.pow_add_r by lia. replace (e + k + - e) with k by lia. ring.
  - rewrite (Z.max_r (e + k)), (Z.max_l (- e)), (Z.max_r e), (Z.max_l (- (e + k))) by lia.
    change (2 ^ 0) with 1.
    rewrite Z.mul_1_l, Z.mul_1_r, <- Z.pow_add_r by lia. f_equal. lia.
Qed.

Lemma pow2_le_shift (e k a b : Z) :
  0 <= k ->
  pow2_le (e + k) a b <-> 2 ^ k * (b * 2 ^ Z.max e 0) <= a * 2 ^ Z.max (- e) 0.
Proof.
  intros Hk. unfold pow2_le.
  pose proof (pow2_frac_shift e k Hk) as F.
  pose proof (pow2_max_pos (- e)) as P1.
  pose proof (pow2_max_pos (- (e + k))) as P2.
  rewrite (Z.mul_le_mono_pos_r _ _ _ P1).
  rewrite (Z.mul_le_mono_pos_r (2 ^ k * _) _ _ P2).
  replace (b * 2 ^ Z.max (e + k) 0 * 2 ^ Z.max (- e) 0)
    with (2 ^ k * (b * 2 ^ Z.max e 0) * 2 ^ Z.max (- (e + k)) 0)
    by (replace (b * 2 ^ Z.max (e + k) 0 * 2 ^ Z.max (- e) 0)
          with (b * (2 ^ Z.max (e + k) 0 * 2 ^ Z.max (- e) 0)) by ring;
        rewrite F; ring).
  replace (a * 2 ^ Z.max (- (e + k)) 0 * 2 ^ Z.max (- e) 0)
    with (a * 2 ^ Z.max (- e) 0 * 2 ^ Z.max (- (e + k)) 0) by ring.
  reflexivity.
Qed.

Lemma lt_pow2_shift (e k a b : Z) :
  0 <= k ->
  lt_pow2 a b (e + k) <-> a * 2 ^ Z.max (- e) 0 < 2 ^ k * (b * 2 ^ Z.max e 0).
Proof.
  intros Hk. unfold lt_pow2.
  pose proof (pow2_frac_shift e k Hk) as F.
  pose proof (pow2_max_pos (- e)) as P1.
  pose proof (pow2_max_pos (- (e + k))) as P2.
  rewrite (Z.mul_lt_mono_pos_r _ _ _ P1).
  rewrite (Z.mul_lt_mono_pos_r _ _ (2 ^ k * _) P2).
  replace (b * 2 ^ Z.max (e + k) 0 * 2 ^ Z.max (- e) 0)
    with (2 ^ k * (b * 2 ^ Z.max e 0) * 2 ^ Z.max (- (e + k)) 0)
    by (replace (b * 2 ^ Z.max (e + k) 0 * 2 ^ Z.max (- e) 0)
          with (b * (2 ^ Z.max (e + k) 0 * 2 ^ Z.max (- e) 0)) by ring;
        rewrite F; ring).
  replace (a * 2 ^ Z.max (- (e + k)) 0 * 2 ^ Z.max (- e) 0)
    with (a * 2 ^ Z.max (- e) 0 * 2 ^ Z.max (- (e + k)) 0) by ring.
  reflexivity.
Qed.

Lemma pow2_le_mono (e e' a b : Z) :
  0 < b -> e' <= e -> pow2_le e a b -> pow2_le e' a b.
Proof.
  intros Hb He H.
  replace e with (e' + (e - e')) in H by lia.
  apply pow2_le_shift in H; [|lia].
  unfold pow2_le.
  pose proof (pow2_max_pos e') as P.
  assert (1 <= 2 ^ (e - e')) by (apply Z.pow_le_mono_r with (b := 0); lia).
  nia.
Qed.

Lemma lt_pow2_mono (e e' a b : Z) :
  0 < b -> e <= e' -> lt_pow2 a b e -> lt_pow2 a b e'.
Proof.
  intros Hb He H.
  replace e' with (e + (e' - e)) by lia.
  apply lt_pow2_shift; [lia|].
  unfold lt_pow2 in H.
  pose proof (pow2_max_pos e) as P.
  assert (1 <= 2 ^ (e' - e)) by (apply Z.pow_le_mono_r with (b := 0); lia).
  nia.
Qed.

Lemma pow2_le_lt_excl (e a b : Z) : pow2_le e a b -> lt_pow2 a b e -> False.
Proof. unfold pow2_le, lt_pow2. lia. Qed.

Lemma log2_bounds (a : Z) : 0 < a -> 2 ^ Z.log2 a <= a < 2 ^ (Z.log2 a + 1).
Proof. intros H. pose proof (Z.log2_spec a H). lia. Qed.

(** [ilog2_ratio a b] is the integer part of the binary logarithm of [a/b]. *)
Lemma ilog2_ratio_spec (a b : Z) :
  0 < a -> 0 < b ->
  pow2_le (ilog2_ratio a b) a b /\ lt_pow2 a b (ilog2_ratio a b + 1).
Proof.
  intros Ha Hb.
  pose proof (log2_bounds a Ha) as [La Ua].
  pose proof (log2_bounds b Hb) as [Lb Ub].
  pose proof (Z.log2_nonneg a) as Na.
  pose proof (Z.log2_nonneg b) as Nb.
  assert (Hi : lt_pow2 a b (Z.log2 a - Z.log2 b + 1)).
  { replace (Z.log2 a - Z.log2 b + 1) with (- Z.log2 b + (Z.log2 a + 1)) by lia.
    apply lt_pow2_shift; [lia|].
    rewrite Z.opp_involutive, (Z.max_l (Z.log2 b)), (Z.max_r (- Z.log2 b)) by lia.
    change (2 ^ 0) with 1.
    assert (0 < 2 ^ Z.log2 b) by (apply Z.pow_pos_nonneg; lia).
    assert (0 < 2 ^ (Z.log2 a + 1)) by (apply Z.pow_pos_nonneg; lia).
    nia. }
  assert (Hii : pow2_le (Z.log2 a - Z.log2 b - 1) a b).
  { replace (Z.log2 a - Z.log2 b - 1) with (- (Z.log2 b + 1) + Z.log2 a) by lia.
    apply pow2_le_shift; [lia|].
    rewrite Z.opp_involutive, (Z.max_l (Z.log2 b + 1)), (Z.max_r (- (Z.log2 b + 1))) by lia.
    change (2 ^ 0) with 1.
    assert (0 < 2 ^ Z.log2 a) by (apply Z.pow_pos_nonneg; lia).
    nia. }
  unfold ilog2_ratio, div_pow2.
  destruct (_ <=? _) eqn:T.
  - apply Z.leb_le in T. split; [exact T|exact Hi].
  - apply Z.leb_gt in T. split; [exact Hii|].
    now replace (Z.log2 a - Z.log2 b - 1 + 1) with (Z.log2 a - Z.log2 b) by lia.
Qed.

(** The binary logarithm of a fraction is unique. *)
Lemma ilog2_unique (a b e e' : Z) :
  0 < b ->
  pow2_le e a b -> lt_pow2 a b (e + 1) ->
  pow2_le e' a b -> lt_pow2 a b (e' + 1) -> e = e'.
Proof.
  intros Hb L U L' U'.
  destruct (Z_lt_le_dec e e') as [H|H].
  - exfalso. apply (pow2_le_lt_excl (e + 1) a b); [|exact U].
    apply (pow2_le_mono e'); auto; lia.
  - destruct (Z_lt_le_dec e' e) as [H'|H']; [|lia].
    exfalso. apply (pow2_le_lt_excl (e' + 1) a b); [|exact U'].
    apply (pow2_le_mono e); auto; lia.
Qed.

Lemma round_half_even_bounds (a b : Z) :
  0 <= a -> 0 < b -> a / b <= round_half_even a b <= a / b + 1.
Proof.
  intros Ha Hb. unfold round_half_even.
  destruct (_ ?= _); [destruct (Z.even _)| |]; lia.
Qed.

Lemma round_half_even_exact (m b : Z) :
  0 < b -> round_half_even (m * b) b = m.
Proof.
  intros Hb. unfold round_half_even.
  rewrite Z.div_mul, Z.mod_mul by lia.
  change (2 * 0) with 0.
  now replace (0 ?= b) with Lt by (symmetry; apply Z.compare_lt_iff; lia).
Qed.

Lemma strip_twos_spec (p : positive) :
  forall e p' e', strip_twos p e = (p', e') ->
    Z.odd (Zpos p') = true /\ Zpos p = Zpos p' * 2 ^ (e' - e) /\ e <= e'.
Proof.
  induction p as [p IH|p IH|]; intros e p' e' H; cbn [strip_twos] in H.
  - inversion H; subst. rewrite Z.sub_diag. repeat split; lia.
  - destruct (IH _ _ _ H) as (O & E & L). repeat split; [exact O| |lia].
    rewrite Pos2Z.inj_xO, E.
    replace (e' - e) with (Z.succ (e' - (e + 1))) by lia.
    rewrite Z.pow_succ_r by lia. ring.
  - inversion H; subst. rewrite Z.sub_diag. repeat split; lia.
Qed.

Lemma strip_twos_odd_pow (p : positive) (k : nat) :
  Z.odd (Zpos p) = true ->
  forall q e, Zpos q = Zpos p * 2 ^ Z.of_nat k ->
    strip_twos q e = (p, e + Z.of_nat k).
Proof.
  intros Hp. induction k as [|k IH]; intros q e E.
  - change (2 ^ Z.of_nat 0) with 1 in E. rewrite Z.mul_1_r in E.
    inversion E; subst q. rewrite Z.add_0_r.
    destruct p; try reflexivity. discriminate Hp.
  - rewrite Nat2Z.inj_succ, Z.pow_succ_r in E by lia.
    destruct q as [q|q|]; try lia.
    cbn [strip_twos]. rewrite (IH q (e + 1)) by lia. f_equal. lia.
Qed.

Lemma canonical_spec (m e : Z) :
  0 < m ->
  exists m' e', canonical m e = Fin m' e' /\
    Z.odd m' = true /\ 0 < m' <= m /\ e <= e' /\
    Z.log2 m' + e' = Z.log2 m + e.
Proof.
  intros Hm. destruct m as [|p|p]; try lia.
  unfold canonical. destruct (strip_twos p e) as [p' e'] eqn:S.
  destruct (strip_twos_spec p e p' e' S) as (O & E & L).
  exists (Zpos p'), e'. repeat split; auto; try lia.
  - assert (1 <= 2 ^ (e' - e)) by (apply Z.pow_le_mono_r with (b := 0); lia).
    nia.
  - rewrite E, Z.log2_mul_pow2 by lia. lia.
Qed.

Lemma canonical_odd_pow (m e k : Z) :
  0 < m -> Z.odd m = true -> 0 <= k -> canonical (m * 2 ^ k) e = Fin m (e + k).
Proof.
  intros Hm Ho Hk. destruct m as [|p|p]; try lia.
  assert (P : 0 < 2 ^ k) by (apply Z.pow_pos_nonneg; lia).
  destruct (Z.pos p * 2 ^ k) as [|q|q] eqn:E; try lia.
  unfold canonical.
  rewrite (strip_twos_odd_pow p (Z.to_nat k) Ho q e) by (rewrite Z2Nat.id; lia).
  now rewrite Z2Nat.id by lia.
Qed.

(** What rounding returns is a binary64 value. *)
Lemma round_ratio_wf (a b : Z) :
  0 < a -> 0 < b -> wf_number (round_ratio a b).
Proof.
  intros Ha Hb. unfold round_ratio.
  destruct (ilog2_ratio_spec a b Ha Hb) as [_ U].
  set (e := Z.max (ilog2_ratio a b - 52) (-1074)).
  unfold div_pow2.
  pose proof (pow2_max_pos e) as P1.
  pose proof (pow2_max_pos (- e)) as P2.
  assert (HB : 0 < b * 2 ^ Z.max e 0) by nia.
  assert (HA : 0 <= a * 2 ^ Z.max (- e) 0) by nia.
  assert (Hlt : a * 2 ^ Z.max (- e) 0 < 2 ^ 53 * (b * 2 ^ Z.max e 0)).
  { apply lt_pow2_shift; [lia|].
    apply (lt_pow2_mono (ilog2_ratio a b + 1)); [exact Hb|lia|exact U]. }
  pose proof (round_half_even_bounds _ _ HA HB) as [L R].
  assert (Hq : 0 <= a * 2 ^ Z.max (- e) 0 / (b * 2 ^ Z.max e 0) < 2 ^ 53).
  { split; [apply Z.div_pos; lia|apply Z.div_lt_upper_bound; lia]. }
  set (m := round_half_even _ _) in *.
  destruct (1024 <=? Z.log2 m + e) eqn:O; [exact I|].
  apply Z.leb_gt in O.
  destruct (Z.eq_dec m 0) as [->|Hm]; [now left|].
  destruct (canonical_spec m e ltac:(lia)) as (m' & e' & -> & Ho & Hb' & He & Hl).
  right. rewrite Z.abs_eq by lia. repeat split; try lia.
  - exact Ho.
  - assert (m' <> 2 ^ 53) by (intros ->; discriminate Ho). lia.
Qed.

(** A binary64 value reads back as itself. *)
Lemma round_ratio_exact (a b m e0 : Z) :
  0 < a -> 0 < b -> representable m e0 ->
  a * 2 ^ Z.max (- e0) 0 = m * (b * 2 ^ Z.max e0 0) ->
  round_ratio a b = Fin m e0.
Proof.
  intros Ha Hb (Ho & [Hm Hm53] & He & Hov) Hx.
  pose proof (log2_bounds m Hm) as [Lm Um].
  pose proof (Z.log2_nonneg m) as Nm.
  assert (Hlm : Z.log2 m < 53) by (apply Z.log2_lt_pow2; lia).
  pose proof (pow2_max_pos e0) as P1.
  assert (HB0 : 0 < b * 2 ^ Z.max e0 0) by nia.
  destruct (ilog2_ratio_spec a b Ha Hb) as [L U].
  assert (L' : pow2_le (e0 + Z.log2 m) a b).
  { apply pow2_le_shift; [lia|]. rewrite Hx. nia. }
  assert (U' : lt_pow2 a b (e0 + Z.log2 m + 1)).
  { replace (e0 + Z.log2 m + 1) with (e0 + (Z.log2 m + 1)) by lia.
    apply lt_pow2_shift; [lia|]. rewrite Hx. nia. }
  pose proof (ilog2_unique a b _ _ Hb L U L' U') as HE.
  unfold round_ratio. rewrite HE.
  set (e := Z.max (e0 + Z.log2 m - 52) (-1074)).
  assert (Hd : 0 <= e0 - e) by lia.
  unfold div_pow2.
  assert (HA : a * 2 ^ Z.max (- e) 0 = (m * 2 ^ (e0 - e)) * (b * 2 ^ Z.max e 0)).
  { pose proof (pow2_frac_shift e (e0 - e) Hd) as F.
    replace (e + (e0 - e)) with e0 in F by lia.
    pose proof (pow2_max_pos (- e0)) as P2.
    apply (Z.mul_reg_r _ _ (2 ^ Z.max (- e0) 0)); [lia|].
    replace (a * 2 ^ Z.max (- e) 0 * 2 ^ Z.max (- e0) 0)
      with (a * 2 ^ Z.max (- e0) 0 * 2 ^ Z.max (- e) 0) by ring.
    rewrite Hx.
    replace (m * (b * 2 ^ Z.max e0 0) * 2 ^ Z.max (- e) 0)
      with (m * b * (2 ^ Z.max e0 0 * 2 ^ Z.max (- e) 0)) by ring.
    rewrite F. ring. }
  rewrite HA.
  pose proof (pow2_max_pos e) as P3.
  rewrite round_half_even_exact by nia.
  rewrite Z.log2_mul_pow2 by lia.
  replace (1024 <=? e0 - e + Z.log2 m + e) with false
    by (symmetry; apply Z.leb_gt; lia).
  rewrite canonical_odd_pow by (auto; lia).
  f_equal. lia.
Qed.

Lemma number_eqb_eq (x y : number) : number_eqb x y = true -> x = y.
Proof.
  destruct x as [m e|s], y as [m' e'|s']; simpl; try discriminate.
  - intros H. apply andb_prop in H as [H1 H2].
    apply Z.eqb_eq in H1, H2. now subst.
  - intros H. apply Bool.eqb_prop in H. now subst.
Qed.

(** A candidate reads back as the value it was found for. *)
Lemma candidate_sound (m e j s : Z) :
  0 < m -> candidate m e j = Some s -> 0 < s /\ round_dec s j = Fin m e.
Proof.
  intros Hm. unfold candidate, scaled.
  set (a := m * 2 ^ Z.max e 0 * 10 ^ Z.max (- j) 0).
  set (b := 2 ^ Z.max (- e) 0 * 10 ^ Z.max j 0).
  assert (Ha : 0 <= a).
  { pose proof (pow2_max_pos e). pose proof (pow10_max_pos (- j)). unfold a. nia. }
  assert (Hb : 0 < b).
  { pose proof (pow2_max_pos (- e)). pose proof (pow10_max_pos j). unfold b. nia. }
  assert (Hlo : 0 <= a / b) by (apply Z.div_pos; lia).
  destruct (0 <? a / b) eqn:P;
    destruct (number_eqb (round_dec (a / b) j) (Fin m e)) eqn:E1;
    destruct (number_eqb (round_dec (a / b + 1) j) (Fin m e)) eqn:E2;
    cbn [andb]; intros H;
    try discriminate H;
    try apply Z.ltb_lt in P;
    try apply number_eqb_eq in E1; try apply number_eqb_eq in E2;
    try (inversion H; subst s; split; [lia|assumption]).
  destruct (2 * (a mod b) ?= b); [destruct (Z.even (a / b))| |];
    inversion H; subst s; split; (lia || assumption).
Qed.

Lemma pow10_split (k : Z) : 0 <= k -> 10 ^ k = 5 ^ k * 2 ^ k.
Proof. intros H. now rewrite <- Z.pow_mul_l. Qed.

(** The exact decimal expansion of a binary64 value is a candidate. *)
Lemma candidate_exact (m e : Z) :
  representable m e -> exists s, candidate m e (Z.min e 0) = Some s.
Proof.
  intros R. pose proof R as (Ho & [Hm Hm53] & He & Hov).
  assert (X : exists lo,
             (let (a, b) := scaled m e (Z.min e 0) in a / b) = lo /\
             0 < lo /\ round_dec lo (Z.min e 0) = Fin m e).
  { unfold scaled, round_dec, dec_ratio.
    destruct (Z_le_gt_dec 0 e) as [H|H].
    - rewrite (Z.min_r e 0) by lia.
      rewrite (Z.max_l e 0), (Z.max_r (- e) 0) by lia.
      change (Z.max (- 0) 0) with 0. change (Z.max 0 0) with 0.
      change (10 ^ 0) with 1. change (2 ^ 0) with 1.
      assert (P : 0 < 2 ^ e) by (apply Z.pow_pos_nonneg; lia).
      exists (m * 2 ^ e). rewrite !Z.mul_1_r, Z.div_1_r.
      repeat split; [nia|].
      apply round_ratio_exact; [nia|lia|exact R|].
      rewrite (Z.max_l e 0), (Z.max_r (- e) 0) by lia.
      change (2 ^ 0) with 1. ring.
    - rewrite (Z.min_l e 0) by lia.
      rewrite (Z.max_r e 0), (Z.max_l (- e) 0) by lia.
      change (2 ^ 0) with 1. change (10 ^ 0) with 1.
      assert (P2 : 0 < 2 ^ (- e)) by (apply Z.pow_pos_nonneg; lia).
      assert (P5 : 0 < 5 ^ (- e)) by (apply Z.pow_pos_nonneg; lia).
      exists (m * 5 ^ (- e)). rewrite !Z.mul_1_r.
      repeat split; [|nia|].
      + rewrite pow10_split by lia.
        replace (m * (5 ^ (- e) * 2 ^ (- e))) with (m * 5 ^ (- e) * 2 ^ (- e)) by ring.
        apply Z.div_mul. lia.
      + apply round_ratio_exact; [nia|apply Z.pow_pos_nonneg; lia|exact R|].
        rewrite (Z.max_r e 0), (Z.max_l (- e) 0) by lia.
        change (2 ^ 0) with 1. rewrite pow10_split by lia. ring. }
  destruct X as (lo & Elo & Plo & Rlo).
  unfold candidate. destruct (scaled m e (Z.min e 0)) as [a b].
  rewrite Elo, Rlo.
  replace (0 <? lo) with true by (symmetry; apply Z.ltb_lt; lia).
  replace (number_eqb (Fin m e) (Fin m e)) with true
    by (simpl; now rewrite !Z.eqb_refl).
  cbn [andb].
  destruct (number_eqb (round_dec (lo + 1) (Z.min e 0)) (Fin m e)); [|eauto].
  destruct (2 * (a mod b) ?= b); [destruct (Z.even lo)| |]; eauto.
Qed.

Lemma shortest_from_finds (m e : Z) (fuel : nat) :
  forall j j0, j0 <= j -> j - j0 < Z.of_nat fuel ->
    (exists s, candidate m e j0 = Some s) ->
    exists s j', shortest_from fuel m e j = Some (s, j') /\ candidate m e j' = Some s.
Proof.
  induction fuel as [|fuel IH]; intros j j0 Hj Hf Hc; [lia|].
  cbn [shortest_from]. destruct (candidate m e j) as [s|] eqn:C; [eauto|].
  apply (IH (j - 1) j0); [|lia|exact Hc].
  destruct (Z.eq_dec j0 j) as [->|]; [|lia].
  destruct Hc as [s Hs]. congruence.
Qed.

(** [Number::toString] finds digits for every binary64 value, and they read
    back as that value. *)
Lemma shortest_spec (m e : Z) :
  representable m e ->
  exists s j, shortest m e = Some (s, j) /\ 0 < s /\ round_dec s j = Fin m e.
Proof.
  intros R. pose proof R as (Ho & [Hm Hm53] & He & Hov).
  pose proof (Z.log2_nonneg m) as Nm.
  destruct (shortest_from_finds m e
              (Z.to_nat (Z.max 1 (Z.log2 m + e + 1) - Z.min e 0 + 1))
              (Z.max 1 (Z.log2 m + e + 1)) (Z.min e 0)
              ltac:(lia) ltac:(lia) (candidate_exact m e R))
    as (s & j & E & C).
  exists s, j. split; [exact E|]. now apply candidate_sound.
Qed.

(** ** Numbers: printing and reading back *)

Lemma ends_number_cases (rest : str) :
  ends_number rest = true ->
  match rest with
  | [] => True
  | c :: _ => is_digit c = false /\ (c =? 46)%N = false /\
              (c =? 101)%N = false /\ (c =? 69)%N = false
  end.
Proof.
  destruct rest as [|c rest]; [trivial|]. cbn [ends_number]. intros H.
  apply negb_true_iff in H. repeat (apply orb_false_elim in H as [H ?]). auto.
Qed.

Lemma span_digits_app (ds rest : str) :
  forallb is_digit ds = true ->
  match rest with [] => True | c :: _ => is_digit c = false end ->
  span_digits (ds ++ rest) = (ds, rest).
Proof.
  intros H Hr. induction ds as [|d ds IH]; cbn [app span_digits].
  - destruct rest as [|c rest]; [reflexivity|].
    cbn [span_digits]. now rewrite Hr.
  - cbn [forallb] in H. apply andb_prop in H as [Hd H].
    now rewrite Hd, IH.
Qed.

Lemma parse_frac_none (rest : str) :
  ends_number rest = true -> parse_frac rest = Some ([], rest).
Proof.
  intros H. apply ends_number_cases in H.
  destruct rest as [|c rest]; [reflexivity|].
  destruct H as (_ & H & _). cbn [parse_frac]. now rewrite H.
Qed.

Lemma parse_exp_none (rest : str) :
  ends_number rest = true -> parse_exp rest = Some (0, rest).
Proof.
  intros H. apply ends_number_cases in H.
  destruct rest as [|c rest]; [reflexivity|].
  destruct H as (_ & _ & H1 & H2). cbn [parse_exp]. now rewrite H1, H2.
Qed.

Lemma ends_number_not_digit (rest : str) :
  ends_number rest = true ->
  match rest with [] => True | c :: _ => is_digit c = false end.
Proof.
  intros H. apply ends_number_cases in H.
  destruct rest as [|c rest]; [trivial|]. tauto.
Qed.

Lemma parse_frac_digits (fp rest : str) :
  fp <> [] -> forallb is_digit fp = true ->
  match rest with [] => True | c :: _ => is_digit c = false end ->
  parse_frac (46%N :: fp ++ rest) = Some (fp, rest).
Proof.
  intros Hne Hd Hr. cbn [parse_frac]. rewrite N.eqb_refl.
  rewrite span_digits_app by assumption. now destruct fp.
Qed.

Lemma parse_exp_signed (x : Z) (rest : str) :
  match rest with [] => True | c :: _ => is_digit c = false end ->
  parse_exp (101%N :: (if 0 <=? x then 43%N else 45%N) :: digits (Z.abs x) ++ rest)
  = Some (x, rest).
Proof.
  intros Hr. destruct (digits_spec (Z.abs x) ltac:(lia)) as (D1 & D2 & D3 & _).
  cbn [parse_exp]. change (101 =? 101)%N with true. cbn [orb].
  destruct (0 <=? x) eqn:S.
  - apply Z.leb_le in S. change (43 =? 43)%N with true. cbn iota.
    rewrite span_digits_app by assumption.
    destruct (digits (Z.abs x)) eqn:E; [contradiction|].
    rewrite D2. f_equal. f_equal. lia.
  - apply Z.leb_gt in S. change (45 =? 43)%N with false.
    change (45 =? 45)%N with true. cbn iota.
    rewrite span_digits_app by assumption.
    destruct (digits (Z.abs x)) eqn:E; [contradiction|].
    rewrite D2. f_equal. f_equal. lia.
Qed.

Lemma parse_int_digits (ip rest : str) :
  ip <> [] -> forallb is_digit ip = true -> hd 48%N ip <> 48%N ->
  match rest with [] => True | c :: _ => is_digit c = false end ->
  parse_int (ip ++ rest) = Some (ip, rest).
Proof.
  intros Hne Hd Hh Hr. destruct ip as [|d ip]; [contradiction|].
  cbn [hd] in Hh. cbn [app parse_int].
  replace (d =? 48)%N with false by (symmetry; now apply N.eqb_neq).
  pose proof Hd as Hd'. cbn [forallb] in Hd'. apply andb_prop in Hd' as [H0 _].
  rewrite H0. change (d :: ip ++ rest) with ((d :: ip) ++ rest).
  now rewrite span_digits_app.
Qed.

Lemma not_digit_cons (c : N) (rest : str) :
  is_digit c = false ->
  match c :: rest with [] => True | c' :: _ => is_digit c' = false end.
Proof. trivial. Qed.

Lemma format_digits_reads (ds : str) (n : Z) (rest : str) :
  ds <> [] -> forallb is_digit ds = true -> hd 48%N ds <> 48%N ->
  0 < digits_value ds ->
  ends_number rest = true ->
  reads_as (format_digits ds n ++ rest) rest
    (digits_value ds) (n - Z.of_nat (length ds)).
Proof.
  intros Hne Hd Hh Hs He.
  pose proof (ends_number_not_digit rest He) as Hr.
  unfold format_digits, reads_as.
  set (k := Z.of_nat (length ds)).
  assert (Hk : 0 < k) by (destruct ds; [contradiction|unfold k; simpl; lia]).
  destruct ((k <=? n) && (n <=? 21)) eqn:A.
  { (* digits and zeros *)
    apply andb_prop in A as [A1 A2]. apply Z.leb_le in A1.
    exists (ds ++ zeros (n - k)), [], 0, rest, rest.
    assert (P : 0 < 10 ^ (n - k)) by (apply Z.pow_pos_nonneg; lia).
    split; [|split; [|split; [|split]]].
    - apply parse_int_digits; auto.
      + now destruct ds.
      + now rewrite forallb_app, Hd, zeros_all_digits.
      + now destruct ds.
    - now apply parse_frac_none.
    - now apply parse_exp_none.
    - rewrite app_nil_r, digits_value_app, digits_value_zeros, zeros_length by lia. nia.
    - rewrite app_nil_r, digits_value_app, digits_value_zeros, zeros_length by lia.
      unfold dec_ratio. cbn [length]. change (Z.of_nat 0) with 0.
      change (Z.max (0 - 0) 0) with 0. change (Z.max (- (0 - 0)) 0) with 0.
      rewrite (Z.max_l (n - k)), (Z.max_r (- (n - k))) by lia.
      change (10 ^ 0) with 1. f_equal. ring. }
  destruct ((0 <? n) && (n <=? 21)) eqn:B.
  { (* a decimal point inside the digits *)
    apply andb_prop in B as [B1 B2]. apply Z.ltb_lt in B1. apply Z.leb_le in B2.
    assert (Hnk : n < k).
    { apply andb_false_iff in A as [A|A]; [apply Z.leb_gt in A; lia|apply Z.leb_gt in A; lia]. }
    pose proof (firstn_skipn (Z.to_nat n) ds) as FS.
    assert (F1 : forallb is_digit (firstn (Z.to_nat n) ds) = true /\
                 forallb is_digit (skipn (Z.to_nat n) ds) = true).
    { rewrite <- FS, forallb_app in Hd. now apply andb_prop in Hd. }
    destruct F1 as [F1 F2].
    assert (L2 : length (skipn (Z.to_nat n) ds) = (length ds - Z.to_nat n)%nat)
      by apply length_skipn.
    exists (firstn (Z.to_nat n) ds), (skipn (Z.to_nat n) ds), 0,
      (46%N :: skipn (Z.to_nat n) ds ++ rest), rest.
    split; [|split; [|split; [|split]]].
    - rewrite <- app_assoc. cbn [app]. apply parse_int_digits; auto.
      + destruct ds; [contradiction|]. destruct (Z.to_nat n) eqn:E; [lia|discriminate].
      + destruct ds; [contradiction|]. destruct (Z.to_nat n) eqn:E; [lia|exact Hh].
    - apply parse_frac_digits; auto.
      intros E. rewrite E in L2. simpl in L2. unfold k in Hnk. lia.
    - now apply parse_exp_none.
    - now rewrite FS.
    - rewrite FS, L2. f_equal. unfold k. lia. }
  destruct ((-6 <? n) && (n <=? 0)) eqn:C.
  { (* zero, a point, zeros and the digits *)
    apply andb_prop in C as [C1 C2]. apply Z.ltb_lt in C1. apply Z.leb_le in C2.
    exists [48%N], (zeros (- n) ++ ds), 0, (46%N :: (zeros (- n) ++ ds) ++ rest), rest.
    assert (V : digits_value ([48%N] ++ zeros (- n) ++ ds) = digits_value ds).
    { rewrite digits_value_app, (digits_value_app (zeros (- n))), digits_value_zeros.
      unfold digits_value at 1. simpl. lia. }
    split; [|split; [|split; [|split]]].
    - cbn [app]. rewrite <- app_assoc. reflexivity.
    - apply parse_frac_digits; auto.
      + destruct ds; [contradiction|]. now destruct (zeros (- n)).
      + now rewrite forallb_app, zeros_all_digits, Hd.
    - now apply parse_exp_none.
    - now rewrite V.
    - rewrite V, length_app, Nat2Z.inj_add, zeros_length by lia. f_equal. unfold k. lia. }
  (* exponent notation *)
  assert (Hn : n <= -6 \/ 21 < n).
  { apply andb_false_iff in B. apply andb_false_iff in C.
    destruct B as [B|B]; [apply Z.ltb_ge in B|apply Z.leb_gt in B; lia].
    destruct C as [C|C]; [apply Z.ltb_ge in C; lia|apply Z.leb_gt in C; lia]. }
  destruct ds as [|d [|d' ds']]; [contradiction| |].
  - cbn [hd] in Hh. cbn [forallb] in Hd. apply andb_prop in Hd as [Hd _].
    exists [d], [], (n - 1), (101%N :: (if 0 <=? n - 1 then 43%N else 45%N)
                               :: digits (Z.abs (n - 1)) ++ rest),
      (101%N :: (if 0 <=? n - 1 then 43%N else 45%N) :: digits (Z.abs (n - 1)) ++ rest).
    split; [|split; [|split; [|split]]].
    + cbn [app]. cbn [parse_int].
      replace (d =? 48)%N with false by (symmetry; now apply N.eqb_neq).
      rewrite Hd. cbn [span_digits]. rewrite Hd. reflexivity.
    + reflexivity.
    + now apply parse_exp_signed.
    + exact Hs.
    + cbn [length]. f_equal. unfold k. cbn [length]. lia.
  - cbn [hd] in Hh. pose proof Hd as Hd0. cbn [forallb] in Hd0.
    apply andb_prop in Hd0 as [Hd1 Hd2].
    exists [d], (d' :: ds'), (n - 1),
      (46%N :: (d' :: ds') ++ 101%N :: (if 0 <=? n - 1 then 43%N else 45%N)
                               :: digits (Z.abs (n - 1)) ++ rest),
      (101%N :: (if 0 <=? n - 1 then 43%N else 45%N) :: digits (Z.abs (n - 1)) ++ rest).
    split; [|split; [|split; [|split]]].
    + cbn [app]. cbn [parse_int].
      replace (d =? 48)%N with false by (symmetry; now apply N.eqb_neq).
      rewrite Hd1. cbn [span_digits]. rewrite Hd1. rewrite <- app_assoc. reflexivity.
    + apply parse_frac_digits; [discriminate|exact Hd2|reflexivity].
    + now apply parse_exp_signed.
    + exact Hs.
    + f_equal. unfold k. cbn [length]. lia.
Qed.

Lemma parse_int_head (text ip r : str) :
  parse_int text = Some (ip, r) ->
  exists c t, text = c :: t /\ is_digit c = true.
Proof.
  destruct text as [|c t]; [discriminate|]. cbn [parse_int].
  destruct (N.eqb_spec c 48) as [->|]; [intros _; now exists 48%N, t|].
  destruct (is_digit c) eqn:D; [|discriminate]. intros _. now exists c, t.
Qed.

Lemma digit_not_minus (c : N) : is_digit c = true -> (c =? 45)%N = false.
Proof.
  unfold is_digit. intros H. apply andb_prop in H as [H _].
  apply N.leb_le in H. apply N.eqb_neq. lia.
Qed.

Lemma parse_number_reads (text rest : str) (s j : Z) :
  reads_as text rest s j ->
  parse_number text = Some (round_dec s j, rest) /\
  parse_number (45%N :: text) = Some (negate (round_dec s j), rest).
Proof.
  intros (ip & fp & ex & r1 & r2 & Hi & Hf & He & Hp & Hv).
  destruct (parse_int_head _ _ _ Hi) as (c & t & -> & Hc).
  assert (V : number_of_decimal false (digits_value (ip ++ fp)) (ex - Z.of_nat (length fp))
              = round_dec s j).
  { unfold number_of_decimal.
    replace (digits_value (ip ++ fp) =? 0) with false by (symmetry; apply Z.eqb_neq; lia).
    unfold round_dec. now rewrite Hv. }
  assert (V' : number_of_decimal true (digits_value (ip ++ fp)) (ex - Z.of_nat (length fp))
               = negate (round_dec s j)).
  { unfold number_of_decimal.
    replace (digits_value (ip ++ fp) =? 0) with false by (symmetry; apply Z.eqb_neq; lia).
    unfold round_dec. now rewrite Hv. }
  split; unfold parse_number, parse_sign.
  - rewrite (digit_not_minus c Hc), Hi, Hf, He, V. reflexivity.
  - change (45 =? 45)%N with true. cbn iota. rewrite Hi, Hf, He, V'. reflexivity.
Qed.

Lemma positive_to_string_reads (m e : Z) (rest : str) :
  representable m e -> ends_number rest = true ->
  exists s j, round_dec s j = Fin m e /\
    reads_as (positive_to_string m e ++ rest) rest s j.
Proof.
  intros R He. destruct (shortest_spec m e R) as (s & j & E & Hs & Hr).
  exists s, j. split; [exact Hr|].
  unfold positive_to_string. rewrite E.
  destruct (digits_spec s ltac:(lia)) as (D1 & D2 & D3 & D4).
  pose proof (format_digits_reads (digits s) (Z.of_nat (length (digits s)) + j) rest
                D3 D1 (D4 Hs) ltac:(lia) He) as F.
  rewrite D2 in F.
  now replace (Z.of_nat (length (digits s)) + j - Z.of_nat (length (digits s))) with j
    in F by lia.
Qed.

(** A finite Number, written by [String] and read by the number grammar of
    [JSON.parse], is the same Number. *)
Lemma number_roundtrip (m e : Z) (rest : str) :
  wf_number (Fin m e) -> ends_number rest = true ->
  parse_number (number_to_string (Fin m e) ++ rest) = Some (Fin m e, rest).
Proof.
  intros W He. destruct m as [|p|p]; cbn [wf_number Z.abs] in W.
  - destruct W as [[_ ->]|(_ & [W _] & _)]; [|lia].
    cbn [number_to_string app]. unfold parse_number, parse_sign.
    change (48 =? 45)%N with false. cbn iota. cbn [parse_int].
    change (48 =? 48)%N with true. cbn iota.
    rewrite parse_frac_none, parse_exp_none by exact He. reflexivity.
  - destruct W as [[W _]|R]; [discriminate|].
    destruct (positive_to_string_reads _ _ rest R He) as (s & j & Hr & F).
    cbn [number_to_string]. rewrite (proj1 (parse_number_reads _ _ _ _ F)), Hr.
    reflexivity.
  - destruct W as [[W _]|R]; [discriminate|].
    destruct (positive_to_string_reads _ _ rest R He) as (s & j & Hr & F).
    cbn [number_to_string app].
    rewrite (proj2 (parse_number_reads _ _ _ _ F)), Hr. reflexivity.
Qed.

(** ** Strings: quoting and reading back *)

Local Open Scope N_scope.

Lemma hex_value_digit (n : N) : n < 16 -> hex_value (hex_digit n) = Some n.
Proof.
  intros H. unfold hex_digit, hex_value, is_digit.
  destruct (n <? 10) eqn:E.
  - apply N.ltb_lt in E.
    replace ((48 <=? 48 + n) && (48 + n <=? 57)) with true
      by (symmetry; apply andb_true_intro; split; apply N.leb_le; lia).
    f_equal. lia.
  - apply N.ltb_ge in E.
    replace ((48 <=? 87 + n) && (87 + n <=? 57)) with false
      by (symmetry; apply andb_false_iff; right; apply N.leb_gt; lia).
    replace ((97 <=? 87 + n) && (87 + n <=? 102)) with true
      by (symmetry; apply andb_true_intro; split; apply N.leb_le; lia).
    f_equal. lia.
Qed.

Lemma hex4_unicode (c : N) :
  c < 65536 ->
  hex4 (hex_digit (c / 4096)) (hex_digit ((c / 256) mod 16))
       (hex_digit ((c / 16) mod 16)) (hex_digit (c mod 16)) = Some c.
Proof.
  intros H. unfold hex4.
  assert (H1 : c / 4096 < 16) by (apply N.Div0.div_lt_upper_bound; lia).
  assert (H2 : (c / 256) mod 16 < 16) by (apply N.mod_lt; lia).
  assert (H3 : (c / 16) mod 16 < 16) by (apply N.mod_lt; lia).
  assert (H4 : c mod 16 < 16) by (apply N.mod_lt; lia).
  rewrite !hex_value_digit by assumption. f_equal.
  pose proof (N.div_mod c 16 ltac:(lia)) as D1.
  pose proof (N.div_mod (c / 16) 16 ltac:(lia)) as D2.
  pose proof (N.div_mod (c / 16 / 16) 16 ltac:(lia)) as D3.
  rewrite !N.Div0.div_div in D2, D3. simpl (16 * 16) in *. 
  rewrite N.Div0.div_div in D3. simpl (256 * 16) in *.
  assert (E : (c / 256) / 16 = c / 4096) by (rewrite N.Div0.div_div; reflexivity).
  assert (E3 : (c / 4096) mod 16 = c / 4096) by (apply N.mod_small; exact H1).
  lia.
Qed.

Lemma parse_chars_raw (c : N) (t : str) :
  (c =? 34) = false -> (c =? 92) = false -> (c <? 32) = false ->
  parse_chars (c :: t) = push c (parse_chars t).
Proof. intros H1 H2 H3. cbn [parse_chars]. now rewrite H1, H2, H3. Qed.

Lemma parse_chars_short (d u : N) (t : str) :
  (d =? 117) = false -> unescape d = Some u ->
  parse_chars (92 :: d :: t) = push u (parse_chars t).
Proof. intros H1 H2. cbn [parse_chars]. simpl (92 =? 34). simpl (92 =? 92). cbn iota. now rewrite H1, H2. Qed.

Lemma parse_chars_unicode (c : N) (t : str) :
  c < 65536 -> parse_chars (unicode_escape c ++ t) = push c (parse_chars t).
Proof.
  intros H. unfold unicode_escape. cbn [app parse_chars].
  simpl (92 =? 34). simpl (92 =? 92). simpl (117 =? 117). cbn iota.
  now rewrite hex4_unicode.
Qed.

Lemma quote_units_roundtrip (n : nat) :
  forall s rest, (length s <= n)%nat ->
    parse_chars (quote_units s ++ 34 :: rest) = Some (s, rest).
Proof.
  induction n as [|n IH]; intros s rest Hn.
  { destruct s; [reflexivity|simpl in Hn; lia]. }
  destruct s as [|c s]; [reflexivity|].
  cbn [length] in Hn.
  assert (IH1 : parse_chars (quote_units s ++ 34 :: rest) = Some (s, rest))
    by (apply IH; lia).
  cbn [quote_units].
  destruct (N.eqb_spec c 8) as [->|N8].
  { cbn [app]. rewrite (parse_chars_short 98 8) by reflexivity. now rewrite IH1. }
  destruct (N.eqb_spec c 9) as [->|N9].
  { cbn [app]. rewrite (parse_chars_short 116 9) by reflexivity. now rewrite IH1. }
  destruct (N.eqb_spec c 10) as [->|N10].
  { cbn [app]. rewrite (parse_chars_short 110 10) by reflexivity. now rewrite IH1. }
  destruct (N.eqb_spec c 12) as [->|N12].
  { cbn [app]. rewrite (parse_chars_short 102 12) by reflexivity. now rewrite IH1. }
  destruct (N.eqb_spec c 13) as [->|N13].
  { cbn [app]. rewrite (parse_chars_short 114 13) by reflexivity. now rewrite IH1. }
  destruct (N.eqb_spec c 34) as [->|N34].
  { cbn [app]. rewrite (parse_chars_short 34 34) by reflexivity. now rewrite IH1. }
  destruct (N.eqb_spec c 92) as [->|N92].
  { cbn [app]. rewrite (parse_chars_short 92 92) by reflexivity. now rewrite IH1. }
  destruct (c <? 32) eqn:L32.
  { apply N.ltb_lt in L32. rewrite <- app_assoc, parse_chars_unicode by lia.
    now rewrite IH1. }
  assert (R : forall t, parse_chars (c :: t) = push c (parse_chars t)).
  { intros t. apply parse_chars_raw; auto; now apply N.eqb_neq. }
  destruct (is_lead c) eqn:Lc.
  { unfold is_lead in Lc. apply andb_prop in Lc as [Lc1 Lc2].
    apply N.leb_le in Lc1. apply N.leb_le in Lc2.
    destruct s as [|d s].
    - rewrite parse_chars_unicode by lia. reflexivity.
    - destruct (is_trail d) eqn:Td.
      + unfold is_trail in Td. apply andb_prop in Td as [Td1 Td2].
        apply N.leb_le in Td1. apply N.leb_le in Td2.
        cbn [app]. rewrite R.
        rewrite parse_chars_raw
          by (try apply N.eqb_neq; try apply N.ltb_ge; lia).
        rewrite (IH s rest) by (simpl in Hn; lia). reflexivity.
      + rewrite <- app_assoc, parse_chars_unicode by lia. now rewrite IH1. }
  destruct (is_trail c) eqn:Tc.
  { unfold is_trail in Tc. apply andb_prop in Tc as [Tc1 Tc2].
    apply N.leb_le in Tc1. apply N.leb_le in Tc2.
    rewrite <- app_assoc, parse_chars_unicode by lia. now rewrite IH1. }
  cbn [app]. rewrite R, IH1. reflexivity.
Qed.

Lemma quote_roundtrip (s rest : str) :
  parse_chars (quote_units s ++ 34 :: rest) = Some (s, rest).
Proof. now apply (quote_units_roundtrip (length s)). Qed.

(** ** Objects *)

Lemma str_eqb_eq (a b : str) : str_eqb a b = true <-> a = b.
Proof.
  revert b. induction a as [|x a IH]; intros [|y b]; simpl.
  - tauto.
  - split; discriminate.
  - split; discriminate.
  - split.
    + intros H. apply andb_prop in H as [H1 H2].
      apply N.eqb_eq in H1. apply IH in H2. now subst.
    + intros H. inversion H; subst. rewrite N.eqb_refl. now apply IH.
Qed.

Lemma str_eqb_refl (a : str) : str_eqb a a = true.
Proof. now apply str_eqb_eq. Qed.

Lemma has_key_keys (k : str) (o : object) :
  has_key k o = existsb (fun k' => str_eqb k' k) (map fst o).
Proof.
  unfold has_key. induction o as [|[k' v'] o IH]; simpl; [reflexivity|].
  now rewrite IH.
Qed.

Lemma obj_replace_keys (k : str) (v : value) (o : object) :
  map fst (obj_replace k v o) = map fst o.
Proof.
  induction o as [|[k' v'] o IH]; simpl; [reflexivity|].
  destruct (str_eqb k' k); simpl; [reflexivity|now rewrite IH].
Qed.

Lemma digit_value_bounds (d : N) :
  is_digit d = true -> (0 <= Z.of_N d - 48 <= 9)%Z.
Proof.
  unfold is_digit. intros H. apply andb_prop in H as [H1 H2].
  apply N.leb_le in H1. apply N.leb_le in H2. lia.
Qed.

Lemma plain_numeral_snoc (k : str) (d : N) :
  plain_numeral (k ++ [d]) -> plain_numeral k /\ is_digit d = true.
Proof.
  intros [H1 H2]. rewrite forallb_app in H1. apply andb_prop in H1 as [H1 Hd].
  simpl in Hd. rewrite andb_true_r in Hd. split; [split; [exact H1|]|exact Hd].
  destruct k as [|c k]; [now left|right].
  destruct H2 as [H2|H2]; [discriminate|exact H2].
Qed.

Lemma plain_numeral_zero (k : str) :
  plain_numeral k -> digits_value k = 0%Z -> k = [].
Proof.
  induction k as [|d k IH] using rev_ind; intros P V; [reflexivity|].
  destruct (plain_numeral_snoc k d P) as [Pk Hd].
  rewrite digits_value_app in V. unfold digits_value at 2 in V. simpl in V.
  pose proof (digit_value_bounds d Hd).
  pose proof (digits_value_nonneg k (proj1 Pk)).
  assert (Hk : digits_value k = 0%Z) by lia.
  pose proof (IH Pk Hk) as ->.
  destruct P as [_ [P|P]]; [simpl in P; discriminate P|]. simpl in P.
  exfalso. apply P. lia.
Qed.

(** A numeral without a leading zero is determined by its value. *)
Lemma plain_numeral_unique (k : str) :
  forall k', plain_numeral k -> plain_numeral k' ->
    digits_value k = digits_value k' -> k = k'.
Proof.
  induction k as [|d k IH] using rev_ind; intros k' P P' V.
  - symmetry. apply plain_numeral_zero; [exact P'|]. now rewrite <- V.
  - destruct k' as [|d' k'] using rev_ind.
    + apply plain_numeral_zero; [exact P|exact V].
    + clear IHk'.
      destruct (plain_numeral_snoc k d P) as [Pk Hd].
      destruct (plain_numeral_snoc k' d' P') as [Pk' Hd'].
      rewrite !digits_value_app in V. unfold digits_value at 2 4 in V. simpl in V.
      pose proof (digit_value_bounds d Hd). pose proof (digit_value_bounds d' Hd').
      assert (digits_value k = digits_value k' /\ d = d') as [Vk ->] by lia.
      f_equal. now apply IH.
Qed.

Lemma array_index_spec (k : str) (i : Z) :
  array_index k = Some i ->
  digits_value k = i /\ (k = [48] \/ (plain_numeral k /\ k <> [])).
Proof.
  unfold array_index. destruct k as [|d k]; [discriminate|].
  destruct (forallb is_digit (d :: k) && (negb (d =? 48) || (length k =? 0)%nat)) eqn:E;
    [|discriminate].
  destruct (digits_value (d :: k) <? 4294967295)%Z; [|discriminate].
  intros H. inversion H; subst i. split; [reflexivity|].
  apply andb_prop in E as [E1 E2]. apply orb_prop in E2 as [E2|E2].
  - right. split; [|discriminate]. split; [exact E1|right].
    apply negb_true_iff, N.eqb_neq in E2. exact E2.
  - apply Nat.eqb_eq in E2. destruct k; [|discriminate].
    destruct (N.eqb_spec d 48) as [->|Hd]; [now left|].
    right. split; [|discriminate]. split; [exact E1|right; exact Hd].
Qed.

(** Two array-index keys with the same index are the same key. *)
Lemma array_index_inj (k k' : str) (i : Z) :
  array_index k = Some i -> array_index k' = Some i -> k = k'.
Proof.
  intros H H'.
  destruct (array_index_spec k i H) as [V C].
  destruct (array_index_spec k' i H') as [V' C'].
  destruct C as [->|[P Ne]], C' as [->|[P' Ne']]; try reflexivity.
  - exfalso. apply Ne'. apply plain_numeral_zero; [exact P'|].
    rewrite V'. rewrite <- V. reflexivity.
  - exfalso. apply Ne. apply plain_numeral_zero; [exact P|].
    rewrite V. rewrite <- V'. reflexivity.
  - apply plain_numeral_unique; auto. now rewrite V, V'.
Qed.

Lemma keys_ok_cons (k : str) (ks : list str) :
  keys_ok (k :: ks) =
  negb (existsb (fun k' => str_eqb k' k) ks)
  && match array_index k with
     | Some i => after_index i ks
     | None => no_index ks
     end
  && keys_ok ks.
Proof. reflexivity. Qed.

Lemma insert_index_forallb (P : str -> bool) i k v (o : object) :
  forallb P (map fst (obj_insert_index i k v o)) = P k && forallb P (map fst o).
Proof.
  induction o as [|[k' v'] o IH]; simpl; [reflexivity|].
  destruct (array_index k') as [i'|]; [destruct (i <? i')%Z|]; simpl;
    try reflexivity.
  rewrite IH. now destruct (P k), (P k').
Qed.

Lemma insert_index_existsb (P : str -> bool) i k v (o : object) :
  existsb P (map fst (obj_insert_index i k v o)) = P k || existsb P (map fst o).
Proof.
  induction o as [|[k' v'] o IH]; simpl; [reflexivity|].
  destruct (array_index k') as [i'|]; [destruct (i <? i')%Z|]; simpl;
    try reflexivity.
  rewrite IH. now destruct (P k), (P k').
Qed.

Lemma str_eqb_sym (a b : str) : str_eqb a b = str_eqb b a.
Proof.
  destruct (str_eqb a b) eqn:E, (str_eqb b a) eqn:E'; try reflexivity.
  - apply str_eqb_eq in E. subst. now rewrite str_eqb_refl in E'.
  - apply str_eqb_eq in E'. subst. now rewrite str_eqb_refl in E.
Qed.

Lemma after_index_trans (i i' : Z) (ks : list str) :
  (i < i')%Z -> after_index i' ks = true -> after_index i ks = true.
Proof.
  intros H. apply forallb_weaken. intros k.
  destruct (array_index k); [|trivial].
  intros H'. apply Z.ltb_lt in H'. apply Z.ltb_lt. lia.
Qed.

Lemma no_index_after (i : Z) (ks : list str) :
  no_index ks = true -> after_index i ks = true.
Proof. apply forallb_weaken. intros k. now destruct (array_index k). Qed.

Lemma insert_index_ok i k v (o : object) :
  array_index k = Some i -> has_key k o = false ->
  keys_ok (map fst o) = true ->
  keys_ok (map fst (obj_insert_index i k v o)) = true.
Proof.
  intros Hk. induction o as [|[k' v'] o IH]; intros Hn Ho.
  - simpl. now rewrite Hk.
  - rewrite has_key_keys in Hn. cbn [map fst existsb] in Hn.
    apply orb_false_elim in Hn as [Hn1 Hn2].
    cbn [map fst] in Ho. rewrite keys_ok_cons in Ho.
    apply andb_prop in Ho as [Ho Ho3]. apply andb_prop in Ho as [Ho1 Ho2].
    cbn [obj_insert_index].
    destruct (array_index k') as [i'|] eqn:Hk'.
    + destruct (i <? i')%Z eqn:L.
      * apply Z.ltb_lt in L. cbn [map fst]. rewrite !keys_ok_cons, Hk, Hk'.
        cbn [existsb]. rewrite Hn1, Hn2, Ho1, Ho2, Ho3. cbn [orb negb andb].
        unfold after_index at 1. cbn [forallb]. rewrite Hk'.
        fold (after_index i (map fst o)).
        replace (i <? i')%Z with true by (symmetry; now apply Z.ltb_lt).
        now rewrite (after_index_trans i i' _ L Ho2).
      * apply Z.ltb_ge in L. cbn [map fst]. rewrite keys_ok_cons, Hk'.
        rewrite insert_index_existsb.
        unfold after_index. rewrite insert_index_forallb, Hk.
        fold (after_index i' (map fst o)).
        rewrite (str_eqb_sym k k'), Hn1, Ho2. cbn [orb].
        rewrite Ho1. cbn [negb andb].
        rewrite IH; [|now rewrite has_key_keys|exact Ho3].
        rewrite !andb_true_r. apply Z.ltb_lt.
        destruct (Z.eq_dec i i') as [->|]; [|lia].
        rewrite (array_index_inj k k' i' Hk Hk'), str_eqb_refl in Hn1. discriminate.
    + cbn [map fst]. rewrite !keys_ok_cons, Hk, Hk'.
      cbn [existsb]. rewrite Hn1, Hn2, Ho1, Ho2, Ho3. cbn [orb negb andb].
      unfold after_index. cbn [forallb]. rewrite Hk'.
      fold (after_index i (map fst o)).
      now rewrite (no_index_after i _ Ho2).
Qed.

Lemma keys_ok_snoc (ks : list str) (k : str) :
  array_index k = None ->
  existsb (fun k' => str_eqb k' k) ks = false ->
  keys_ok ks = true -> keys_ok (ks ++ [k]) = true.
Proof.
  intros Hk. induction ks as [|k0 ks IH]; intros Hn Ho.
  - simpl. now rewrite Hk.
  - cbn [existsb] in Hn. apply orb_false_elim in Hn as [Hn1 Hn2].
    rewrite keys_ok_cons in Ho.
    apply andb_prop in Ho as [Ho Ho3]. apply andb_prop in Ho as [Ho1 Ho2].
    cbn [app]. rewrite keys_ok_cons, existsb_app. cbn [existsb].
    rewrite (str_eqb_sym k k0), Hn1, orb_false_r, Ho1, IH by assumption.
    cbn [negb andb]. rewrite andb_true_r.
    destruct (array_index k0); unfold after_index, no_index in *;
      rewrite forallb_app; cbn [forallb]; now rewrite Hk, Ho2.
Qed.

(** Setting a property keeps the keys in the order of [Object.keys]. *)
Lemma obj_set_ok (k : str) (v : value) (o : object) :
  keys_ok (map fst o) = true -> keys_ok (map fst (obj_set k v o)) = true.
Proof.
  intros Ho. unfold obj_set. destruct (has_key k o) eqn:Hn.
  - now rewrite obj_replace_keys.
  - destruct (array_index k) as [i|] eqn:Hk.
    + now apply insert_index_ok.
    + rewrite map_app. apply keys_ok_snoc; auto. now rewrite <- has_key_keys.
Qed.

Lemma set_all_ok (ms : list (str * value)) :
  forall acc, keys_ok (map fst acc) = true ->
    keys_ok (map fst (set_all ms acc)) = true.
Proof.
  induction ms as [|[k v] ms IH]; intros acc H; [exact H|].
  apply IH. now apply obj_set_ok.
Qed.

Lemma keys_ok_app_l (a b : list str) :
  keys_ok (a ++ b) = true -> keys_ok a = true.
Proof.
  induction a as [|k a IH]; [reflexivity|].
  cbn [app]. rewrite !keys_ok_cons. intros H.
  apply andb_prop in H as [H H3]. apply andb_prop in H as [H1 H2].
  rewrite existsb_app in H1. apply negb_true_iff, orb_false_elim in H1 as [H1 _].
  rewrite H1, (IH H3). cbn [negb andb]. rewrite andb_true_r.
  destruct (array_index k); unfold after_index, no_index in *;
    rewrite forallb_app in H2; now apply andb_prop in H2.
Qed.

Lemma keys_ok_last_fresh (ks : list str) (k : str) :
  keys_ok (ks ++ [k]) = true -> existsb (fun k' => str_eqb k' k) ks = false.
Proof.
  induction ks as [|k0 ks IH]; [reflexivity|].
  cbn [app]. rewrite keys_ok_cons. intros H.
  apply andb_prop in H as [H H3]. apply andb_prop in H as [H1 _].
  rewrite existsb_app in H1. apply negb_true_iff, orb_false_elim in H1 as [_ H1].
  cbn [existsb] in *. rewrite orb_false_r in H1.
  now rewrite (str_eqb_sym k0 k), H1, (IH H3).
Qed.

Lemma insert_index_last i k v (acc : object) :
  array_index k = Some i ->
  keys_ok (map fst acc ++ [k]) = true ->
  obj_insert_index i k v acc = acc ++ [(k, v)].
Proof.
  intros Hk. induction acc as [|[k' v'] acc IH]; intros H; [reflexivity|].
  cbn [map fst app] in H. rewrite keys_ok_cons in H.
  apply andb_prop in H as [H H3]. apply andb_prop in H as [_ H2].
  cbn [obj_insert_index app].
  destruct (array_index k') as [i'|]; unfold after_index, no_index in H2;
    rewrite forallb_app in H2; apply andb_prop in H2 as [_ H2];
    cbn [forallb] in H2; rewrite Hk, andb_true_r in H2; [|discriminate].
  apply Z.ltb_lt in H2.
  replace (i <? i')%Z with false by (symmetry; apply Z.ltb_ge; lia).
  now rewrite IH.
Qed.

Lemma obj_set_last (k : str) (v : value) (acc : object) :
  keys_ok (map fst (acc ++ [(k, v)])) = true ->
  obj_set k v acc = acc ++ [(k, v)].
Proof.
  rewrite map_app. cbn [map fst]. intros H. unfold obj_set.
  rewrite has_key_keys, (keys_ok_last_fresh _ _ H).
  destruct (array_index k) as [i|] eqn:Hk; [|reflexivity].
  now apply insert_index_last.
Qed.

(** Setting the members of an object in the order of its keys builds the
    same object. *)
Lemma set_all_ordered (ms : list (str * value)) :
  forall acc, keys_ok (map fst (acc ++ ms)) = true -> set_all ms acc = acc ++ ms.
Proof.
  induction ms as [|[k v] ms IH]; intros acc H.
  - now rewrite app_nil_r.
  - cbn [set_all fold_left fst snd]. fold (set_all ms (obj_set k v acc)).
    assert (E : acc ++ (k, v) :: ms = (acc ++ [(k, v)]) ++ ms)
      by now rewrite <- app_assoc.
    rewrite E in H. rewrite obj_set_last.
    + rewrite IH by exact H. now rewrite <- app_assoc.
    + rewrite map_app in H. now apply keys_ok_app_l in H.
Qed.

(** ** What [JSON.parse] returns is well formed *)

Lemma span_digits_digits (s ds r : str) :
  span_digits s = (ds, r) -> forallb is_digit ds = true.
Proof.
  revert ds r. induction s as [|c s IH]; intros ds r H; simpl in H.
  - now inversion H.
  - destruct (is_digit c) eqn:D.
    + destruct (span_digits s) as [ds' r']. inversion H; subst.
      simpl. now rewrite D, (IH ds' r).
    + now inversion H.
Qed.

Lemma negate_wf (x : number) : wf_number x -> wf_number (negate x).
Proof.
  destruct x as [m e|s]; [|trivial]. cbn [negate wf_number].
  rewrite Z.abs_opp. intros [[-> ->]|R]; [now left|now right].
Qed.

Lemma round_dec_wf (s j : Z) : (0 < s)%Z -> wf_number (round_dec s j).
Proof.
  intros H. unfold round_dec, dec_ratio.
  pose proof (pow10_max_pos j). pose proof (pow10_max_pos (- j)).
  apply round_ratio_wf; nia.
Qed.

Lemma parse_number_wf (s : str) (x : number) (r : str) :
  parse_number s = Some (x, r) -> wf_number x.
Proof.
  unfold parse_number. destruct (parse_sign s) as [neg s1].
  destruct (parse_int s1) as [[ip s2]|] eqn:Hi; [|discriminate].
  destruct (parse_frac s2) as [[fp s3]|] eqn:Hf; [|discriminate].
  destruct (parse_exp s3) as [[ex s4]|]; [|discriminate].
  intros H. inversion H; subst x r. clear H.
  assert (Di : forallb is_digit ip = true).
  { destruct s1 as [|c s1]; [discriminate|]. cbn [parse_int] in Hi.
    destruct (c =? 48); [now inversion Hi|].
    destruct (is_digit c); [|discriminate].
    destruct (span_digits (c :: s1)) as [ds r'] eqn:S. inversion Hi; subst.
    now apply span_digits_digits in S. }
  assert (Df : forallb is_digit fp = true).
  { destruct s2 as [|c s2]; [now inversion Hf|]. cbn [parse_frac] in Hf.
    destruct (c =? 46); [|now inversion Hf].
    destruct (span_digits s2) as [ds r'] eqn:S.
    destruct ds; [discriminate|]. inversion Hf; subst.
    now apply span_digits_digits in S. }
  pose proof (digits_value_nonneg (ip ++ fp)
                ltac:(now rewrite forallb_app, Di, Df)) as Hv.
  unfold number_of_decimal.
  destruct (Z.eqb_spec (digits_value (ip ++ fp)) 0) as [E|E]; [now left|].
  destruct neg; [apply negate_wf|]; apply round_dec_wf; lia.
Qed.

Lemma obj_set_forall (P : value -> Prop) (k : str) (v : value) (o : object) :
  P v -> Forall (fun kv => P (snd kv)) o ->
  Forall (fun kv => P (snd kv)) (obj_set k v o).
Proof.
  intros Hv Ho. unfold obj_set. destruct (has_key k o).
  - induction Ho as [|[k' v'] o H' Ho IH]; simpl; [constructor|].
    destruct (str_eqb k' k); constructor; auto.
  - destruct (array_index k) as [i|].
    + induction Ho as [|[k' v'] o H' Ho IH]; simpl; [now repeat constructor|].
      destruct (array_index k') as [i'|]; [destruct (i <? i')%Z|];
        repeat constructor; auto.
    + apply Forall_app. split; [exact Ho|now repeat constructor].
Qed.

Lemma parse_wf (fuel : nat) :
  (forall s v r, parse_value fuel s = Some (v, r) -> wf_value v) /\
  (forall s vs r, parse_elements fuel s = Some (vs, r) -> Forall wf_value vs) /\
  (forall s acc v r, parse_members fuel s acc = Some (v, r) ->
     keys_ok (map fst acc) = true -> Forall (fun kv => wf_value (snd kv)) acc ->
     wf_value v).
Proof.
  induction fuel as [|f (IHv & IHe & IHm)].
  { repeat split; intros; discriminate. }
  split; [|split].
  - intros s v r H. cbn [parse_value] in H. unfold literal in H.
    break_match H; inversion H; subst;
      try (now repeat constructor);
      try (constructor; eapply parse_number_wf; eauto; fail);
      try (eapply IHm; eauto; constructor; fail);
      try (constructor; eapply IHe; eauto; fail).
  - intros s vs r H. cbn [parse_elements] in H.
    break_match H; inversion H; subst.
    + constructor; [eapply IHv; eauto|eapply IHe; eauto].
    + constructor; [eapply IHv; eauto|constructor].
  - intros s acc v r H Hk Ha. cbn [parse_members] in H.
    break_match H.
    + eapply IHm; [eassumption|now apply obj_set_ok|].
      apply obj_set_forall; [eapply IHv; eauto|exact Ha].
    + inversion H; subst. constructor; [now apply obj_set_ok|].
      apply obj_set_forall; [eapply IHv; eauto|exact Ha].
Qed.

Lemma JSON_parse_wf (t : str) (v : value) : JSON_parse t = Some v -> wf_value v.
Proof.
  unfold JSON_parse. intros H. break_match H. inversion H; subst.
  eapply (proj1 (parse_wf _)); eauto.
Qed.

(** ** [JSON.parse] after [JSON.stringify] *)

Lemma skip_ws_prefix (w s : str) :
  forallb is_json_ws w = true ->
  match s with [] => True | c :: _ => is_json_ws c = false end ->
  skip_ws (w ++ s) = s.
Proof.
  intros Hw Hs. induction w as [|a w IH]; cbn [app].
  - destruct s as [|c s]; [reflexivity|]. cbn [skip_ws]. now rewrite Hs.
  - cbn [forallb] in Hw. apply andb_prop in Hw as [Ha Hw].
    cbn [skip_ws]. rewrite Ha. now apply IH.
Qed.

Lemma skip_ws_id (s : str) :
  match s with [] => True | c :: _ => is_json_ws c = false end -> skip_ws s = s.
Proof. apply (skip_ws_prefix [] s). reflexivity. Qed.

Lemma delimited_ends_number (rest : str) :
  delimited rest = true -> ends_number rest = true.
Proof.
  destruct rest as [|c rest]; [trivial|]. cbn [delimited ends_number].
  intros H. apply orb_prop in H as [H|H]; apply N.eqb_eq in H; now subst.
Qed.

Lemma digit_opens_value (c : N) : is_digit c = true -> opens_value c = true.
Proof.
  unfold is_digit, opens_value, is_json_ws. intros H. units_to_prop.
  rewrite !negb_true_iff. units_to_prop. lia.
Qed.

Lemma number_to_string_head (m e : Z) :
  wf_number (Fin m e) ->
  exists c t, number_to_string (Fin m e) = c :: t /\ opens_value c = true /\
    (c =? 123) = false /\ (c =? 91) = false /\ (c =? 34) = false /\
    (c =? 116) = false /\ (c =? 102) = false /\ (c =? 110) = false.
Proof.
  intros W.
  assert (D : forall c, is_digit c = true ->
            opens_value c = true /\
            (c =? 123) = false /\ (c =? 91) = false /\ (c =? 34) = false /\
            (c =? 116) = false /\ (c =? 102) = false /\ (c =? 110) = false).
  { intros c H. split; [now apply digit_opens_value|].
    unfold is_digit in H. units_to_prop. lia. }
  assert (Pos : forall m e, representable m e ->
            exists c t, positive_to_string m e = c :: t /\ is_digit c = true).
  { intros m0 e0 R.
    destruct (positive_to_string_reads m0 e0 [] R eq_refl)
      as (s & j & _ & (ip & fp & ex & r1 & r2 & Hi & _)).
    rewrite app_nil_r in Hi. now apply parse_int_head in Hi. }
  destruct m as [|p|p]; cbn [wf_number Z.abs] in W.
  - exists 48, []. split; [reflexivity|]. now apply D.
  - destruct W as [[W _]|R]; [discriminate|].
    destruct (Pos _ _ R) as (c & t & E & Hc).
    exists c, t. split; [exact E|]. now apply D.
  - exists 45, (positive_to_string (Z.pos p) e). repeat split.
Qed.

(** A serialization starts with a unit that opens a value. *)
Lemma serialize_head (ind : str) (v : value) :
  wf_value v -> finite_value v = true ->
  exists c t, serialize ind v = c :: t /\ opens_value c = true.
Proof.
  intros W F. destruct v as [| [] | [m e|s] | s | [|v vs] | [|[k x] ms]];
    try (eexists; eexists; split; [reflexivity|reflexivity]).
  - inversion W; subst.
    destruct (number_to_string_head m e) as (c & t & E & H & _); auto.
    exists c, t. split; [|exact H]. destruct m; exact E.
Qed.

Lemma opens_value_not_ws (c : N) : opens_value c = true -> is_json_ws c = false.
Proof.
  unfold opens_value. intros H. repeat (apply andb_prop in H as [H _]).
  now apply negb_true_iff in H.
Qed.

Lemma opens_value_not_close (c : N) :
  opens_value c = true -> (c =? 93) = false /\ (c =? 125) = false.
Proof.
  unfold opens_value. intros H.
  apply andb_prop in H as [H _]. apply andb_prop in H as [H H2].
  apply andb_prop in H as [_ H1]. now rewrite negb_true_iff in *.
Qed.

Lemma serialize_array (ind : str) (v : value) (vs : list value) :
  serialize ind (JArr (v :: vs)) =
  91 :: LF :: (ind ++ gap)
    ++ join (44 :: LF :: ind ++ gap) (map (serialize (ind ++ gap)) (v :: vs))
    ++ LF :: ind ++ [93].
Proof. reflexivity. Qed.

Lemma serialize_object (ind : str) (kv : str * value) (ms : list (str * value)) :
  serialize ind (JObj (kv :: ms)) =
  123 :: LF :: (ind ++ gap)
    ++ join (44 :: LF :: ind ++ gap) (map (member_text (ind ++ gap)) (kv :: ms))
    ++ LF :: ind ++ [125].
Proof. reflexivity. Qed.

Lemma join_cons2 (sep x y : str) (l : list str) :
  join sep (x :: y :: l) = x ++ sep ++ join sep (y :: l).
Proof. reflexivity. Qed.

Lemma skip_ws_line (ind s : str) :
  forallb is_json_ws ind = true ->
  match s with [] => True | c :: _ => is_json_ws c = false end ->
  skip_ws (LF :: ind ++ s) = s.
Proof.
  intros Hi Hs. change (LF :: ind ++ s) with ((LF :: ind) ++ s).
  apply skip_ws_prefix; [|exact Hs]. cbn [forallb]. now rewrite Hi.
Qed.

Lemma elements_roundtrip (ind ind' rest : str) (vs : list value) :
  Forall reads_back vs -> Forall wf_value vs -> forallb finite_value vs = true ->
  vs <> [] ->
  forallb is_json_ws ind = true -> forallb is_json_ws ind' = true ->
  forall f,
    (2 * length (join (44%N :: LF :: ind') (map (serialize ind') vs)) + 1 <= f)%nat ->
    parse_elements f
      (join (44 :: LF :: ind') (map (serialize ind') vs) ++ LF :: ind ++ 93 :: rest)
    = Some (vs, rest).
Proof.
  intros HP HW HF Hne Hi Hi'.
  induction vs as [|v vs IH]; [contradiction|]. clear Hne.
  inversion HP as [|? ? Pv HP']; subst. inversion HW as [|? ? Wv HW']; subst.
  cbn [forallb] in HF. apply andb_prop in HF as [Fv HF'].
  intros f Hf. destruct f as [|f]; [lia|]. cbn [parse_elements].
  destruct vs as [|v2 vs].
  - cbn [map join] in *.
    rewrite (Pv Wv Fv ind' (LF :: ind ++ 93 :: rest) f Hi' eq_refl) by lia.
    rewrite skip_ws_line by (auto; reflexivity).
    reflexivity.
  - cbn [map] in *. rewrite join_cons2 in *. rewrite !length_app in Hf.
    cbn [length] in Hf.
    rewrite <- !app_assoc. cbn [app].
    rewrite (Pv Wv Fv ind' (44 :: _) f Hi' eq_refl) by lia.
    cbn [skip_ws]. change (is_json_ws 44) with false. cbn iota.
    change (44 =? 44) with true. cbn iota.
    destruct (serialize_head ind' v2) as (c & t & E & Hc);
      [now inversion HW'|now apply andb_prop in HF' as [? _]|].
    assert (Hs : skip_ws (LF :: ind' ++ join (44 :: LF :: ind')
                    (serialize ind' v2 :: map (serialize ind') vs)
                    ++ LF :: ind ++ 93 :: rest)
                 = join (44 :: LF :: ind')
                     (serialize ind' v2 :: map (serialize ind') vs)
                     ++ LF :: ind ++ 93 :: rest).
    { apply skip_ws_line; [exact Hi'|].
      destruct (map (serialize ind') vs); cbn [join]; rewrite E; cbn [app];
        now apply opens_value_not_ws. }
    rewrite Hs, IH; auto; [discriminate|lia].
Qed.

Lemma member_text_unfold (ind k : str) (v : value) (R : str) :
  member_text ind (k, v) ++ R =
  34 :: quote_units k ++ 34 :: 58 :: 32 :: serialize ind v ++ R.
Proof.
  unfold member_text, quote. cbn [fst snd app].
  rewrite <- !app_assoc. reflexivity.
Qed.

Lemma member_text_length (ind k : str) (v : value) :
  (length (serialize ind v) + 4 <= length (member_text ind (k, v)))%nat.
Proof.
  unfold member_text, quote. cbn [fst snd].
  rewrite !length_app. cbn [length]. rewrite length_app. cbn [length]. lia.
Qed.

Lemma skip_ws_value (ind : str) (v : value) (R : str) :
  wf_value v -> finite_value v = true ->
  skip_ws (serialize ind v ++ R) = serialize ind v ++ R.
Proof.
  intros W F. destruct (serialize_head ind v W F) as (c & t & E & Hc).
  rewrite E. cbn [app skip_ws]. now rewrite (opens_value_not_ws c Hc).
Qed.

Lemma members_roundtrip (ind ind' rest : str) (ms : list (str * value)) :
  Forall (fun kv => reads_back (snd kv)) ms ->
  Forall (fun kv => wf_value (snd kv)) ms ->
  forallb (fun kv => finite_value (snd kv)) ms = true ->
  ms <> [] ->
  forallb is_json_ws ind = true -> forallb is_json_ws ind' = true ->
  forall f acc,
    (2 * length (join (44%N :: LF :: ind') (map (member_text ind') ms)) + 1 <= f)%nat ->
    parse_members f
      (join (44 :: LF :: ind') (map (member_text ind') ms) ++ LF :: ind ++ 125 :: rest)
      acc
    = Some (JObj (set_all ms acc), rest).
Proof.
  intros HP HW HF Hne Hi Hi'.
  induction ms as [|[k v] ms IH]; [contradiction|]. clear Hne.
  inversion HP as [|? ? Pv HP']; subst. inversion HW as [|? ? Wv HW']; subst.
  cbn [forallb snd] in HF, Pv, Wv. apply andb_prop in HF as [Fv HF'].
  intros f acc Hf. destruct f as [|f]; [lia|].
  pose proof (member_text_length ind' k v) as Lm.
  destruct ms as [|kv2 ms].
  - cbn [map join] in *. rewrite member_text_unfold.
    cbn [parse_members]. change (34 =? 34) with true. cbn iota.
    rewrite quote_roundtrip.
    cbn [skip_ws]. change (is_json_ws 58) with false. cbn iota.
    change (58 =? 58) with true. cbn iota.
    change (skip_ws (32 :: serialize ind' v ++ LF :: ind ++ 125 :: rest))
      with (skip_ws (serialize ind' v ++ LF :: ind ++ 125 :: rest)).
    rewrite skip_ws_value by assumption.
    rewrite (Pv Wv Fv ind' (LF :: ind ++ 125 :: rest) f Hi' eq_refl) by lia.
    rewrite skip_ws_line by (auto; reflexivity).
    reflexivity.
  - cbn [map] in *. rewrite join_cons2 in *. rewrite !length_app in Hf.
    cbn [length] in Hf.
    rewrite <- !app_assoc. rewrite member_text_unfold.
    cbn [parse_members]. change (34 =? 34) with true. cbn iota.
    rewrite quote_roundtrip.
    cbn [skip_ws]. change (is_json_ws 58) with false. cbn iota.
    change (58 =? 58) with true. cbn iota.
    match goal with
    | |- context [skip_ws (32 :: ?x)] => change (skip_ws (32 :: x)) with (skip_ws x)
    end.
    rewrite skip_ws_value by assumption.
    cbn [app].
    rewrite (Pv Wv Fv ind' (44 :: _) f Hi' eq_refl) by lia.
    cbn [skip_ws]. change (is_json_ws 44) with false. cbn iota.
    change (44 =? 44) with true. cbn iota.
    destruct kv2 as [k2 v2].
    assert (Hs : skip_ws (LF :: ind' ++ join (44 :: LF :: ind')
                    (member_text ind' (k2, v2) :: map (member_text ind') ms)
                    ++ LF :: ind ++ 125 :: rest)
                 = join (44 :: LF :: ind')
                     (member_text ind' (k2, v2) :: map (member_text ind') ms)
                     ++ LF :: ind ++ 125 :: rest).
    { apply skip_ws_line; [exact Hi'|].
      destruct (map (member_text ind') ms); cbn [join];
        unfold member_text, quote; reflexivity. }
    rewrite Hs, IH; auto; [discriminate|lia].
Qed.

Lemma join_head (sep : str) (x : str) (l : list str) (c : N) (t : str) :
  x = c :: t -> exists t', join sep (x :: l) = c :: t'.
Proof. intros ->. destruct l; cbn [join app]; eauto. Qed.

(** Every well-formed value without infinities is read back from its
    serialization. *)
Lemma serialize_roundtrip (v : value) : reads_back v.
Proof.
  induction v as [| b | x | s | items IH | ms IH] using value_induction;
    intros W F ind rest f Hi Hr Hf.
  - destruct f as [|f]; [simpl in Hf; lia|]. reflexivity.
  - destruct f as [|f]; [destruct b; simpl in Hf; lia|]. now destruct b.
  - destruct x as [m e|sg]; [|discriminate F]. inversion W as [| |? Wx| | |]; subst.
    assert (E0 : serialize ind (JNum (Fin m e)) = number_to_string (Fin m e))
      by reflexivity.
    rewrite E0 in *.
    destruct (number_to_string_head m e Wx)
      as (c & t & E & _ & T1 & T2 & T3 & T4 & T5 & T6).
    destruct f as [|f]; [rewrite E in Hf; simpl in Hf; lia|].
    cbn [parse_value].
    assert (P : parse_number (number_to_string (Fin m e) ++ rest) = Some (Fin m e, rest))
      by (apply number_roundtrip; [exact Wx|now apply delimited_ends_number]).
    rewrite E in *. cbn [app] in *.
    now rewrite T1, T2, T3, T4, T5, T6, P.
  - destruct f as [|f]; [simpl in Hf; lia|].
    cbn [serialize]. unfold quote. cbn [app parse_value].
    change (34 =? 123) with false. change (34 =? 91) with false.
    change (34 =? 34) with true. cbn iota.
    rewrite <- app_assoc. cbn [app]. now rewrite quote_roundtrip.
  - destruct items as [|v vs].
    { destruct f as [|f]; [simpl in Hf; lia|]. reflexivity. }
    inversion W as [| | | |? Wi|]; subst. cbn [finite_value] in F.
    rewrite serialize_array in *.
    destruct f as [|f]; [simpl in Hf; lia|].
    assert (Hg : forallb is_json_ws (ind ++ gap) = true)
      by (now rewrite forallb_app, Hi).
    set (ind' := ind ++ gap) in *.
    destruct (serialize_head ind' v) as (c & t & E & Hc);
      [now inversion Wi|now apply andb_prop in F as [? _]|].
    destruct (join_head (44 :: LF :: ind') _
                (map (serialize ind') vs) c t E) as [t' Ej].
    cbn [app parse_value].
    change (91 =? 123) with false. change (91 =? 91) with true. cbn iota.
    repeat (rewrite <- !app_assoc; cbn [app]).
    cbn [map] in *.
    rewrite skip_ws_line
      by (auto; rewrite Ej; cbn [app]; now apply opens_value_not_ws).
    rewrite (elements_roundtrip ind ind' rest (v :: vs)); auto;
      try discriminate.
    + rewrite Ej. cbn [app].
      now rewrite (proj1 (opens_value_not_close c Hc)).
    + cbn [map]. cbn [length] in Hf. rewrite !length_app in Hf.
      cbn [length] in Hf. lia.
  - destruct ms as [|[k v] ms].
    { destruct f as [|f]; [simpl in Hf; lia|]. reflexivity. }
    inversion W as [| | | | |? Wk Wm]; subst. cbn [finite_value] in F.
    rewrite serialize_object in *.
    destruct f as [|f]; [simpl in Hf; lia|].
    assert (Hg : forallb is_json_ws (ind ++ gap) = true)
      by (now rewrite forallb_app, Hi).
    set (ind' := ind ++ gap) in *.
    destruct (join_head (44 :: LF :: ind') (member_text ind' (k, v))
                (map (member_text ind') ms) 34
                (quote_units k ++ [34] ++ 58 :: 32 :: serialize ind' v))
      as [t' Ej].
    { unfold member_text, quote. cbn [fst snd app]. now rewrite <- app_assoc. }
    cbn [app parse_value].
    change (123 =? 123) with true. cbn iota.
    repeat (rewrite <- !app_assoc; cbn [app]).
    cbn [map] in *.
    rewrite skip_ws_line by (auto; rewrite Ej; reflexivity).
    rewrite (members_roundtrip ind ind' rest ((k, v) :: ms)); auto;
      try discriminate.
    + rewrite Ej. cbn [app]. change (34 =? 125) with false. cbn iota.
      rewrite set_all_ordered by exact Wk. reflexivity.
    + cbn [map]. cbn [length] in Hf. rewrite !length_app in Hf.
      cbn [length] in Hf. lia.
Qed.

Lemma JSON_parse_stringify (v : value) :
  wf_value v -> finite_value v = true -> JSON_parse (JSON_stringify v) = Some v.
Proof.
  intros W F. unfold JSON_parse, JSON_stringify.
  pose proof (skip_ws_value [] v [] W F) as S. rewrite app_nil_r in S. rewrite S.
  pose proof (serialize_roundtrip v W F [] [] (2 * length (serialize [] v) + 2)%nat
                eq_refl eq_refl ltac:(lia)) as P.
  rewrite app_nil_r in P. now rewrite P.
Qed.

Lemma parseJsonFlexible_strict (t : str) (v : value) :
  JSON_parse t = Some v -> v <> JNull -> parseJsonFlexible t = v.
Proof.
  intros H Hv. unfold parseJsonFlexible, parseJsonSafely. rewrite H.
  now destruct v.
Qed.

(** A result of the normalizer other than [null] was decoded from some
    text. *)
Lemma parseJsonFlexible_decoded (t : str) :
  parseJsonFlexible t <> JNull ->
  exists t', JSON_parse t' = Some (parseJsonFlexible t).
Proof.
  unfold parseJsonFlexible, parseJsonSafely. intros H.
  destruct (JSON_parse t) as [v|] eqn:E.
  - destruct v; try (exists t; exact E).
    destruct (JSON_parse (rewrite_stages t)) as [v'|] eqn:E';
      [now exists (rewrite_stages t)|contradiction].
  - destruct (JSON_parse (rewrite_stages t)) as [v'|] eqn:E';
      [now exists (rewrite_stages t)|contradiction].
Qed.

(** C7 (amended).  The normalizer is idempotent on its own successful
    output when no Number of the output is an infinity: for every text [t]
    with a result [v] other than [null] and without infinities, the
    two-space serialization of [v] is valid JSON that decodes to [v], so
    normalizing it yields [v] again. *)
Theorem parseJsonFlexible_idempotent (t : str) :
  parseJsonFlexible t <> JNull ->
  finite_value (parseJsonFlexible t) = true ->
  JSON_parse (JSON_stringify (parseJsonFlexible t)) = Some (parseJsonFlexible t) /\
  parseJsonFlexible (JSON_stringify (parseJsonFlexible t)) = parseJsonFlexible t.
Proof.
  intros Hn Hf.
  destruct (parseJsonFlexible_decoded t Hn) as [t' Ht'].
  pose proof (JSON_parse_stringify _ (JSON_parse_wf _ _ Ht') Hf) as R.
  split; [exact R|]. now apply parseJsonFlexible_strict.
Qed.

Lemma parseJsonFlexible_idempotent_witness :
  JSON_parse (JSON_stringify (parseJsonFlexible (txt "{'a': [1.5e3, `x\n`, -0.1], b: undefined, /* c */ `10`: {},}")))
  = Some (parseJsonFlexible (txt "{'a': [1.5e3, `x\n`, -0.1], b: undefined, /* c */ `10`: {},}")) /\
  parseJsonFlexible
    (JSON_stringify (parseJsonFlexible (txt "{'a': [1.5e3, `x\n`, -0.1], b: undefined, /* c */ `10`: {},}")))
  = parseJsonFlexible (txt "{'a': [1.5e3, `x\n`, -0.1], b: undefined, /* c */ `10`: {},}").
Proof.
  apply (parseJsonFlexible_idempotent
           (txt "{'a': [1.5e3, `x\n`, -0.1], b: undefined, /* c */ `10`: {},}")).
  - vm_compute. intros H. discriminate H.
  - vm_compute. reflexivity.
Defined.

(** C7 as stated fails when a number literal is beyond the binary64 range:
    it decodes to an infinity, which is written [null]. *)
Lemma parseJsonFlexible_not_idempotent_on_overflow :
  parseJsonFlexible (txt "1e999") = JNum (Inf false) /\
  JSON_stringify (parseJsonFlexible (txt "1e999")) = txt "null" /\
  parseJsonFlexible (JSON_stringify (parseJsonFlexible (txt "1e999"))) = JNull /\
  parseJsonFlexible (txt "[1e999]") = JArr [JNum (Inf false)] /\
  parseJsonFlexible (JSON_stringify (parseJsonFlexible (txt "[1e999]"))) = JArr [JNull].
Proof. repeat split; vm_compute; reflexivity. Qed.

(** ** The fuel of the decoder

    Whatever the recursive descent reads with some fuel it reads with twice
    the number of units it consumes, so [JSON_parse] never fails for want of
    fuel. *)

Lemma skip_ws_length (s : str) : (length (skip_ws s) <= length s)%nat.
Proof.
  induction s as [|c s IH]; simpl; [lia|].
  destruct (is_json_ws c); simpl; lia.
Qed.

Lemma parse_chars_length (s x r : str) :
  parse_chars s = Some (x, r) -> (length r < length s)%nat.
Proof.
  remember (length s) as n eqn:Hn. revert s x r Hn.
  induction n as [n IH] using lt_wf_ind. intros s x r Hn H.
  assert (P : forall c t, (length t < n)%nat ->
              push c (parse_chars t) = Some (x, r) -> (length r < n)%nat).
  { intros c t Ht Hp. destruct (parse_chars t) as [[x' r']|] eqn:E; [|discriminate].
    inversion Hp; subst. specialize (IH _ Ht t x' r eq_refl E). lia. }
  destruct s as [|c s]; [discriminate|]. cbn [parse_chars] in H. simpl in Hn.
  destruct (c =? 34); [inversion H; subst; lia|].
  destruct (c =? 92).
  - destruct s as [|d s]; [discriminate|]. simpl in Hn.
    destruct (d =? 117).
    + destruct s as [|h1 [|h2 [|h3 [|h4 s]]]]; try discriminate.
      destruct (hex4 h1 h2 h3 h4) as [u|]; [|discriminate].
      simpl in Hn. apply (P u s) in H; lia.
    + destruct (unescape d) as [u|]; [|discriminate].
      apply (P u s) in H; lia.
  - destruct (c <? 32); [discriminate|].
    apply (P c s) in H; lia.
Qed.

Lemma span_digits_length (s ds r : str) :
  span_digits s = (ds, r) -> length s = (length ds + length r)%nat.
Proof.
  revert ds r. induction s as [|c s IH]; intros ds r H; simpl in H.
  - now inversion H.
  - destruct (is_digit c).
    + destruct (span_digits s) as [ds' r']. inversion H; subst.
      simpl. now rewrite (IH ds' r).
    + now inversion H.
Qed.

Lemma parse_number_length (s : str) (x : number) (r : str) :
  parse_number s = Some (x, r) -> (length r < length s)%nat.
Proof.
  unfold parse_number. destruct (parse_sign s) as [neg s1] eqn:Hs.
  destruct (parse_int s1) as [[ip s2]|] eqn:Hi; [|discriminate].
  destruct (parse_frac s2) as [[fp s3]|] eqn:Hf; [|discriminate].
  destruct (parse_exp s3) as [[ex s4]|] eqn:He; [|discriminate].
  intros H. inversion H; subst x r. clear H.
  assert (L1 : (length s1 <= length s)%nat).
  { unfold parse_sign in Hs. destruct s as [|c s]; [inversion Hs; simpl; lia|].
    destruct (c =? 45); inversion Hs; simpl; lia. }
  assert (L2 : (length s2 < length s1)%nat).
  { destruct s1 as [|c s1]; [discriminate|]. cbn [parse_int] in Hi.
    destruct (c =? 48); [inversion Hi; simpl; lia|].
    destruct (is_digit c) eqn:D; [|discriminate].
    assert (S : span_digits (c :: s1) = (ip, s2)) by congruence.
    pose proof (span_digits_length _ _ _ S) as L.
    destruct ip; [simpl in S; rewrite D in S;
                  destruct (span_digits s1); discriminate|].
    simpl in L. simpl. lia. }
  assert (L3 : (length s3 <= length s2)%nat).
  { destruct s2 as [|c s2]; [inversion Hf; simpl; lia|]. cbn [parse_frac] in Hf.
    destruct (c =? 46); [|inversion Hf; simpl; lia].
    destruct (span_digits s2) as [ds r'] eqn:S.
    pose proof (span_digits_length _ _ _ S) as L.
    destruct ds; [discriminate|].
    assert (r' = s3) by congruence. subst r'. simpl. lia. }
  assert (L4 : (length s4 <= length s3)%nat).
  { destruct s3 as [|c s3]; [inversion He; simpl; lia|]. cbn [parse_exp] in He.
    destruct ((c =? 101) || (c =? 69)); [|inversion He; simpl; lia].
    destruct s3 as [|d t].
    - simpl in He. discriminate.
    - destruct (d =? 43); [|destruct (d =? 45)];
        destruct (span_digits _) as [ds r'] eqn:S;
        pose proof (span_digits_length _ _ _ S) as L;
        (destruct ds; [discriminate|]);
        (assert (r' = s4) by congruence); subst r'; simpl in *; lia. }
  lia.
Qed.

Lemma literal_length (p : string) (w v : value) (s r : str) :
  p <> EmptyString -> literal p w s = Some (v, r) -> (length r < length s)%nat.
Proof.
  unfold literal. intros Hp H.
  destruct (strip_prefix (txt p) s) as [r'|] eqn:E; [|discriminate].
  assert (r' = r) by congruence. subst r'.
  apply strip_prefix_spec in E. subst s. rewrite length_app.
  destruct p; [congruence|]. unfold txt. simpl. lia.
Qed.

Ltac refuel Hg :=
  let g := fresh "g" in
  intros [|g] Hg; cbn [length] in Hg; [lia|].

Lemma parse_fuel (f : nat) :
  (forall s v r, parse_value f s = Some (v, r) ->
     (length r < length s)%nat /\
     forall g, (2 * (length s - length r) <= g)%nat ->
               parse_value g s = Some (v, r)) /\
  (forall s vs r, parse_elements f s = Some (vs, r) ->
     (length r < length s)%nat /\
     forall g, (2 * (length s - length r) <= g)%nat ->
               parse_elements g s = Some (vs, r)) /\
  (forall s acc v r, parse_members f s acc = Some (v, r) ->
     (length r < length s)%nat /\
     forall g, (2 * (length s - length r) <= g)%nat ->
               parse_members g s acc = Some (v, r)).
Proof.
  induction f as [|f [IHv [IHe IHm]]]; [repeat split; discriminate|].
  split; [|split].
  - intros s v r H. destruct s as [|c s']; [discriminate|].
    cbn [parse_value] in H.
    pose proof (skip_ws_length s') as Lw.
    destruct (c =? 123) eqn:E1.
    { destruct (skip_ws s') as [|d s2] eqn:W; [discriminate|]. simpl in Lw.
      destruct (d =? 125) eqn:E2.
      - assert (s2 = r) by congruence. subst s2.
        split; [simpl; lia|]. refuel Hg.
        cbn [parse_value]. rewrite E1, W, E2. exact H.
      - apply IHm in H. destruct H as [L K]. simpl in L.
        split; [simpl; lia|]. refuel Hg.
        cbn [parse_value]. rewrite E1, W, E2. apply K. cbn [length] in *. lia. }
    destruct (c =? 91) eqn:E3.
    { destruct (skip_ws s') as [|d s2] eqn:W; [discriminate|]. simpl in Lw.
      destruct (d =? 93) eqn:E2.
      - assert (s2 = r) by congruence. subst s2.
        split; [simpl; lia|]. refuel Hg.
        cbn [parse_value]. rewrite E1, E3, W, E2. exact H.
      - destruct (parse_elements f (d :: s2)) as [[vs r0]|] eqn:P; [|discriminate].
        assert (r0 = r) by congruence. subst r0.
        apply IHe in P. destruct P as [L K]. simpl in L.
        split; [simpl; lia|]. refuel Hg.
        cbn [parse_value]. rewrite E1, E3, W, E2, K; [exact H|].
        cbn [length] in *. lia. }
    destruct (c =? 34) eqn:E4.
    { destruct (parse_chars s') as [[x r0]|] eqn:P; [|discriminate].
      assert (r0 = r) by congruence. subst r0.
      pose proof (parse_chars_length _ _ _ P) as L.
      split; [simpl; lia|]. refuel Hg.
      cbn [parse_value]. rewrite E1, E3, E4, P. exact H. }
    destruct (c =? 116) eqn:E5.
    { assert (L : (length r < length (c :: s'))%nat)
        by (eapply literal_length; [|exact H]; discriminate).
      split; [exact L|]. cbn [length] in L. refuel Hg. cbn [parse_value]. rewrite E1, E3, E4, E5. exact H. }
    destruct (c =? 102) eqn:E6.
    { assert (L : (length r < length (c :: s'))%nat)
        by (eapply literal_length; [|exact H]; discriminate).
      split; [exact L|]. cbn [length] in L. refuel Hg. cbn [parse_value]. rewrite E1, E3, E4, E5, E6. exact H. }
    destruct (c =? 110) eqn:E7.
    { assert (L : (length r < length (c :: s'))%nat)
        by (eapply literal_length; [|exact H]; discriminate).
      split; [exact L|]. cbn [length] in L. refuel Hg. cbn [parse_value]. rewrite E1, E3, E4, E5, E6, E7. exact H. }
    destruct (parse_number (c :: s')) as [[x r0]|] eqn:P; [|discriminate].
    assert (r0 = r) by congruence. subst r0.
    pose proof (parse_number_length _ _ _ P) as L.
    split; [exact L|]. cbn [length] in L. refuel Hg.
    cbn [parse_value]. rewrite E1, E3, E4, E5, E6, E7, P. exact H.
  - intros s vs r H. cbn [parse_elements] in H.
    destruct (parse_value f s) as [[v r0]|] eqn:P; [|discriminate].
    apply IHv in P. destruct P as [L K].
    pose proof (skip_ws_length r0) as Lw.
    destruct (skip_ws r0) as [|c r'] eqn:W; [discriminate|]. simpl in Lw.
    destruct (c =? 44) eqn:E1.
    + destruct (parse_elements f (skip_ws r')) as [[vs' r'']|] eqn:Q; [|discriminate].
      assert (r'' = r) by congruence. subst r''.
      apply IHe in Q. destruct Q as [L' K'].
      pose proof (skip_ws_length r') as Lw'.
      split; [lia|]. refuel Hg.
      cbn [parse_elements]. rewrite K by lia. rewrite W, E1, K' by lia. exact H.
    + destruct (c =? 93) eqn:E2; [|discriminate].
      assert (r' = r) by congruence. subst r'.
      split; [lia|]. refuel Hg.
      cbn [parse_elements]. rewrite K by lia. rewrite W, E1, E2. exact H.
  - intros s acc v r H. destruct s as [|c s1]; [discriminate|].
    cbn [parse_members] in H.
    destruct (c =? 34) eqn:E1; [|discriminate].
    destruct (parse_chars s1) as [[k r0]|] eqn:P; [|discriminate].
    pose proof (parse_chars_length _ _ _ P) as L0.
    pose proof (skip_ws_length r0) as Lw0.
    destruct (skip_ws r0) as [|d r1] eqn:W0; [discriminate|]. simpl in Lw0.
    destruct (d =? 58) eqn:E2; [|discriminate].
    pose proof (skip_ws_length r1) as Lw1.
    destruct (parse_value f (skip_ws r1)) as [[w r2]|] eqn:Q; [|discriminate].
    apply IHv in Q. destruct Q as [L K].
    pose proof (skip_ws_length r2) as Lw2.
    destruct (skip_ws r2) as [|e r3] eqn:W2; [discriminate|]. simpl in Lw2.
    pose proof (skip_ws_length r3) as Lw3.
    destruct (e =? 44) eqn:E3.
    + apply IHm in H. destruct H as [L' K'].
      split; [simpl; lia|]. refuel Hg.
      cbn [parse_members]. rewrite E1, P, W0, E2, K by (cbn [length] in *; lia).
      rewrite W2, E3. apply K'. cbn [length] in *. lia.
    + destruct (e =? 125) eqn:E4; [|discriminate].
      assert (r3 = r) by congruence. subst r3.
      split; [simpl; lia|]. refuel Hg.
      cbn [parse_members]. rewrite E1, P, W0, E2, K by (cbn [length] in *; lia).
      rewrite W2, E3, E4. exact H.
Qed.

(** [JSON_parse] gives what the recursive descent gives with any amount of
    fuel: its [None] is a syntax error, never exhaustion. *)
Lemma JSON_parse_fuel (t : str) (f : nat) (v : value) (r : str) :
  parse_value f (skip_ws t) = Some (v, r) ->
  parse_value (2 * length t + 2) (skip_ws t) = Some (v, r).
Proof.
  intros H. apply (proj1 (parse_fuel f)) in H. destruct H as [_ K].
  apply K. pose proof (skip_ws_length t). lia.
Qed.

(** * The rest of the component *)

(** ** [trim] *)

Lemma drop_space_fixed (s : str) :
  match s with [] => True | c :: _ => is_space c = false end ->
  drop_space s = s.
Proof. destruct s as [|c s]; simpl; [reflexivity|]. now intros ->. Qed.

Lemma drop_space_head (s : str) :
  match drop_space s with [] => True | c :: _ => is_space c = false end.
Proof.
  induction s as [|c s IH]; simpl; [exact I|].
  destruct (is_space c) eqn:E; [exact IH|exact E].
Qed.

Lemma drop_space_suffix (s : str) : exists pre, s = pre ++ drop_space s.
Proof.
  induction s as [|c s [pre IH]]; simpl.
  - now exists [].
  - destruct (is_space c).
    + exists (c :: pre). simpl. now f_equal.
    + now exists [].
Qed.

(** A text that starts without white space still does after the white space
    of its end is dropped. *)
Lemma trim_end_head (u : str) :
  match u with [] => True | c :: _ => is_space c = false end ->
  match rev (drop_space (rev u)) with [] => True | c :: _ => is_space c = false end.
Proof.
  intros H. destruct (drop_space_suffix (rev u)) as [pre E].
  assert (U : u = rev (drop_space (rev u)) ++ rev pre).
  { rewrite <- rev_app_distr, <- E. symmetry. apply rev_involutive. }
  destruct (rev (drop_space (rev u))) as [|c r]; [exact I|].
  rewrite U in H. exact H.
Qed.

Lemma trim_idempotent (s : str) : trim (trim s) = trim s.
Proof.
  unfold trim.
  rewrite (drop_space_fixed (rev (drop_space (rev (drop_space s)))))
    by apply trim_end_head, drop_space_head.
  rewrite rev_involutive.
  now rewrite (drop_space_fixed _ (drop_space_head (rev (drop_space s)))).
Qed.

(** ** The authorization header *)

(** X1.  [buildAuthHeaders] sends nothing for an empty token and exactly one
    header otherwise; the value of that header ends with the token as it was
    given, and its name carries no white space around it. *)
Theorem buildAuthHeaders_one_header (ty : token_type) (tok name prefix : str) :
  length (buildAuthHeaders ty tok name prefix) = (if is_empty tok then 0 else 1)%nat /\
  forall h v, In (h, v) (buildAuthHeaders ty tok name prefix) ->
    (exists pre, v = pre ++ tok) /\ trim h = h /\
    (ty <> CustomHeader -> h = txt "Authorization" \/ h = txt "X-API-Key").
Proof.
  destruct tok as [|t tok]; [split; [reflexivity|intros h v []]|].
  destruct ty; (split; [reflexivity|]); intros h v [E|[]];
    inversion E; subst h v; clear E.
  - split; [now exists (txt "Bearer ")|]. split; [reflexivity|auto].
  - split; [now exists []|]. split; [reflexivity|auto].
  - split; [now exists (txt "Refresh ")|]. split; [reflexivity|auto].
  - split; [now exists (txt "Basic ")|]. split; [reflexivity|auto].
  - split; [|split; [apply trim_idempotent|congruence]].
    destruct prefix as [|p prefix]; [now exists []|].
    exists (trim (p :: prefix) ++ [32]). now rewrite <- app_assoc.
Qed.

(** ** The size of a response *)

(** X2.  The size shown for a response is its length in UTF-8: at least the
    number of its code units, at most three times that number, and exactly
    that number for a text of ASCII. *)
Theorem utf8_size_bounds (s : str) :
  (length s <= utf8_size s <= 3 * length s)%nat /\
  (forallb (fun c => c <? 128) s = true -> utf8_size s = length s).
Proof.
  split.
  - remember (length s) as n eqn:Hn. revert s Hn.
    induction n as [n IH] using lt_wf_ind. intros s Hn.
    destruct s as [|c s]; [simpl in *; lia|].
    cbn [utf8_size]. simpl in Hn.
    pose proof (IH (length s) ltac:(lia) s eq_refl) as I1.
    destruct (c <? 128); [lia|]. destruct (c <? 2048); [lia|].
    destruct (is_lead c); [|lia].
    destruct s as [|d s]; [simpl in *; lia|].
    destruct (is_trail d); [|lia].
    simpl in Hn. pose proof (IH (length s) ltac:(lia) s eq_refl) as I2.
    simpl in *. lia.
  - induction s as [|c s IH]; [reflexivity|].
    cbn [forallb utf8_size]. intros H. apply andb_prop in H as [H1 H2].
    rewrite H1. simpl. now rewrite IH.
Qed.

(** ** The paste overlay *)

Lemma trim_nil_of_empty (t : str) : is_empty t = true -> trim t = [].
Proof. destruct t; [reflexivity|discriminate]. Qed.

(** X3.  Opening the paste overlay leaves the document alone and puts the
    trimmed text of the clipboard in the buffer (nothing when the clipboard
    is refused, empty or blank), so the buffer is its own trimmed form and
    [applyPastedJson] decodes exactly the text the overlay shows; with an
    empty buffer it only answers that there is nothing to paste. *)
Theorem openPasteOverlay_buffer_is_trimmed (clip : clipboard) (st : state) :
  isPasteOverlayOpen (openPasteOverlayAndMaybeReadClipboard clip st) = true /\
  rawJson (openPasteOverlayAndMaybeReadClipboard clip st) = rawJson st /\
  toast (openPasteOverlayAndMaybeReadClipboard clip st) = toast st /\
  pasteBuffer (openPasteOverlayAndMaybeReadClipboard clip st) =
    match clip with ClipboardText t => trim t | ClipboardDenied => [] end /\
  trim (pasteBuffer (openPasteOverlayAndMaybeReadClipboard clip st)) =
    pasteBuffer (openPasteOverlayAndMaybeReadClipboard clip st) /\
  (pasteBuffer (openPasteOverlayAndMaybeReadClipboard clip st) = [] ->
   applyPastedJson (openPasteOverlayAndMaybeReadClipboard clip st) =
   mkstate (rawJson st) (Some (txt "Nothing to paste")) true []).
Proof.
  assert (B : pasteBuffer (openPasteOverlayAndMaybeReadClipboard clip st) =
              match clip with ClipboardText t => trim t | ClipboardDenied => [] end).
  { destruct clip as [t|]; [|reflexivity]. unfold openPasteOverlayAndMaybeReadClipboard.
    destruct (is_empty t) eqn:E1; simpl.
    - now rewrite (trim_nil_of_empty t E1).
    - destruct (trim t); reflexivity. }
  assert (O : isPasteOverlayOpen (openPasteOverlayAndMaybeReadClipboard clip st) = true
              /\ rawJson (openPasteOverlayAndMaybeReadClipboard clip st) = rawJson st
              /\ toast (openPasteOverlayAndMaybeReadClipboard clip st) = toast st).
  { destruct clip as [t|]; [|now repeat split].
    unfold openPasteOverlayAndMaybeReadClipboard.
    destruct (negb (is_empty t) && negb (is_empty (trim t))); now repeat split. }
  destruct O as [O1 [O2 O3]].
  split; [exact O1|]. split; [exact O2|]. split; [exact O3|]. split; [exact B|].
  split.
  - rewrite B. destruct clip; [apply trim_idempotent|reflexivity].
  - intros E. unfold applyPastedJson. rewrite E. simpl. now rewrite O1, O2.
Qed.

Lemma parseJsonFlexible_empty : parseJsonFlexible [] = JNull.
Proof. reflexivity. Qed.

Lemma extractPaths_falsy (v : value) (base : str) :
  truthy v = false -> extractPaths v base = [].
Proof. destruct v; try reflexivity; discriminate. Qed.

Lemma parseJsonFlexible_wf (t : str) : wf_value (parseJsonFlexible t).
Proof.
  destruct (parseJsonFlexible t) eqn:E;
    [constructor|constructor| |constructor| | ];
    (destruct (parseJsonFlexible_decoded t) as [t' D];
     [rewrite E; discriminate|rewrite E in D; apply (JSON_parse_wf _ _ D)]).
Qed.

(** What [applyPastedJson] does with a buffer that decodes. *)
Lemma applyPastedJson_accepts (st : state) :
  parseJsonFlexible (trim (pasteBuffer st)) <> JNull ->
  applyPastedJson st =
  mkstate (JSON_stringify (parseJsonFlexible (trim (pasteBuffer st))))
    (Some (txt "Pasted JSON")) false (pasteBuffer st).
Proof.
  intros H. unfold applyPastedJson.
  destruct (trim (pasteBuffer st)) as [|c t] eqn:E; [now contradiction H|].
  destruct (parseJsonFlexible (c :: t)); try reflexivity. now contradiction H.
Qed.

(** ** [onFetch] *)

Ltac run_handler :=
  unfold onFetch, try_catch_finally, onFetch_try, then_, when, throw_error, throw,
    update, done, domainInvalid, endpointInvalid, composedUrl.

(** [onFetch], outcome by outcome. *)
Lemma onFetch_outcomes (valid : str -> bool) (net : str -> headers -> fetch_outcome)
  (a : component) :
  onFetch valid net a =
  if is_empty (domain a) then
    settled a None None None (Some (txt "Domain is required")) (rawJson (view a))
  else if negb (valid (domain a)) then
    settled a None None None (Some (txt "Invalid domain URL")) (rawJson (view a))
  else if negb (is_empty (endpoint a)) && negb (isValidEndpointPath (endpoint a)) then
    settled a None None None (Some (txt "Endpoint must start with /")) (rawJson (view a))
  else
    match net (domain a ++ endpoint a)
            (buildAuthHeaders (tokenType a) (tokenText a) (customHeaderName a)
               (customPrefix a)) with
    | FetchFails e =>
        settled a None None None (Some (error_message e)) (rawJson (view a))
    | Responds elapsed status body =>
        if negb (response_ok status) then
          settled a (Some (Z.max 0 elapsed)) (Some status) None
            (Some (status_message status)) (rawJson (view a))
        else
          match body with
          | BodyFails e =>
              settled a (Some (Z.max 0 elapsed)) (Some status) None
                (Some (error_message e)) (rawJson (view a))
          | BodyText text =>
              match JSON_parse text with
              | None | Some JNull =>
                  settled a (Some (Z.max 0 elapsed)) (Some status)
                    (Some (utf8_size text)) (Some (txt "Response is not JSON"))
                    (rawJson (view a))
              | Some v =>
                  settled a (Some (Z.max 0 elapsed)) (Some status)
                    (Some (utf8_size text)) None (JSON_stringify v)
              end
          end
    end.
Proof.
  destruct a as [d e t ty n p st l er sc ps sa rt rs [rj to op pb]].
  run_handler. cbn [domain endpoint view rawJson].
  destruct (is_empty d) eqn:D; [reflexivity|].
  destruct (valid d) eqn:V; cbn [negb]; [|reflexivity].
  destruct (is_empty e) eqn:E; cbn [negb andb];
    [|destruct (isValidEndpointPath e); cbn [negb]; [|reflexivity]];
    (destruct (net _ _) as [x|elapsed status body]; [reflexivity|];
     unfold status_message;
     destruct (response_ok status); cbn [negb];
     [|destruct (status =? 401)%nat; reflexivity];
     destruct body as [text|x]; [|reflexivity];
     unfold parseJsonSafely;
     destruct (JSON_parse text) as [[]|]; reflexivity).
Qed.

Lemma is_empty_true (s : str) : is_empty s = true <-> s = [].
Proof. destruct s; split; intros H; try reflexivity; discriminate. Qed.

Lemma is_empty_false (s : str) : is_empty s = false <-> s <> [].
Proof. destruct s; split; intros H; try reflexivity; try discriminate. now contradiction H. Qed.

(** X5.  [onFetch] asks the network nothing when the domain is empty, when
    the domain is not a valid URL, or when the endpoint is given and does not
    start with a slash: whatever the network would answer, the result is the
    same; the document stays, no status, time or size is recorded, and the
    error is the message of the first check that fails, in that order. *)
Theorem onFetch_checks_before_request (valid : str -> bool)
  (net net' : str -> headers -> fetch_outcome) (a : component) :
  domain a = [] \/ valid (domain a) = false \/
  (endpoint a <> [] /\ isValidEndpointPath (endpoint a) = false) ->
  onFetch valid net a = onFetch valid net' a /\
  rawJson (view (onFetch valid net a)) = rawJson (view a) /\
  statusCode (onFetch valid net a) = None /\
  responseTimeMs (onFetch valid net a) = None /\
  responseSizeBytes (onFetch valid net a) = None /\
  isLoading (onFetch valid net a) = false /\
  error (onFetch valid net a) =
    Some (if is_empty (domain a) then txt "Domain is required"
          else if valid (domain a) then txt "Endpoint must start with /"
          else txt "Invalid domain URL").
Proof.
  intros H. rewrite !onFetch_outcomes.
  destruct (is_empty (domain a)) eqn:D; [now repeat split|].
  destruct (valid (domain a)) eqn:V; cbn [negb]; [|now repeat split].
  destruct H as [H|[H|[H1 H2]]];
    [apply is_empty_false in D; contradiction|discriminate|].
  apply is_empty_false in H1. rewrite H1, H2. now repeat split.
Qed.

Lemma onFetch_checks_before_request_witness :
  onFetch (fun _ => true) (fun _ _ => FetchFails NotAnError) refused_request =
  onFetch (fun _ => true) (fun _ _ => Responds 12 200 (BodyText (txt "[1]")))
    refused_request /\
  rawJson (view (onFetch (fun _ => true) (fun _ _ => FetchFails NotAnError)
                   refused_request)) = rawJson (view refused_request) /\
  statusCode (onFetch (fun _ => true) (fun _ _ => FetchFails NotAnError)
                refused_request) = None /\
  responseTimeMs (onFetch (fun _ => true) (fun _ _ => FetchFails NotAnError)
                    refused_request) = None /\
  responseSizeBytes (onFetch (fun _ => true) (fun _ _ => FetchFails NotAnError)
                       refused_request) = None /\
  isLoading (onFetch (fun _ => true) (fun _ _ => FetchFails NotAnError)
               refused_request) = false /\
  error (onFetch (fun _ => true) (fun _ _ => FetchFails NotAnError) refused_request) =
    Some (if is_empty (domain refused_request) then txt "Domain is required"
          else if (fun _ : str => true) (domain refused_request)
               then txt "Endpoint must start with /"
               else txt "Invalid domain URL").
Proof.
  apply (onFetch_checks_before_request (fun _ => true)
           (fun _ _ => FetchFails NotAnError)
           (fun _ _ => Responds 12 200 (BodyText (txt "[1]"))) refused_request).
  right. right. split; [discriminate|reflexivity].
Defined.

(** X6.  Whatever the checks and the network give, [onFetch] ends with the
    loading flag down and leaves the cells of the request and of the paste
    overlay as they were; when it ends with an error the document is the one
    it started with, and when it ends without one a status, a time that is
    not negative and a size have been recorded. *)
Theorem onFetch_failure_keeps_document (valid : str -> bool)
  (net : str -> headers -> fetch_outcome) (a : component) :
  isLoading (onFetch valid net a) = false /\
  (domain (onFetch valid net a) = domain a /\
   endpoint (onFetch valid net a) = endpoint a /\
   tokenText (onFetch valid net a) = tokenText a /\
   tokenType (onFetch valid net a) = tokenType a /\
   customHeaderName (onFetch valid net a) = customHeaderName a /\
   customPrefix (onFetch valid net a) = customPrefix a /\
   pathSearch (onFetch valid net a) = pathSearch a) /\
  (toast (view (onFetch valid net a)) = toast (view a) /\
   isPasteOverlayOpen (view (onFetch valid net a)) = isPasteOverlayOpen (view a) /\
   pasteBuffer (view (onFetch valid net a)) = pasteBuffer (view a)) /\
  (error (onFetch valid net a) <> None ->
   rawJson (view (onFetch valid net a)) = rawJson (view a)) /\
  (error (onFetch valid net a) = None ->
   (exists s, statusCode (onFetch valid net a) = Some s /\ response_ok s = true) /\
   (exists t, responseTimeMs (onFetch valid net a) = Some t /\ (0 <= t)%Z) /\
   responseSizeBytes (onFetch valid net a) <> None).
Proof.
  rewrite onFetch_outcomes.
  destruct (is_empty (domain a));
    [repeat split; try reflexivity; discriminate|].
  destruct (negb (valid (domain a)));
    [repeat split; try reflexivity; discriminate|].
  destruct (negb (is_empty (endpoint a)) && negb (isValidEndpointPath (endpoint a)));
    [repeat split; try reflexivity; discriminate|].
  destruct (net _ _) as [x|elapsed status body];
    [repeat split; try reflexivity; discriminate|].
  destruct (response_ok status) eqn:K; cbn [negb];
    [|repeat split; try reflexivity; discriminate].
  destruct body as [text|x]; [|repeat split; try reflexivity; discriminate].
  destruct (JSON_parse text) as [[]|];
    try (repeat split; try reflexivity; discriminate);
    (split; [reflexivity|]; split; [now repeat split|]; split; [now repeat split|];
     split; [intros C; now contradiction C|]; intros _;
     split; [exists status; now split|];
     split; [exists (Z.max 0 elapsed); split; [reflexivity|lia]|discriminate]).
Qed.

(** X7.  [onFetch] ends without an error exactly when the checks pass, the
    network answers with a status from 200 to 299, the body is read, and the
    body is strict JSON for a value other than [null].  Then the document is
    the two-space serialization of that value, the status, the time and the
    size in UTF-8 are recorded, and (no number being an infinity) the document
    decodes back to the value. *)
Theorem onFetch_succeeds_iff (valid : str -> bool)
  (net : str -> headers -> fetch_outcome) (a : component) :
  error (onFetch valid net a) = None <->
  domain a <> [] /\ valid (domain a) = true /\
  (endpoint a = [] \/ isValidEndpointPath (endpoint a) = true) /\
  exists elapsed status text v,
    net (domain a ++ endpoint a)
      (buildAuthHeaders (tokenType a) (tokenText a) (customHeaderName a)
         (customPrefix a)) = Responds elapsed status (BodyText text) /\
    response_ok status = true /\
    JSON_parse text = Some v /\ v <> JNull /\
    onFetch valid net a =
      settled a (Some (Z.max 0 elapsed)) (Some status) (Some (utf8_size text)) None
        (JSON_stringify v) /\
    (finite_value v = true -> parsedObject (view (onFetch valid net a)) = v).
Proof.
  rewrite onFetch_outcomes. split.
  - destruct (is_empty (domain a)) eqn:D; [discriminate|].
    destruct (valid (domain a)) eqn:V; cbn [negb]; [|discriminate].
    destruct (negb (is_empty (endpoint a)) && negb (isValidEndpointPath (endpoint a)))
      eqn:E; [discriminate|].
    destruct (net _ _) as [x|elapsed status body]; [discriminate|].
    destruct (response_ok status) eqn:K; cbn [negb]; [|discriminate].
    destruct body as [text|x]; [|discriminate].
    destruct (JSON_parse text) as [v|] eqn:P; [|discriminate].
    intros H.
    assert (N : v <> JNull) by (intros ->; discriminate H).
    split; [now apply is_empty_false|]. split; [reflexivity|].
    split.
    { destruct (is_empty (endpoint a)) eqn:E1; [left; now apply is_empty_true|].
      right. now destruct (isValidEndpointPath (endpoint a)). }
    exists elapsed, status, text, v.
    repeat (split; [reflexivity || assumption|]).
    split; [destruct v; try reflexivity; now contradiction N|].
    intros F.
    replace (match v with JNull => _ | _ => _ end)
      with (settled a (Some (Z.max 0 elapsed)) (Some status)
              (Some (utf8_size text)) None (JSON_stringify v))
      by (destruct v; try reflexivity; now contradiction N).
    unfold parsedObject, parseJsonSafely. cbn [settled view rawJson].
    now rewrite (JSON_parse_stringify v (JSON_parse_wf _ _ P) F).
  - intros [D [V [E [elapsed [status [text [v [R [K [P [N _]]]]]]]]]]].
    apply is_empty_false in D. rewrite D, V. cbn [negb].
    replace (negb (is_empty (endpoint a)) && negb (isValidEndpointPath (endpoint a)))
      with false
      by (destruct E as [E|E]; [rewrite E; reflexivity
                               |rewrite E; now destruct (is_empty (endpoint a))]).
    rewrite R, K, P. cbn [negb].
    destruct v; try reflexivity. now contradiction N.
Qed.

(** ** The tree and the flat list *)

Lemma tree_nodes_children (n : JsonTreeNode) :
  tree_nodes n = n :: flat_map tree_nodes (children_of n).
Proof. destruct n as [k p t v [cs|]]; reflexivity. Qed.

Lemma tree_paths_children (n : JsonTreeNode) :
  tree_paths n = node_path n :: flat_map tree_paths (children_of n).
Proof.
  unfold tree_paths at 1. rewrite tree_nodes_children. cbn [map]. f_equal.
  induction (children_of n) as [|c cs IH]; [reflexivity|].
  cbn [flat_map]. rewrite map_app. now rewrite IH.
Qed.

Lemma children_of_leaf (v : value) (p : str) :
  match v with JArr _ | JObj _ => False | _ => True end ->
  children_of (buildJsonTree v p) = [].
Proof. destruct v; intros H; try reflexivity; contradiction. Qed.

Lemma JsonTreeNode_induction (P : JsonTreeNode -> Prop) :
  (forall n, Forall P (children_of n) -> P n) -> forall n, P n.
Proof.
  intros H. fix IH 1. intros [k p t v [cs|]].
  - apply H. unfold children_of. cbn [node_children].
    induction cs as [|c cs IHc]; constructor; [apply IH|exact IHc].
  - apply H. constructor.
Qed.

(** X8.  Under a root label that is not empty the tree and the flat list
    address the same nodes in the same order: the paths of the tree of a
    value, each node before its children, are the root label followed by the
    flat list of the value. *)
Theorem buildJsonTree_paths_are_extractPaths (v : value) (base : str) :
  base <> [] ->
  tree_paths (buildJsonTree v base) = base :: extractPaths v base.
Proof.
  revert base.
  induction v as [| b | x | s | items IH | ms IH] using value_induction;
    intros base Hb;
    rewrite tree_paths_children, (proj2 (buildJsonTree_key_path _ _));
    try (rewrite children_of_leaf by exact I; reflexivity); f_equal.
  - rewrite buildJsonTree_array, extractPaths_array. generalize 0%nat.
    induction IH as [|c cs Hc _ IHcs]; intros i; [reflexivity|].
    cbn [tree_elements each_element flat_map].
    rewrite Hc by (destruct base; discriminate). cbn [app]. f_equal.
    now rewrite IHcs.
  - rewrite buildJsonTree_object, extractPaths_object.
    induction IH as [|[k c] cs Hc _ IHcs]; [reflexivity|].
    cbn [tree_members each_member flat_map]. cbn [snd] in Hc.
    rewrite Hc by (destruct base; discriminate).
    destruct base as [|b0 base]; [now contradiction Hb|].
    cbn [app]. f_equal. now rewrite IHcs.
Qed.

Lemma buildJsonTree_paths_are_extractPaths_witness :
  tree_paths (buildJsonTree users_sample (txt "data")) =
  txt "data" :: extractPaths users_sample (txt "data").
Proof.
  apply (buildJsonTree_paths_are_extractPaths users_sample (txt "data")).
  discriminate.
Defined.

(** ** The set of expanded branches *)

Lemma set_has_in (s : string_set) (p : str) : set_has s p = true <-> In p s.
Proof.
  unfold set_has. rewrite existsb_exists. split.
  - intros [x [I E]]. apply str_eqb_eq in E. now subst x.
  - intros I. exists p. split; [exact I|apply str_eqb_refl].
Qed.

Lemma set_has_app (s t : string_set) (p : str) :
  set_has (s ++ t) p = set_has s p || set_has t p.
Proof. apply existsb_app. Qed.

Lemma set_has_add (x : str) (s : string_set) (p : str) :
  set_has (set_add x s) p = set_has s p || str_eqb p x.
Proof.
  unfold set_add. destruct (set_has s x) eqn:E.
  - destruct (str_eqb p x) eqn:Q; [|now rewrite orb_false_r].
    apply str_eqb_eq in Q. subst p. now rewrite E.
  - rewrite set_has_app. simpl. now rewrite orb_false_r.
Qed.

Lemma set_has_delete (x : str) (s : string_set) (p : str) :
  set_has (set_delete x s) p = set_has s p && negb (str_eqb p x).
Proof.
  unfold set_delete, set_has. induction s as [|y s IH]; [reflexivity|].
  cbn [filter existsb]. destruct (str_eqb x y) eqn:E; cbn [negb].
  - apply str_eqb_eq in E. subst y. rewrite IH.
    destruct (str_eqb p x); [now rewrite andb_false_r|reflexivity].
  - cbn [existsb]. rewrite IH.
    destruct (str_eqb p y) eqn:Q; [|reflexivity].
    apply str_eqb_eq in Q. subst y. rewrite (str_eqb_sym p x), E. reflexivity.
Qed.

Lemma set_add_NoDup (x : str) (s : string_set) : NoDup s -> NoDup (set_add x s).
Proof.
  intros H. unfold set_add. destruct (set_has s x) eqn:E; [exact H|].
  apply NoDup_app; [exact H|constructor; [intros []|constructor]|].
  intros y Hy [<-|[]]. apply set_has_in in Hy. congruence.
Qed.

(** X9.  [toggleExpand] flips the membership of the given path and of no
    other, keeps the set free of repetitions, and applied twice gives back
    the membership it started from. *)
Theorem toggleExpand_flips_one_path (path : str) (prev : string_set) :
  (forall q, set_has (toggleExpand path prev) q =
             if str_eqb q path then negb (set_has prev q) else set_has prev q) /\
  (NoDup prev -> NoDup (toggleExpand path prev)) /\
  (forall q, set_has (toggleExpand path (toggleExpand path prev)) q = set_has prev q).
Proof.
  assert (F : forall s q, set_has (toggleExpand path s) q =
                          if str_eqb q path then negb (set_has s q) else set_has s q).
  { intros s q. unfold toggleExpand. destruct (set_has s path) eqn:E.
    - rewrite set_has_delete. destruct (str_eqb q path) eqn:Q.
      + apply str_eqb_eq in Q. subst q. rewrite E. reflexivity.
      + apply andb_true_r.
    - rewrite set_has_add. destruct (str_eqb q path) eqn:Q.
      + apply str_eqb_eq in Q. subst q. rewrite E. reflexivity.
      + apply orb_false_r. }
  split; [apply F|]. split.
  - intros H. unfold toggleExpand. destruct (set_has prev path).
    + now apply NoDup_filter.
    + now apply set_add_NoDup.
  - intros q. rewrite !F. destruct (str_eqb q path); [apply negb_involutive|reflexivity].
Qed.

Lemma pop_nil (A : Type) : pop (@nil A) = None.
Proof. reflexivity. Qed.

Lemma pop_snoc (A : Type) (l : list A) (x : A) : pop (l ++ [x]) = Some (x, l).
Proof. unfold pop. rewrite rev_app_distr. simpl. now rewrite rev_involutive. Qed.

Lemma tree_size_children (n : JsonTreeNode) :
  tree_size n = S (list_sum (map tree_size (children_of n))).
Proof. destruct n as [k p t v [cs|]]; reflexivity. Qed.

Lemma list_sum_map_app (A : Type) (f : A -> nat) (l l' : list A) :
  list_sum (map f (l ++ l')) = (list_sum (map f l) + list_sum (map f l'))%nat.
Proof. now rewrite map_app, list_sum_app. Qed.

(** The loop ends within as many steps as the stack holds nodes, and adds
    the paths of all of them. *)
Lemma expand_loop_collects (fuel : nat) :
  forall stack all,
    (list_sum (map tree_size stack) <= fuel)%nat ->
    exists res,
      expand_loop fuel stack all = Some res /\
      (NoDup all -> NoDup res) /\
      forall p, In p res <-> In p all \/ exists n, In n stack /\ In p (tree_paths n).
Proof.
  induction fuel as [|fuel IH]; intros stack all Hf.
  - destruct stack as [|n stack] using rev_ind.
    + exists all. split; [reflexivity|]. split; [auto|].
      intros p. split; [auto|]. intros [H|[n [[] _]]]. exact H.
    + rewrite list_sum_map_app in Hf. simpl in Hf.
      rewrite (tree_size_children n) in Hf. lia.
  - destruct stack as [|n stack _] using rev_ind.
    + exists all. split; [reflexivity|]. split; [auto|].
      intros p. split; [auto|]. intros [H|[n [[] _]]]. exact H.
    + rewrite list_sum_map_app in Hf. simpl in Hf.
      rewrite (tree_size_children n) in Hf.
      cbn [expand_loop]. rewrite pop_snoc.
      replace (match node_children n with Some cs => stack ++ cs | None => stack end)
        with (stack ++ children_of n)
        by (unfold children_of; destruct (node_children n);
            [reflexivity|apply app_nil_r]).
      destruct (IH (stack ++ children_of n) (set_add (node_path n) all))
        as [res [E [D M]]].
      { rewrite list_sum_map_app. lia. }
      exists res. split; [exact E|]. split; [intros H; apply D, set_add_NoDup, H|].
      intros p. rewrite M. rewrite <- (set_has_in (set_add _ _)), set_has_add.
      rewrite orb_true_iff, set_has_in, str_eqb_eq. split.
      * intros [[H|H]|[m [I P]]].
        -- now left.
        -- right. exists n. split; [apply in_or_app; right; now left|].
           rewrite tree_paths_children. left. now symmetry.
        -- right. apply in_app_or in I as [I|I].
           ++ exists m. split; [apply in_or_app; now left|exact P].
           ++ exists n. split; [apply in_or_app; right; now left|].
              rewrite tree_paths_children. right.
              apply in_flat_map. now exists m.
      * intros [H|[m [I P]]]; [now left; left|].
        apply in_app_or in I as [I|[<-|[]]].
        -- right. exists m. split; [apply in_or_app; now left|exact P].
        -- rewrite tree_paths_children in P. destruct P as [P|P].
           ++ left. right. now symmetry.
           ++ right. apply in_flat_map in P as [c [Ic Pc]].
              exists c. split; [apply in_or_app; now right|exact Pc].
Qed.

(** X10.  During a search the effect on [pathSearch] and [rootTree] runs its
    loop to the end and sets [expanded] to the paths of all the nodes of the
    tree, each once: every branch is open. *)
Theorem expand_on_search_opens_every_node (search : str) (root : JsonTreeNode) :
  search <> [] ->
  exists all,
    expand_on_search search (Some root) = Some all /\
    NoDup all /\
    forall p, set_has all p = true <-> In p (tree_paths root).
Proof.
  intros H. destruct search as [|c search]; [now contradiction H|].
  cbn [expand_on_search].
  destruct (expand_loop_collects (tree_size root) [root] []) as [all [E [D M]]].
  { simpl. lia. }
  exists all. split; [exact E|]. split; [apply D; constructor|].
  intros p. rewrite set_has_in, M. split.
  - intros [[]|[n [[<-|[]] P]]]. exact P.
  - intros P. right. exists root. split; [now left|exact P].
Qed.

Lemma expand_on_search_opens_every_node_witness :
  exists all,
    expand_on_search (txt "id") (Some (buildJsonTree users_sample (txt "data")))
      = Some all /\
    NoDup all /\
    forall p, set_has all p = true <->
              In p (tree_paths (buildJsonTree users_sample (txt "data"))).
Proof.
  apply (expand_on_search_opens_every_node (txt "id")
           (buildJsonTree users_sample (txt "data"))).
  discriminate.
Defined.

(** ** Pruning the tree by a query *)

Lemma keep_some_in (A : Type) (l : list (option A)) (x : A) :
  In x (keep_some l) <-> In (Some x) l.
Proof.
  induction l as [|[a|] l IH]; simpl.
  - tauto.
  - rewrite IH. split; intros [H|H]; auto; left; congruence.
  - rewrite IH. split; [auto|]. intros [H|H]; [discriminate|exact H].
Qed.

Lemma keep_some_nil (A : Type) (l : list (option A)) :
  keep_some l = [] <-> forall o, In o l -> o = None.
Proof.
  induction l as [|[a|] l IH]; simpl.
  - split; [intros _ o []|reflexivity].
  - split; [discriminate|]. intros H. specialize (H (Some a) (or_introl eq_refl)).
    discriminate.
  - rewrite IH. split.
    + intros H o [<-|I]; [reflexivity|now apply H].
    + intros H o I. apply H. now right.
Qed.

Lemma kept_children_in (q : str) (n c' : JsonTreeNode) :
  In c' (kept_children q n) <->
  exists c, In c (children_of n) /\ filterTreeByQuery c q = Some c'.
Proof.
  unfold kept_children. rewrite keep_some_in, in_map_iff. split.
  - intros [c [E I]]. now exists c.
  - intros [c [I E]]. now exists c.
Qed.

(** One step of [filterTreeByQuery] for a query that is not empty. *)
Lemma filterTreeByQuery_some (q : str) (n n' : JsonTreeNode) :
  q <> [] -> filterTreeByQuery n q = Some n' ->
  same_label n' n /\ children_of n' = kept_children q n /\
  (children_of n' = [] -> self_match q n = true).
Proof.
  intros Hq. destruct q as [|a q]; [now contradiction Hq|].
  unfold kept_children, self_match, children_of.
  destruct n as [k p t v [[|c cs]|]]; cbn [filterTreeByQuery node_children node_path
                                           node_preview].
  - destruct (_ || _); [|discriminate]. intros E. inversion E; subst n'.
    now repeat split.
  - destruct (keep_some _) as [|c' cs'] eqn:K.
    + destruct (_ || _); [|discriminate]. intros E. inversion E; subst n'.
      now repeat split.
    + intros E. inversion E; subst n'. cbn [node_children].
      split; [now repeat split|]. split; [reflexivity|discriminate].
  - destruct (_ || _); [|discriminate]. intros E. inversion E; subst n'.
    now repeat split.
Qed.

Lemma filterTreeByQuery_none (q : str) (n : JsonTreeNode) :
  q <> [] ->
  (filterTreeByQuery n q = None <->
   self_match q n = false /\ kept_children q n = []).
Proof.
  intros Hq. destruct q as [|a q]; [now contradiction Hq|].
  unfold kept_children, self_match, children_of.
  destruct n as [k p t v [[|c cs]|]]; cbn [filterTreeByQuery node_children node_path
                                           node_preview].
  - destruct (_ || _); split; try discriminate; try tauto. now intros [? _].
  - destruct (keep_some _) as [|c' cs'] eqn:K.
    + destruct (_ || _); split; try discriminate; try tauto. now intros [? _].
    + split; [discriminate|]. now intros [_ ?].
  - destruct (_ || _); split; try discriminate; try tauto. now intros [? _].
Qed.

Lemma self_match_same_label (q : str) (n' n : JsonTreeNode) :
  same_label n' n -> self_match q n' = self_match q n.
Proof. intros [_ [P [_ V]]]. unfold self_match. now rewrite P, V. Qed.

Lemma filterTreeByQuery_none_nodes (q : str) (n : JsonTreeNode) :
  q <> [] ->
  (filterTreeByQuery n q = None <->
   forall m, In m (tree_nodes n) -> self_match q m = false).
Proof.
  intros Hq. induction n as [n IH] using JsonTreeNode_induction.
  rewrite (filterTreeByQuery_none q n Hq), tree_nodes_children.
  unfold kept_children. rewrite keep_some_nil. split.
  - intros [S K] m [<-|I]; [exact S|].
    apply in_flat_map in I as [c [Ic Im]].
    rewrite Forall_forall in IH. apply (IH c Ic); [|exact Im].
    apply K. apply in_map_iff. now exists c.
  - intros H. split; [apply H; now left|].
    intros o I. apply in_map_iff in I as [c [<- Ic]].
    rewrite Forall_forall in IH. apply (IH c Ic).
    intros m Im. apply H. right. apply in_flat_map. now exists c.
Qed.

(** X11.  For a query that is not empty, [filterTreeByQuery] drops a node
    exactly when neither the node nor any node below it matches the query
    (in its path or in its preview, whatever the case of the letters).  The
    query, the paths and the previews are made of the units whose lower case
    is modelled. *)
Theorem filterTreeByQuery_drops_iff_no_match (q : str) (n : JsonTreeNode) :
  modelled_case q = true -> modelled_tree n = true ->
  q <> [] ->
  (filterTreeByQuery n q = None <->
   forall m, In m (tree_nodes n) -> self_match q m = false).
Proof. intros _ _. exact (filterTreeByQuery_none_nodes q n). Qed.

Lemma filterTreeByQuery_drops_iff_no_match_witness :
  filterTreeByQuery (buildJsonTree xyz_sample (txt "data")) (txt "XY") = None <->
  forall m, In m (tree_nodes (buildJsonTree xyz_sample (txt "data"))) ->
            self_match (txt "XY") m = false.
Proof.
  apply (filterTreeByQuery_drops_iff_no_match (txt "XY")
           (buildJsonTree xyz_sample (txt "data"))).
  - reflexivity.
  - reflexivity.
  - discriminate.
Defined.

Lemma filterTreeByQuery_pruning (q : str) (n n' : JsonTreeNode) :
  q <> [] -> filterTreeByQuery n q = Some n' ->
  same_label n' n /\
  (forall m', In m' (tree_nodes n') ->
     exists m, In m (tree_nodes n) /\ same_label m' m /\
               (children_of m' <> [] -> children_of m <> [])) /\
  (forall m', In m' (tree_nodes n') -> children_of m' = [] -> self_match q m' = true) /\
  (forall m, In m (tree_nodes n) -> self_match q m = true ->
     In (node_path m) (tree_paths n')).
Proof.
  intros Hq. revert n'.
  induction n as [n IH] using JsonTreeNode_induction. intros n' E.
  rewrite Forall_forall in IH.
  destruct (filterTreeByQuery_some q n n' Hq E) as [L [C S]].
  split; [exact L|]. split; [|split].
  - intros m'. rewrite (tree_nodes_children n'), C. intros [<-|I].
    + exists n. split; [rewrite tree_nodes_children; now left|]. split; [exact L|].
      rewrite C. intros K Z. apply K. unfold kept_children. now rewrite Z.
    + apply in_flat_map in I as [c' [Ic' Im']].
      apply kept_children_in in Ic' as [c [Ic Ec]].
      destruct (IH c Ic c' Ec) as [_ [A _]].
      destruct (A m' Im') as [m [Im Lm]].
      exists m. split; [|exact Lm].
      rewrite tree_nodes_children. right. apply in_flat_map. now exists c.
  - intros m'. rewrite (tree_nodes_children n'), C. intros [<-|I] Z.
    + rewrite (self_match_same_label q n' n L). apply S. exact Z.
    + apply in_flat_map in I as [c' [Ic' Im']].
      apply kept_children_in in Ic' as [c [Ic Ec]].
      destruct (IH c Ic c' Ec) as [_ [_ [B _]]]. now apply B.
  - intros m. rewrite (tree_nodes_children n), (tree_paths_children n'), C.
    intros [<-|I] M.
    + left. now destruct L as [_ [P _]].
    + right. apply in_flat_map in I as [c [Ic Im]].
      destruct (filterTreeByQuery c q) as [c'|] eqn:Ec.
      * apply in_flat_map. exists c'. split; [apply kept_children_in; now exists c|].
        destruct (IH c Ic c' Ec) as [_ [_ [_ D]]]. now apply D.
      * rewrite (filterTreeByQuery_none_nodes q c Hq) in Ec.
        rewrite (Ec m Im) in M. discriminate.
Qed.



(** ** What the tree view shows during a search *)

Lemma tree_elements_in (p : str) (vs : list value) :
  forall i t, In t (tree_elements p vs i) ->
    exists c q, In c vs /\ t = buildJsonTree c q.
Proof.
  induction vs as [|c vs IH]; intros i t; cbn [tree_elements]; [intros []|].
  intros [<-|I].
  - eexists c, _. split; [now left|reflexivity].
  - destruct (IH _ _ I) as [c' [q [Ic E]]]. exists c', q. split; [now right|exact E].
Qed.

Lemma tree_members_in (p : str) (ms : list (str * value)) :
  forall t, In t (tree_members p ms) ->
    exists k c q, In (k, c) ms /\ t = buildJsonTree c q.
Proof.
  induction ms as [|[k c] ms IH]; intros t; cbn [tree_members]; [intros []|].
  intros [<-|I].
  - eexists k, c, _. split; [now left|reflexivity].
  - destruct (IH _ I) as [k' [c' [q [Ic E]]]]. exists k', c', q.
    split; [now right|exact E].
Qed.

(** In a tree that [buildJsonTree] makes, a node with children is a branch. *)
Lemma buildJsonTree_branches (v : value) :
  forall p m, In m (tree_nodes (buildJsonTree v p)) ->
    children_of m <> [] -> isBranch m = true.
Proof.
  induction v as [| b | x | s | items IH | ms IH] using value_induction;
    intros p m; rewrite tree_nodes_children;
    try (rewrite children_of_leaf by exact I; intros [<-|[]] C;
         rewrite children_of_leaf in C by exact I; now contradiction C).
  - intros [<-|I] C; [reflexivity|].
    rewrite buildJsonTree_array in I.
    apply in_flat_map in I as [t [It Im]].
    apply tree_elements_in in It as [c [q [Ic ->]]].
    rewrite Forall_forall in IH. now apply (IH c Ic q m).
  - intros [<-|I] C; [reflexivity|].
    rewrite buildJsonTree_object in I.
    apply in_flat_map in I as [t [It Im]].
    apply tree_members_in in It as [k [c [q [Ic ->]]]].
    rewrite Forall_forall in IH. now apply (IH (k, c) Ic q m).
Qed.

Lemma map_flat_map (A B C : Type) (f : B -> C) (g : A -> list B) (l : list A) :
  map f (flat_map g l) = flat_map (fun a => map f (g a)) l.
Proof.
  induction l as [|a l IH]; [reflexivity|].
  cbn [flat_map]. now rewrite map_app, IH.
Qed.

Lemma flat_map_eq_in (A B : Type) (f g : A -> list B) (l : list A) :
  (forall a, In a l -> f a = g a) -> flat_map f l = flat_map g l.
Proof.
  induction l as [|a l IH]; intros H; [reflexivity|].
  cbn [flat_map]. rewrite (H a (or_introl eq_refl)). f_equal.
  apply IH. intros b I. apply H. now right.
Qed.

(** With every node open, the view has one row for each node of the tree. *)
Lemma JsonTreeView_all_open (expanded : string_set) (n : JsonTreeNode) :
  (forall m, In m (tree_nodes n) ->
     (children_of m <> [] -> isBranch m = true) /\
     set_has expanded (node_path m) = true) ->
  forall depth, map row_path (JsonTreeView expanded n depth) = tree_paths n.
Proof.
  induction n as [n IH] using JsonTreeNode_induction. intros H depth.
  rewrite Forall_forall in IH.
  rewrite tree_paths_children.
  assert (R : forall c, In c (children_of n) ->
                map row_path (JsonTreeView expanded c (S depth)) = tree_paths c).
  { intros c Ic. apply (IH c Ic). intros m Im. apply H.
    rewrite tree_nodes_children. right. apply in_flat_map. now exists c. }
  destruct (H n) as [B O]; [rewrite tree_nodes_children; now left|].
  destruct n as [k p t v [cs|]]; cbn [JsonTreeView map row_path node_path]; f_equal.
  unfold children_of in *. cbn [node_children node_path] in *.
  destruct cs as [|c cs].
  - now destruct (_ && _).
  - rewrite B by discriminate. rewrite O. cbn [andb].
    rewrite map_flat_map. now apply flat_map_eq_in.
Qed.

(** X13.  During a search no match is hidden in a closed branch: with the
    set of expanded paths that the search effect computes from the whole
    tree, the view of the pruned tree has a row for every node of the pruned
    tree, and so a row for every node of the whole tree that matches.  The
    query, the paths and the previews are made of the units whose lower case
    is modelled. *)
Theorem search_shows_every_match (v : value) (base search : str)
  (pruned : JsonTreeNode) (all : string_set) :
  modelled_case search = true -> modelled_tree (buildJsonTree v base) = true ->
  search <> [] ->
  filterTreeByQuery (buildJsonTree v base) search = Some pruned ->
  expand_on_search search (Some (buildJsonTree v base)) = Some all ->
  map row_path (JsonTreeView all pruned 0) = tree_paths pruned /\
  forall m, In m (tree_nodes (buildJsonTree v base)) ->
            self_match search m = true ->
            In (node_path m) (map row_path (JsonTreeView all pruned 0)).
Proof.
  intros _ _ Hq F E.
  destruct (filterTreeByQuery_pruning search _ _ Hq F) as [_ [A [_ C]]].
  assert (M : forall p, set_has all p = true <->
                        In p (tree_paths (buildJsonTree v base))).
  { destruct search as [|c search]; [now contradiction Hq|].
    cbn [expand_on_search] in E.
    destruct (expand_loop_collects (tree_size (buildJsonTree v base))
                [buildJsonTree v base] []) as [all' [E' [_ M]]].
    { simpl. lia. }
    rewrite E in E'. inversion E'; subst all'.
    intros p. rewrite set_has_in, M. split.
    - intros [[]|[n [[<-|[]] P]]]. exact P.
    - intros P. right. exists (buildJsonTree v base). split; [now left|exact P]. }
  assert (V : map row_path (JsonTreeView all pruned 0) = tree_paths pruned).
  { apply JsonTreeView_all_open. intros m' Im'.
    destruct (A m' Im') as [m [Im [[_ [P [K _]]] Cm]]]. split.
    - intros Z. unfold isBranch. rewrite K.
      apply (buildJsonTree_branches v base m Im). now apply Cm.
    - apply M. rewrite P. unfold tree_paths. now apply in_map. }
  split; [exact V|]. intros m Im S. rewrite V. now apply C.
Qed.

Lemma search_shows_every_match_witness :
  map row_path (JsonTreeView users_expanded users_pruned 0) = tree_paths users_pruned /\
  forall m, In m (tree_nodes (buildJsonTree users_sample (txt "data"))) ->
            self_match (txt "ID") m = true ->
            In (node_path m) (map row_path (JsonTreeView users_expanded users_pruned 0)).
Proof.
  apply (search_shows_every_match users_sample (txt "data") (txt "ID")
           users_pruned users_expanded).
  - reflexivity.
  - reflexivity.
  - discriminate.
  - vm_compute. reflexivity.
  - vm_compute. reflexivity.
Defined.

(** ** The highlighted view and the serialization *)

Lemma indent_of_S (depth : nat) : indent_of (S depth) = indent_of depth ++ gap.
Proof.
  unfold indent_of. induction depth as [|d IH]; [reflexivity|].
  change (repeat gap (S (S d))) with (gap :: repeat gap (S d)).
  cbn [concat]. rewrite IH at 1. rewrite app_assoc. f_equal.
Qed.

(** The rows of the elements of an array: the indented texts, joined. *)
Lemma JsonCode_elements (depth : nat) (vs : list value) :
  vs <> [] ->
  (fix each (vs : list value) : str :=
     match vs with
     | [] => []
     | [x] => indent_of depth ++ gap ++ JsonCode x (S depth) ++ [LF]
     | x :: vs' =>
         indent_of depth ++ gap ++ JsonCode x (S depth) ++ 44 :: LF :: each vs'
     end) vs
  = (indent_of depth ++ gap)
      ++ join (44 :: LF :: indent_of depth ++ gap)
           (map (fun c => JsonCode c (S depth)) vs)
      ++ [LF].
Proof.
  match goal with |- _ -> ?f vs = _ => set (each := f) end.
  induction vs as [|x vs IH]; intros H; [now contradiction H|].
  destruct vs as [|y vs].
  - change (each [x]) with (indent_of depth ++ gap ++ JsonCode x (S depth) ++ [LF]).
    cbn [map join]. now rewrite <- app_assoc.
  - change (each (x :: y :: vs))
      with (indent_of depth ++ gap ++ JsonCode x (S depth)
              ++ 44 :: LF :: each (y :: vs)).
    rewrite IH by discriminate.
    change (join (44 :: LF :: indent_of depth ++ gap)
              (map (fun c => JsonCode c (S depth)) (x :: y :: vs)))
      with (JsonCode x (S depth) ++ (44 :: LF :: indent_of depth ++ gap)
              ++ join (44 :: LF :: indent_of depth ++ gap)
                   (map (fun c => JsonCode c (S depth)) (y :: vs))).
    rewrite <- !app_assoc. cbn [app]. now rewrite <- !app_assoc.
Qed.

Lemma JsonCode_array (x : value) (items : list value) (depth : nat) :
  JsonCode (JArr (x :: items)) depth =
  91 :: LF :: (indent_of depth ++ gap)
    ++ join (44 :: LF :: indent_of depth ++ gap)
         (map (fun c => JsonCode c (S depth)) (x :: items))
    ++ LF :: indent_of depth ++ [93].
Proof.
  pose proof (JsonCode_elements depth (x :: items) ltac:(discriminate)) as E.
  transitivity (91 :: LF ::
                ((indent_of depth ++ gap)
                   ++ join (44 :: LF :: indent_of depth ++ gap)
                        (map (fun c => JsonCode c (S depth)) (x :: items))
                   ++ [LF]) ++ indent_of depth ++ [93]).
  - rewrite <- E. reflexivity.
  - rewrite <- !app_assoc. reflexivity.
Qed.

(** The rows of the entries of an object: the indented members, joined. *)
Lemma JsonCode_entries (depth : nat) (es : list (str * value)) :
  es <> [] ->
  (fix each (es : list (str * value)) : str :=
     match es with
     | [] => []
     | [(k, x)] =>
         indent_of depth ++ gap ++ 34 :: k ++ 34 :: 58 :: 32 :: JsonCode x (S depth) ++ [LF]
     | (k, x) :: es' =>
         indent_of depth ++ gap ++ 34 :: k ++ 34 :: 58 :: 32 :: JsonCode x (S depth)
           ++ 44 :: LF :: each es'
     end) es
  = (indent_of depth ++ gap)
      ++ join (44 :: LF :: indent_of depth ++ gap)
           (map (fun kv => 34 :: fst kv ++ 34 :: 58 :: 32 :: JsonCode (snd kv) (S depth)) es)
      ++ [LF].
Proof.
  match goal with |- _ -> ?f es = _ => set (each := f) end.
  induction es as [|[k x] es IH]; intros H; [now contradiction H|].
  destruct es as [|[k' y] es].
  - change (each [(k, x)])
      with (indent_of depth ++ gap ++ 34 :: k ++ 34 :: 58 :: 32
              :: JsonCode x (S depth) ++ [LF]).
    cbn [map join fst snd].
    repeat (rewrite <- ?app_assoc; cbn [app]; f_equal).
  - change (each ((k, x) :: (k', y) :: es))
      with (indent_of depth ++ gap ++ 34 :: k ++ 34 :: 58 :: 32
              :: JsonCode x (S depth) ++ 44 :: LF :: each ((k', y) :: es)).
    rewrite IH by discriminate.
    cbn [map]. rewrite join_cons2. cbv beta. cbn [fst snd].
    repeat (rewrite <- ?app_assoc; cbn [app]; f_equal).
Qed.

Lemma JsonCode_object (e : str * value) (es : list (str * value)) (depth : nat) :
  JsonCode (JObj (e :: es)) depth =
  123 :: LF :: (indent_of depth ++ gap)
    ++ join (44 :: LF :: indent_of depth ++ gap)
         (map (fun kv => 34 :: fst kv ++ 34 :: 58 :: 32 :: JsonCode (snd kv) (S depth))
              (e :: es))
    ++ LF :: indent_of depth ++ [125].
Proof.
  pose proof (JsonCode_entries depth (e :: es) ltac:(discriminate)) as E.
  transitivity (123 :: LF ::
                ((indent_of depth ++ gap)
                   ++ join (44 :: LF :: indent_of depth ++ gap)
                        (map (fun kv => 34 :: fst kv ++ 34 :: 58 :: 32
                                          :: JsonCode (snd kv) (S depth)) (e :: es))
                   ++ [LF]) ++ indent_of depth ++ [125]).
  - rewrite <- E. destruct e as [k x]. reflexivity.
  - rewrite <- !app_assoc. reflexivity.
Qed.

Lemma written_as_is_eq (s : str) : written_as_is s = true -> quote_units s = s.
Proof. apply str_eqb_eq. Qed.

Lemma JsonCode_serialize (v : value) :
  finite_value v = true -> plain_strings v = true ->
  forall depth, JsonCode v depth = serialize (indent_of depth) v.
Proof.
  induction v as [| b | x | s | items IH | ms IH] using value_induction;
    intros F P depth.
  - reflexivity.
  - destruct b; reflexivity.
  - destruct x as [m e|neg]; [reflexivity|discriminate].
  - cbn [JsonCode serialize]. unfold quote.
    now rewrite (written_as_is_eq s P).
  - destruct items as [|x items]; [reflexivity|].
    rewrite JsonCode_array. cbn [serialize]. rewrite <- !indent_of_S.
    replace (map (fun c => JsonCode c (S depth)) (x :: items))
      with (map (serialize (indent_of (S depth))) (x :: items)); [reflexivity|].
    symmetry. apply map_ext_in. intros c Ic.
    rewrite Forall_forall in IH. cbn [finite_value plain_strings] in F, P.
    rewrite forallb_forall in F, P. now apply IH; [|apply F|apply P].
  - destruct ms as [|e ms]; [reflexivity|].
    rewrite JsonCode_object. cbn [serialize]. rewrite <- !indent_of_S.
    replace (map (fun kv => 34 :: fst kv ++ 34 :: 58 :: 32
                              :: JsonCode (snd kv) (S depth)) (e :: ms))
      with (map (fun kv => quote (fst kv) ++ 58 :: 32
                             :: serialize (indent_of (S depth)) (snd kv)) (e :: ms));
      [reflexivity|].
    symmetry. apply map_ext_in. intros [k c] Ic.
    rewrite Forall_forall in IH. cbn [finite_value plain_strings] in F, P.
    rewrite forallb_forall in F, P.
    specialize (P _ Ic). cbn [fst snd] in *. apply andb_prop in P as [Pk Pc].
    unfold quote. rewrite (written_as_is_eq k Pk).
    rewrite (IH (k, c) Ic (F _ Ic) Pc). cbn [fst snd app].
    now rewrite <- app_assoc.
Qed.

(** X14.  The highlighted view shows the text of the serialization: for a
    value without infinities whose strings and keys [JSON.stringify] writes
    as they are, the text that [JsonCode] renders at depth 0 is
    [JSON.stringify(value, null, 2)]; a string on its own is rendered as its
    serialization exactly when it needs no escape. *)
Theorem JsonCode_shows_the_serialization :
  (forall v, finite_value v = true -> plain_strings v = true ->
             JsonCode v 0 = JSON_stringify v) /\
  (forall s depth, JsonCode (JStr s) depth = JSON_stringify (JStr s) <->
                   written_as_is s = true).
Proof.
  split.
  - intros v F P. apply (JsonCode_serialize v F P 0).
  - intros s depth. unfold JSON_stringify, written_as_is. cbn [JsonCode serialize].
    unfold quote. rewrite str_eqb_eq. split.
    + intros E. inversion E as [E']. apply app_inv_tail in E'. now symmetry.
    + intros ->. reflexivity.
Qed.

(** ** The flat filter and the query *)

Lemma starts_with_spec (q s : str) :
  starts_with q s = true <-> exists post, s = q ++ post.
Proof.
  revert s. induction q as [|a q IH]; intros s.
  - split; [now exists s|reflexivity].
  - destruct s as [|b s]; cbn [starts_with].
    + split; [discriminate|]. now intros [post H].
    + rewrite andb_true_iff, N.eqb_eq, IH. split.
      * intros [-> [post ->]]. now exists post.
      * intros [post H]. inversion H. split; [reflexivity|now exists post].
Qed.

Lemma includes_spec (s q : str) :
  includes s q = true <-> exists pre post, s = pre ++ q ++ post.
Proof.
  induction s as [|a s IH].
  - cbn [includes]. rewrite orb_false_r, starts_with_spec. split.
    + intros [post H]. now exists [], post.
    + intros [pre [post H]]. destruct pre; [now exists post|discriminate].
  - cbn [includes]. rewrite orb_true_iff, starts_with_spec, IH. split.
    + intros [[post H]|[pre [post H]]].
      * now exists [], post.
      * exists (a :: pre), post. now rewrite H.
    + intros [[|b pre] [post H]].
      * left. now exists post.
      * right. inversion H. now exists pre, post.
Qed.

Lemma includes_trans (s q' q : str) :
  includes s q' = true -> includes q' q = true -> includes s q = true.
Proof.
  rewrite !includes_spec. intros [a [b ->]] [c [d ->]].
  exists (a ++ c), (d ++ b). now rewrite <- !app_assoc.
Qed.

Lemma drop_space_app (s t : str) :
  drop_space (s ++ t) =
  if forallb is_space s then drop_space t else drop_space s ++ t.
Proof.
  induction s as [|c s IH]; [reflexivity|].
  cbn [app drop_space forallb]. destruct (is_space c); [exact IH|reflexivity].
Qed.

Lemma drop_space_all (s : str) : forallb is_space s = true -> drop_space s = [].
Proof.
  induction s as [|c s IH]; [reflexivity|].
  cbn [forallb drop_space]. intros H. apply andb_prop in H as [-> H]. now apply IH.
Qed.

Lemma forallb_rev (A : Type) (f : A -> bool) (l : list A) :
  forallb f (rev l) = forallb f l.
Proof.
  induction l as [|a l IH]; [reflexivity|].
  cbn [rev forallb]. rewrite forallb_app, IH. cbn [forallb].
  rewrite andb_true_r. apply andb_comm.
Qed.

(** The trimmed text is found again in the trimmed form of any extension. *)
Lemma trim_app_includes (q x : str) : includes (trim (q ++ x)) (trim q) = true.
Proof.
  apply includes_spec. unfold trim. rewrite drop_space_app.
  destruct (forallb is_space q) eqn:Q.
  - rewrite (drop_space_all q Q). exists [], (rev (drop_space (rev (drop_space x)))).
    reflexivity.
  - set (u := drop_space q).
    destruct (drop_space_suffix (rev u)) as [pre E].
    assert (U : u = rev (drop_space (rev u)) ++ rev pre).
    { rewrite <- rev_app_distr, <- E. symmetry. apply rev_involutive. }
    rewrite rev_app_distr, drop_space_app.
    destruct (forallb is_space (rev x)).
    + exists [], []. now rewrite app_nil_r.
    + rewrite rev_app_distr, rev_involutive.
      exists [], (rev pre ++ rev (drop_space (rev x))).
      cbn [app]. rewrite app_assoc, <- U. reflexivity.
Qed.

Lemma toLowerCase_app (s t : str) :
  toLowerCase (s ++ t) = toLowerCase s ++ toLowerCase t.
Proof. apply map_app. Qed.

Lemma includes_toLowerCase (s q : str) :
  includes s q = true -> includes (toLowerCase s) (toLowerCase q) = true.
Proof.
  rewrite !includes_spec. intros [a [b ->]].
  exists (toLowerCase a), (toLowerCase b). now rewrite !toLowerCase_app.
Qed.

Lemma filterPaths_in (paths : list str) (q p : str) :
  In p (filterPaths paths q) <->
  In p paths /\ includes (toLowerCase p) (toLowerCase (trim q)) = true.
Proof.
  rewrite filterPaths_filter.
  exact (filter_In (fun p => includes (toLowerCase p) (toLowerCase (trim q))) p paths).
Qed.

(** X15.  Typing more never brings a path back: for a query and what is
    typed after it (units up to U+00FF, where lower-casing works unit by
    unit), every path that [filterPaths] keeps for the longer query is kept
    for the shorter one. *)
Theorem filterPaths_typing_narrows (paths : list str) (q x p : str) :
  latin1 q = true -> latin1 x = true ->
  In p (filterPaths paths (q ++ x)) -> In p (filterPaths paths q).
Proof.
  intros _ _. rewrite !filterPaths_in. intros [I H]. split; [exact I|].
  apply (includes_trans _ _ _ H), includes_toLowerCase, trim_app_includes.
Qed.

Lemma filterPaths_typing_narrows_witness :
  In (txt "data.users[0].id")
    (filterPaths (extractPaths users_sample (txt "data")) (txt " I")).
Proof.
  apply (filterPaths_typing_narrows (extractPaths users_sample (txt "data"))
           (txt " I") (txt "D ") (txt "data.users[0].id"));
    [reflexivity|reflexivity|].
  vm_compute. left. reflexivity.
Defined.

Lemma lower_unit_cases (c : N) :
  lower_unit c = c \/
  (lower_unit c = c + 32 /\ ((65 <= c <= 90) \/ (192 <= c <= 222))).
Proof.
  unfold lower_unit, is_upper.
  destruct ((65 <=? c) && (c <=? 90)) eqn:U.
  - right. split; [reflexivity|]. units_to_prop. lia.
  - destruct ((192 <=? c) && (c <=? 222) && negb (c =? 215)) eqn:L; [|now left].
    right. split; [reflexivity|]. rewrite !andb_true_iff in L. units_to_prop. lia.
Qed.

Lemma is_space_false_range (c : N) :
  (33 <= c <= 159) \/ (161 <= c <= 5759) -> is_space c = false.
Proof. unfold is_space. intros H. units_to_prop. lia. Qed.

Lemma is_space_lower_unit (c : N) : is_space (lower_unit c) = is_space c.
Proof.
  destruct (lower_unit_cases c) as [->|[-> H]]; [reflexivity|].
  rewrite !is_space_false_range by lia. reflexivity.
Qed.

Lemma lower_unit_idempotent (c : N) : lower_unit (lower_unit c) = lower_unit c.
Proof.
  destruct (lower_unit_cases c) as [E|[E H]]; [now rewrite E|].
  rewrite E. unfold lower_unit at 1. unfold is_upper.
  replace ((65 <=? c + 32) && (c + 32 <=? 90)) with false
    by (symmetry; units_to_prop; lia).
  replace ((192 <=? c + 32) && (c + 32 <=? 222)) with false
    by (symmetry; units_to_prop; lia).
  reflexivity.
Qed.

Lemma drop_space_toLowerCase (s : str) :
  drop_space (toLowerCase s) = toLowerCase (drop_space s).
Proof.
  induction s as [|c s IH]; [reflexivity|].
  cbn [toLowerCase map drop_space]. rewrite is_space_lower_unit.
  destruct (is_space c); [exact IH|reflexivity].
Qed.

Lemma trim_toLowerCase (s : str) : trim (toLowerCase s) = toLowerCase (trim s).
Proof.
  unfold trim. rewrite drop_space_toLowerCase.
  unfold toLowerCase at 1. rewrite <- map_rev.
  change (map lower_unit (rev (drop_space s))) with (toLowerCase (rev (drop_space s))).
  rewrite drop_space_toLowerCase. unfold toLowerCase. now rewrite map_rev.
Qed.

Lemma toLowerCase_idempotent (s : str) : toLowerCase (toLowerCase s) = toLowerCase s.
Proof.
  unfold toLowerCase. rewrite map_map. apply map_ext. apply lower_unit_idempotent.
Qed.

(** X16.  The flat filter does not look at the case of the query: two
    queries (units up to U+00FF) with the same lower-case form keep the same
    paths, a query keeps what its lower-case form keeps, and filtering what
    was kept by the same query changes nothing. *)
Theorem filterPaths_ignores_case (paths : list str) (q q' : str) :
  latin1 q = true -> latin1 q' = true ->
  toLowerCase q = toLowerCase q' ->
  filterPaths paths q = filterPaths paths q' /\
  filterPaths paths (toLowerCase q) = filterPaths paths q /\
  filterPaths (filterPaths paths q) q = filterPaths paths q.
Proof.
  intros _ _ E. rewrite !filterPaths_filter.
  rewrite <- !trim_toLowerCase, toLowerCase_idempotent, E.
  split; [reflexivity|]. split; [reflexivity|].
  induction paths as [|p paths IH]; [reflexivity|].
  cbn [filter]. destruct (includes _ _) eqn:I; [|exact IH].
  cbn [filter]. rewrite I. now f_equal.
Qed.

Lemma filterPaths_ignores_case_witness :
  filterPaths (extractPaths users_sample (txt "data")) (txt "Users") =
  filterPaths (extractPaths users_sample (txt "data")) (txt "uSERS") /\
  filterPaths (extractPaths users_sample (txt "data")) (toLowerCase (txt "Users")) =
  filterPaths (extractPaths users_sample (txt "data")) (txt "Users") /\
  filterPaths (filterPaths (extractPaths users_sample (txt "data")) (txt "Users"))
    (txt "Users") =
  filterPaths (extractPaths users_sample (txt "data")) (txt "Users").
Proof.
  apply (filterPaths_ignores_case (extractPaths users_sample (txt "data"))
           (txt "Users") (txt "uSERS")); reflexivity.
Defined.

(** ** Trailing commas *)

Lemma trailing_comma_needs_head : needs_head re_trailing_comma (ch 44).
Proof.
  intros b s c k H. unfold re_trailing_comma. cbn [cat exec after].
  destruct s as [|a s]; [reflexivity|]. now rewrite H.
Qed.

Lemma trailing_comma_looks_ahead : looks_ahead_only re_trailing_comma.
Proof.
  intros b b' s c k. unfold re_trailing_comma. cbn [cat exec after].
  now destruct s.
Qed.

Lemma exec_trailing_comma b (ws : str) c (post : str) :
  forallb is_space ws = true -> is_closer c = true ->
  exec re_trailing_comma (mkpos b (44 :: ws ++ c :: post)) [] accept =
  Some (mkpos (Some c) post, [(1%nat, [c])]).
Proof.
  intros Hw Hc. unfold re_trailing_comma. cbn [cat exec after].
  unfold ch at 1. rewrite N.eqb_refl.
  apply star_greedy_run; [exact Hw| |lia|].
  { unfold is_closer in Hc. apply orb_prop in Hc as [E|E];
      apply N.eqb_eq in E; subst c; reflexivity. }
  cbn [exec after]. fold (is_closer c). rewrite Hc. unfold accept.
  do 4 f_equal. apply (consumed_app _ _ [c] post).
Qed.

(** The greedy star of a class gives no match when what follows the star
    fails after the whole run and after every shorter one. *)
Lemma star_greedy_none p k :
  forall run n b rest c,
    forallb p run = true ->
    match rest with [] => True | a :: _ => p a = false end ->
    (length (run ++ rest) < n)%nat ->
    (forall pre r, run = pre ++ r -> k (mkpos (prev_of b pre) (r ++ rest)) c = None) ->
    star_loop (exec (Char p)) true k n (mkpos b (run ++ rest)) c = None.
Proof.
  induction run as [|a run IH]; intros n b rest c Hrun Hrest Hn Hk;
    (destruct n as [|n]; [simpl in Hn; lia|]); rewrite star_loop_S; cbn zeta.
  - pose proof (Hk [] [] eq_refl) as K. cbn [prev_of app] in K.
    cbn [app exec after]. destruct rest as [|a rest]; [exact K|].
    now rewrite Hrest.
  - simpl in Hrun. apply andb_prop in Hrun as [Ha Hrun].
    cbn [app exec after]. rewrite Ha. cbn [after].
    assert (L : (length (run ++ rest) <? length (a :: run ++ rest))%nat = true)
      by (apply Nat.ltb_lt; simpl; lia).
    rewrite L. rewrite IH; [|exact Hrun|exact Hrest|simpl in Hn; lia|].
    + apply (Hk [] (a :: run) eq_refl).
    + intros pre r E. rewrite (prev_of_cons b). apply (Hk (a :: pre) r).
      now rewrite E.
Qed.

Lemma exec_trailing_comma_none b (ws rest : str) :
  forallb is_space ws = true ->
  match rest with [] => True | d :: _ => is_space d = false /\ is_closer d = false end ->
  exec re_trailing_comma (mkpos b (44 :: ws ++ rest)) [] accept = None.
Proof.
  intros Hw Hr. unfold re_trailing_comma. cbn [cat exec after].
  unfold ch at 1. rewrite N.eqb_refl.
  apply star_greedy_none; [exact Hw| |lia|].
  { destruct rest as [|d rest]; [exact I|apply Hr]. }
  intros pre r E. cbn [exec after].
  destruct r as [|x r].
  - cbn [app]. destruct rest as [|d rest]; [reflexivity|].
    destruct Hr as [_ Hd]. fold (is_closer d). now rewrite Hd.
  - cbn [app]. fold (is_closer x).
    assert (X : is_space x = true).
    { rewrite E, forallb_app in Hw. apply andb_prop in Hw as [_ Hw].
      simpl in Hw. now apply andb_prop in Hw as [Hw _]. }
    replace (is_closer x) with false; [reflexivity|].
    unfold is_closer.
    destruct (N.eqb_spec x 125) as [->|_]; [now vm_compute in X|].
    destruct (N.eqb_spec x 93) as [->|_]; [now vm_compute in X|reflexivity].
Qed.

Lemma space_lacks_comma (ws : str) : forallb is_space ws = true -> lacks (ch 44) ws = true.
Proof.
  induction ws as [|w ws IH]; [reflexivity|].
  cbn [forallb lacks]. intros H. apply andb_prop in H as [Hw H].
  unfold lacks in IH. rewrite (IH H), andb_true_r. unfold ch.
  destruct (N.eqb_spec w 44) as [->|_]; [now vm_compute in Hw|reflexivity].
Qed.

(** X17.  The stage of the trailing commas removes the first comma that is
    followed, after any white space, by a closing brace or bracket, together
    with that white space, and goes on after the closer; a comma followed by
    anything else (or by nothing) stays with the white space after it. *)
Theorem drop_trailing_commas_first :
  (forall pre ws c post,
     lacks (ch 44) pre = true -> forallb is_space ws = true -> is_closer c = true ->
     drop_trailing_commas (pre ++ 44 :: ws ++ c :: post) =
     pre ++ c :: drop_trailing_commas post) /\
  (forall pre ws rest,
     lacks (ch 44) pre = true -> forallb is_space ws = true ->
     match rest with
     | [] => True
     | d :: _ => is_space d = false /\ is_closer d = false
     end ->
     drop_trailing_commas (pre ++ 44 :: ws ++ rest) =
     pre ++ 44 :: ws ++ drop_trailing_commas rest) /\
  parseJsonFlexible (txt "[1, [2 , ] ," ++ LF :: txt "]") =
  JArr [JNum (Fin 1 0); JArr [JNum (Fin 1 1)]].
Proof.
  split; [|split].
  - intros pre ws c post Hpre Hw Hc. unfold drop_trailing_commas, replace_all.
    rewrite (replace_at_skip _ _ _ trailing_comma_needs_head) by exact Hpre.
    pose proof (exec_trailing_comma (prev_of None pre) ws c post Hw Hc) as M.
    replace (44 :: ws ++ c :: post) with ((44 :: ws ++ [c]) ++ post) in *
      by (cbn [app]; now rewrite <- app_assoc).
    rewrite (replace_at_match _ _ _ _ _ _ _ M) by discriminate.
    now rewrite (replace_at_context _ _ trailing_comma_looks_ahead _ None).
  - intros pre ws rest Hpre Hw Hr. unfold drop_trailing_commas, replace_all.
    rewrite (replace_at_skip _ _ _ trailing_comma_needs_head) by exact Hpre.
    rewrite replace_at_none by (apply exec_trailing_comma_none; assumption).
    rewrite (replace_at_skip _ _ _ trailing_comma_needs_head)
      by (apply space_lacks_comma, Hw).
    now rewrite (replace_at_context _ _ trailing_comma_looks_ahead _ None).
  - vm_compute. reflexivity.
Qed.

(** ** The bare word undefined *)

Lemma undefined_needs_head : needs_head re_undefined (ch 117).
Proof.
  intros b s c k H. unfold re_undefined, lit.
  change (txt "undefined") with UNDEFINED. unfold UNDEFINED.
  cbn [map cat exec after before].
  destruct (xorb _ _); [|reflexivity].
  destruct s as [|a s]; [reflexivity|]. now rewrite H.
Qed.

Lemma exec_undefined b (post : str) :
  exec re_undefined (mkpos b (UNDEFINED ++ post)) [] accept =
  if negb (word_at b) && negb (word_at (hd_error post))
  then Some (mkpos (Some 100) post, []) else None.
Proof.
  unfold re_undefined, lit. change (txt "undefined") with UNDEFINED.
  unfold UNDEFINED. cbn [map cat exec after before app hd_error word_at].
  change (is_word 117) with true. change (is_word 100) with true.
  destruct (word_at b); cbn [xorb negb andb]; [reflexivity|].
  unfold ch. rewrite !N.eqb_refl.
  destruct (word_at (hd_error post)); reflexivity.
Qed.

(** Where the next unit is not a word character, the unit before does not
    matter to the stage. *)
Lemma replace_undefined_context g (b b' : option N) (s : str) :
  word_at (hd_error s) = false ->
  replace_at re_undefined g (mkpos b s) = replace_at re_undefined g (mkpos b' s).
Proof.
  intros H. destruct s as [|a s].
  - unfold replace_at. cbn [after length replace_from].
    now rewrite !(undefined_needs_head _ [] [] accept I).
  - assert (A : ch 117 a = false).
    { unfold ch. destruct (N.eqb_spec a 117) as [->|_]; [discriminate H|reflexivity]. }
    now rewrite !replace_at_none by (apply undefined_needs_head; exact A).
Qed.

Lemma undefined_lacks_u_tail : lacks (ch 117) [110; 100; 101; 102; 105; 110; 101; 100] = true.
Proof. reflexivity. Qed.

Lemma replace_at_lacks r P g (b : option N) (s : str) :
  needs_head r P -> lacks P s = true -> replace_at r g (mkpos b s) = s.
Proof.
  intros H L. unfold replace_at.
  apply (replace_from_lacks r P g (needs_head_never_without r P H)), L.
Qed.

(** ** The document always decodes *)

Lemma serialize_without_infinities (v : value) :
  forall ind, serialize ind (without_infinities v) = serialize ind v.
Proof.
  induction v as [| b | x | s | items IH | ms IH] using value_induction; intros ind;
    try reflexivity.
  - destruct x as [m e|neg]; reflexivity.
  - destruct items as [|x items]; [reflexivity|].
    rewrite Forall_forall in IH.
    assert (E : serialize (ind ++ gap) (without_infinities x)
                  :: map (serialize (ind ++ gap)) (map without_infinities items)
                = serialize (ind ++ gap) x :: map (serialize (ind ++ gap)) items).
    { f_equal; [apply IH; now left|]. rewrite map_map.
      apply map_ext_in. intros c Ic. apply IH. now right. }
    cbn [without_infinities map serialize]. now rewrite E.
  - destruct ms as [|e ms]; [reflexivity|].
    rewrite Forall_forall in IH.
    set (f := fun kv : str * value => (fst kv, without_infinities (snd kv))).
    set (g := fun kv : str * value =>
                quote (fst kv) ++ 58 :: 32 :: serialize (ind ++ gap) (snd kv)).
    assert (E : g (f e) :: map g (map f ms) = g e :: map g ms).
    { assert (G : forall kv, In kv (e :: ms) -> g (f kv) = g kv).
      { intros [k c] I. unfold g, f. cbn [fst snd]. do 3 f_equal. apply (IH (k, c) I). }
      f_equal; [apply G; now left|]. rewrite map_map.
      apply map_ext_in. intros c Ic. apply G. now right. }
    change (123 :: LF :: (ind ++ gap)
              ++ join (44 :: LF :: ind ++ gap) (g (f e) :: map g (map f ms))
              ++ LF :: ind ++ [125]
            = 123 :: LF :: (ind ++ gap)
              ++ join (44 :: LF :: ind ++ gap) (g e :: map g ms)
              ++ LF :: ind ++ [125]).
    now rewrite E.
Qed.

Lemma finite_without_infinities (v : value) : finite_value (without_infinities v) = true.
Proof.
  induction v as [| b | x | s | items IH | ms IH] using value_induction;
    try reflexivity.
  - destruct x as [m e|neg]; reflexivity.
  - cbn [without_infinities finite_value]. rewrite forallb_forall.
    intros c Ic. apply in_map_iff in Ic as [c0 [<- I0]].
    rewrite Forall_forall in IH. apply (IH c0 I0).
  - cbn [without_infinities finite_value]. rewrite forallb_forall.
    intros c Ic. apply in_map_iff in Ic as [[k c0] [<- I0]].
    rewrite Forall_forall in IH. apply (IH (k, c0) I0).
Qed.

Lemma wf_without_infinities (v : value) : wf_value v -> wf_value (without_infinities v).
Proof.
  induction v as [| b | x | s | items IH | ms IH] using value_induction; intros W;
    try exact W.
  - destruct x as [m e|neg]; [exact W|constructor].
  - inversion W as [| | | |items' Hi|]; subst. cbn [without_infinities].
    constructor. rewrite Forall_forall in *. intros c Ic.
    apply in_map_iff in Ic as [c0 [<- I0]]. apply (IH c0 I0), (Hi c0 I0).
  - inversion W as [| | | | |ms' Hk Hm]; subst. cbn [without_infinities].
    constructor.
    + rewrite map_map. cbn [fst]. exact Hk.
    + rewrite Forall_forall in *. intros c Ic.
      apply in_map_iff in Ic as [[k c0] [<- I0]]. cbn [snd].
      apply (IH (k, c0) I0), (Hm (k, c0) I0).
Qed.

Lemma JSON_stringify_decodes (v : value) :
  wf_value v -> JSON_parse (JSON_stringify v) = Some (without_infinities v).
Proof.
  intros W. unfold JSON_stringify. rewrite <- serialize_without_infinities.
  apply (JSON_parse_stringify _ (wf_without_infinities v W)
           (finite_without_infinities v)).
Qed.

Lemma applyPastedJson_document (st : state) :
  rawJson (applyPastedJson st) = rawJson st \/
  rawJson (applyPastedJson st) =
    JSON_stringify (parseJsonFlexible (trim (pasteBuffer st))).
Proof.
  unfold applyPastedJson. destruct (trim (pasteBuffer st)) as [|c t]; [now left|].
  destruct (parseJsonFlexible (c :: t)); (now left) || (now right).
Qed.

Lemma onFetch_document (valid : str -> bool) (net : str -> headers -> fetch_outcome)
  (a : component) :
  rawJson (view (onFetch valid net a)) = rawJson (view a) \/
  exists text v, JSON_parse text = Some v /\
                 rawJson (view (onFetch valid net a)) = JSON_stringify v.
Proof.
  rewrite onFetch_outcomes.
  destruct (is_empty (domain a)); [now left|].
  destruct (negb (valid (domain a))); [now left|].
  destruct (negb (is_empty (endpoint a)) && negb (isValidEndpointPath (endpoint a)));
    [now left|].
  destruct (net _ _) as [x|elapsed status body]; [now left|].
  destruct (negb (response_ok status)); [now left|].
  destruct body as [text|x]; [|now left].
  destruct (JSON_parse text) as [v|] eqn:P; [|now left].
  destruct v; try (now left); right; eexists text, _; (split; [exact P|reflexivity]).
Qed.

(** X19.  The document of the component always decodes.  [JSON.stringify]
    of a decoded value is strict JSON for that value with [null] in the place
    of every infinity; so the document of the first render and of [onReset]
    decodes, and [onFetch], [applyPastedJson] and the opening of the paste
    overlay leave a document that decodes when they start from one.  After a
    paste that is accepted, the document decodes to the pasted value with its
    infinities replaced by [null]. *)
Theorem document_always_decodes (valid : str -> bool)
  (net : str -> headers -> fetch_outcome) (clip : clipboard) (a : component) :
  JSON_parse (rawJson (view a)) <> None ->
  JSON_parse (rawJson (view (onFetch valid net a))) <> None /\
  JSON_parse (rawJson (applyPastedJson (view a))) <> None /\
  JSON_parse (rawJson (openPasteOverlayAndMaybeReadClipboard clip (view a))) <> None /\
  parsedObject (view (onReset a)) = ready_document /\
  (parseJsonFlexible (trim (pasteBuffer (view a))) <> JNull ->
   parsedObject (applyPastedJson (view a)) =
   without_infinities (parseJsonFlexible (trim (pasteBuffer (view a))))).
Proof.
  intros H. split; [|split; [|split; [|split]]].
  - destruct (onFetch_document valid net a) as [E|[text [v [P E]]]]; rewrite E;
      [exact H|].
    rewrite (JSON_stringify_decodes v (JSON_parse_wf _ _ P)). discriminate.
  - destruct (applyPastedJson_document (view a)) as [E|E]; rewrite E; [exact H|].
    rewrite (JSON_stringify_decodes _ (parseJsonFlexible_wf _)). discriminate.
  - replace (rawJson (openPasteOverlayAndMaybeReadClipboard clip (view a)))
      with (rawJson (view a)); [exact H|].
    unfold openPasteOverlayAndMaybeReadClipboard.
    destruct clip as [t|]; [|reflexivity]. now destruct (_ && _).
  - vm_compute. reflexivity.
  - intros N. rewrite (applyPastedJson_accepts _ N).
    unfold parsedObject, parseJsonSafely. cbn [rawJson].
    now rewrite (JSON_stringify_decodes _ (parseJsonFlexible_wf _)).
Qed.

Lemma document_always_decodes_witness :
  JSON_parse (rawJson (view (onFetch (fun _ => true)
                               (fun _ _ => Responds 3 200 (BodyText (txt "[1e999]")))
                               overflowing_paste))) <> None /\
  JSON_parse (rawJson (applyPastedJson (view overflowing_paste))) <> None /\
  JSON_parse (rawJson (openPasteOverlayAndMaybeReadClipboard ClipboardDenied
                         (view overflowing_paste))) <> None /\
  parsedObject (view (onReset overflowing_paste)) = ready_document /\
  (parseJsonFlexible (trim (pasteBuffer (view overflowing_paste))) <> JNull ->
   parsedObject (applyPastedJson (view overflowing_paste)) =
   without_infinities (parseJsonFlexible (trim (pasteBuffer (view overflowing_paste))))).
Proof.
  apply (document_always_decodes (fun _ => true)
           (fun _ _ => Responds 3 200 (BodyText (txt "[1e999]")))
           ClipboardDenied overflowing_paste).
  vm_compute. discriminate.
Defined.

(** ** Text that the stages leave alone *)

Lemma lacks_weaken (P Q : N -> bool) (s : str) :
  (forall c, Q c = true -> P c = true) -> lacks P s = true -> lacks Q s = true.
Proof.
  intros H. unfold lacks. rewrite !forallb_forall. intros L c I.
  specialize (L c I). destruct (Q c) eqn:E; [|reflexivity].
  now rewrite (H c E) in L.
Qed.

Lemma rewrite_trigger_of (a : N) :
  a = 47 \/ a = 39 \/ a = 123 \/ a = 44 \/ a = 117 ->
  forall c, ch a c = true -> rewrite_trigger c = true.
Proof.
  unfold ch, rewrite_trigger. intros H c E. apply N.eqb_eq in E. subst c.
  destruct H as [->|[->|[->|[->| ->]]]]; reflexivity.
Qed.

(** X20.  The rewrite stages leave alone every text that has no slash, no
    single quote, no opening brace, no comma and no letter u; on such a text
    the lenient decoder gives what the strict decoder gives. *)
Theorem rewrite_stages_untouched (t : str) :
  lacks rewrite_trigger t = true ->
  rewrite_stages t = t /\ parseJsonFlexible t = parseJsonSafely t.
Proof.
  intros L.
  assert (R : rewrite_stages t = t).
  { unfold rewrite_stages, strip_block_comments, strip_line_comments,
      normalize_quotes, quote_keys, drop_trailing_commas, replace_undefined.
    rewrite (replace_all_lacks _ _ _ t block_comment_needs_slash)
      by (apply (lacks_weaken _ _ _ (rewrite_trigger_of 47 ltac:(auto)) L)).
    rewrite (replace_all_lacks _ _ _ t line_comment_needs_slash)
      by (apply (lacks_weaken _ _ _ (rewrite_trigger_of 47 ltac:(auto)) L)).
    rewrite (replace_all_lacks _ _ _ t single_quoted_needs_quote)
      by (apply (lacks_weaken _ _ _ (rewrite_trigger_of 39 ltac:(auto 6)) L)).
    rewrite (replace_all_lacks _ _ _ t unquoted_key_needs_opener).
    2:{ apply (lacks_weaken rewrite_trigger); [|exact L].
        intros c H. unfold rewrite_trigger. apply orb_prop in H as [->| ->];
          rewrite ?orb_true_r; reflexivity. }
    rewrite (replace_all_lacks _ _ _ t trailing_comma_needs_comma)
      by (apply (lacks_weaken _ _ _ (rewrite_trigger_of 44 ltac:(auto 6)) L)).
    apply (replace_all_lacks _ _ _ t (needs_head_never_without _ _ undefined_needs_head)).
    apply (lacks_weaken _ _ _ (rewrite_trigger_of 117 ltac:(auto 6)) L). }
  split; [exact R|].
  unfold parseJsonFlexible. rewrite R. now destruct (parseJsonSafely t).
Qed.

Lemma rewrite_stages_untouched_witness :
  rewrite_stages (txt " [`a: b`] ") = txt " [`a: b`] " /\
  parseJsonFlexible (txt " [`a: b`] ") = parseJsonSafely (txt " [`a: b`] ").
Proof.
  apply (rewrite_stages_untouched (txt " [`a: b`] ")). reflexivity.
Defined.

(** ** The stages, position by position *)

Lemma drop_space_split (s : str) :
  exists w, s = w ++ drop_space s /\ forallb is_space w = true.
Proof.
  induction s as [|c s [w [E W]]]; simpl.
  - now exists [].
  - destruct (is_space c) eqn:C.
    + exists (c :: w). simpl. now rewrite C, W, <- E.
    + now exists [].
Qed.

Lemma drop_ident_split (s : str) :
  exists w, s = w ++ drop_ident s /\ forallb ident_part w = true.
Proof.
  induction s as [|c s [w [E W]]]; simpl.
  - now exists [].
  - destruct (ident_part c) eqn:C.
    + exists (c :: w). simpl. now rewrite C, W, <- E.
    + now exists [].
Qed.

Lemma drop_ident_head (s : str) :
  match drop_ident s with [] => True | c :: _ => ident_part c = false end.
Proof.
  induction s as [|c s IH]; simpl; [exact I|].
  destruct (ident_part c) eqn:E; [exact IH|exact E].
Qed.

Lemma key_follows_true (rest : str) :
  key_follows rest = true ->
  exists ws1 i0 irest ws2 ws3 post,
    rest = ws1 ++ i0 :: irest ++ ws2 ++ 58 :: ws3 ++ post /\
    forallb is_space ws1 = true /\ ident_start i0 = true /\
    forallb ident_part irest = true /\ forallb is_space ws2 = true /\
    forallb is_space ws3 = true /\ no_space_ahead post.
Proof.
  unfold key_follows. intros H.
  destruct (drop_space_split rest) as [ws1 [E1 W1]].
  destruct (drop_space rest) as [|i0 r]; [discriminate|].
  apply andb_prop in H as [Hi H].
  destruct (drop_ident_split r) as [irest [E2 W2]].
  destruct (drop_space_split (drop_ident r)) as [ws2 [E3 W3]].
  destruct (drop_space (drop_ident r)) as [|c r3]; [discriminate|].
  apply N.eqb_eq in H. subst c.
  destruct (drop_space_split r3) as [ws3 [E4 W4]].
  exists ws1, i0, irest, ws2, ws3, (drop_space r3).
  split; [now rewrite E1 at 1; rewrite E2 at 1; rewrite E3 at 1; rewrite E4 at 1|].
  repeat (split; [assumption|]). apply drop_space_head.
Qed.

Lemma ident_part_not_space c : ident_part c = true -> is_space c = false.
Proof.
  intros H. destruct (is_space c) eqn:E; [|reflexivity].
  now rewrite (space_not_ident_part c E) in H.
Qed.

Lemma space_not_ident_start c : is_space c = true -> ident_start c = false.
Proof.
  intros H. destruct (ident_start c) eqn:E; [|reflexivity].
  now rewrite (ident_start_not_space c E) in H.
Qed.

Lemma ident_part_not_colon c : ident_part c = true -> (c =? 58) = false.
Proof.
  intros H. destruct (N.eqb_spec c 58) as [->|]; [discriminate|reflexivity].
Qed.

Lemma space_not_colon c : is_space c = true -> (c =? 58) = false.
Proof.
  intros H. destruct (N.eqb_spec c 58) as [->|]; [discriminate|reflexivity].
Qed.

Lemma forallb_tail_head (P : N -> bool) (run pre : str) x (r : str) :
  forallb P run = true -> run = pre ++ x :: r -> P x = true.
Proof.
  intros H E. rewrite E, forallb_app in H. apply andb_prop in H as [_ H].
  simpl in H. now apply andb_prop in H as [H _].
Qed.

(** An opener that no key follows is no match. *)
Lemma exec_unquoted_key_none b d (rest : str) :
  key_follows rest = false ->
  exec re_unquoted_key (mkpos b (d :: rest)) [] accept = None.
Proof.
  intros H. unfold re_unquoted_key. cbn [cat exec after].
  destruct ((d =? 123) || (d =? 44)); [|reflexivity].
  destruct (drop_space_split rest) as [ws1 [E1 W1]].
  pose proof (drop_space_head rest) as H1.
  unfold key_follows in H. set (r1 := drop_space rest) in *.
  rewrite E1. apply star_greedy_none; [exact W1|exact H1|lia|].
  intros pre r E. cbn [exec after].
  destruct r as [|x r].
  2:{ cbn [app]. now rewrite (space_not_ident_start x (forallb_tail_head _ _ _ _ _ W1 E)). }
  cbn [app]. destruct r1 as [|i0 r2]; [reflexivity|].
  destruct (ident_start i0); [|reflexivity]. cbn [andb] in H.
  destruct (drop_ident_split r2) as [irest [E2 W2]].
  pose proof (drop_ident_head r2) as H2. set (r3 := drop_ident r2) in *.
  rewrite E2. apply star_greedy_none; [exact W2|exact H2|lia|].
  intros pre2 r' E'. cbn [exec after].
  destruct r' as [|y r'].
  2:{ pose proof (forallb_tail_head _ _ _ _ _ W2 E') as Y. cbn [app].
    apply (star_greedy_none is_space _ [] _ _ (y :: r' ++ r3));
      [reflexivity|now apply ident_part_not_space|cbn [app length]; lia|].
    intros pre3 r'' E''. destruct pre3; [|discriminate]. destruct r''; [|discriminate].
    cbn [app exec after]. unfold ch. now rewrite (ident_part_not_colon y Y). }
  cbn [app].
  destruct (drop_space_split r3) as [ws2 [E3 W3]].
  pose proof (drop_space_head r3) as H3. set (r4 := drop_space r3) in *.
  rewrite E3. apply star_greedy_none; [exact W3|exact H3|lia|].
  intros pre3 r'' E''. cbn [exec after].
  destruct r'' as [|z r''].
  2:{ cbn [app]. unfold ch.
      now rewrite (space_not_colon z (forallb_tail_head _ _ _ _ _ W3 E'')). }
  cbn [app]. destruct r4 as [|c r5]; [reflexivity|]. unfold ch. now rewrite H.
Qed.

Lemma quote_keys_not_a_key (pre : str) d (rest : str) :
  lacks is_opener pre = true -> key_follows rest = false ->
  quote_keys (pre ++ d :: rest) = pre ++ d :: quote_keys rest.
Proof.
  intros Hpre H. unfold quote_keys, replace_all.
  rewrite (replace_at_skip _ _ _ unquoted_key_needs_head) by exact Hpre.
  rewrite replace_at_none by (apply exec_unquoted_key_none; exact H).
  now rewrite (replace_at_context _ _ unquoted_key_looks_ahead _ None).
Qed.

Lemma quote_keys_no_opener (t : str) : lacks is_opener t = true -> quote_keys t = t.
Proof.
  intros H. unfold quote_keys.
  apply (replace_all_lacks _ _ _ t (needs_head_never_without _ _ unquoted_key_needs_head)), H.
Qed.

Lemma closes_true (s : str) :
  closes s = true ->
  exists ts post, forallb token_ok ts = true /\ s = literal_body ts ++ 39 :: post.
Proof.
  remember (length s) as n eqn:Hn. revert s Hn.
  induction n as [n IH] using lt_wf_ind. intros s Hn H.
  destruct s as [|c s]; [discriminate|]. cbn [closes] in H. simpl in Hn.
  destruct (c =? 39) eqn:C1.
  { apply N.eqb_eq in C1. subst c. now exists [], s. }
  destruct (c =? 92) eqn:C2.
  - destruct s as [|d s]; [discriminate|]. apply andb_prop in H as [D H].
    simpl in Hn. destruct (IH (length s) ltac:(lia) s eq_refl H) as [ts [post [T E]]].
    apply N.eqb_eq in C2. subst c.
    exists (Escaped d :: ts), post. split; [cbn [forallb token_ok]; now rewrite D|].
    cbn [literal_body flat_map token_text app]. fold (literal_body ts). now rewrite E.
  - destruct (IH (length s) ltac:(lia) s eq_refl H) as [ts [post [T E]]].
    exists (Plain c :: ts), post.
    split; [cbn [forallb token_ok]; now rewrite C1, C2|].
    cbn [literal_body flat_map token_text app]. fold (literal_body ts). now rewrite E.
Qed.

Lemma closes_literal (ts : list token) (post : str) :
  forallb token_ok ts = true -> closes (literal_body ts ++ 39 :: post) = true.
Proof.
  induction ts as [|t ts IH]; intros H; [reflexivity|].
  cbn [forallb] in H. apply andb_prop in H as [Ht H].
  destruct t as [a|a]; cbn [literal_body flat_map token_text app closes];
    fold (literal_body ts); cbn [token_ok] in Ht.
  - apply negb_true_iff, orb_false_elim in Ht as [-> ->]. now apply IH.
  - cbn [N.eqb Pos.eqb]. rewrite Ht. now apply IH.
Qed.

(** No closing apostrophe: the iteration over the units of a literal ends
    in no match. *)
Lemma star_tokens_none :
  forall n s b c,
    closes s = false ->
    star_loop (exec quoted_unit) true
      (fun y c' => exec (Char (ch 39)) y c' accept) n (mkpos b s) c = None.
Proof.
  induction n as [|n IH]; intros s b c H.
  - unfold star_loop. cbn [exec after]. destruct s as [|a s]; [reflexivity|].
    cbn [closes] in H. unfold ch. now destruct (a =? 39).
  - rewrite star_loop_S. cbn zeta.
    destruct s as [|a s]; [reflexivity|].
    cbn [closes] in H. unfold quoted_unit. cbn [exec after]. unfold ch.
    destruct (a =? 39) eqn:C1; [discriminate|].
    destruct (a =? 92) eqn:C2; cbn [orb negb].
    + destruct s as [|d s]; [reflexivity|].
      destruct (dot d) eqn:D; [|reflexivity]. cbn [andb] in H.
      cbn [after]. rewrite (IH s _ _ H).
      now destruct (_ <? _)%nat.
    + cbn [after]. rewrite (IH s _ _ H).
      now destruct (_ <? _)%nat.
Qed.

Lemma exec_single_quoted_none b (rest : str) :
  closes rest = false ->
  exec re_single_quoted (mkpos b (39 :: rest)) [] accept = None.
Proof.
  intros H. unfold re_single_quoted. cbn [cat exec after].
  unfold ch at 1. simpl N.eqb. cbn iota.
  now apply star_tokens_none.
Qed.

Lemma normalize_quotes_unpaired (pre rest : str) :
  lacks (ch 39) pre = true -> closes rest = false ->
  normalize_quotes (pre ++ 39 :: rest) = pre ++ 39 :: normalize_quotes rest.
Proof.
  intros Hpre H. unfold normalize_quotes, replace_all.
  rewrite (replace_at_skip _ _ _ single_quoted_needs_head) by exact Hpre.
  rewrite replace_at_none by (apply exec_single_quoted_none; exact H).
  now rewrite (replace_at_context _ _ single_quoted_looks_ahead _ None).
Qed.

Lemma normalize_quotes_no_quote (t : str) :
  lacks (ch 39) t = true -> normalize_quotes t = t.
Proof.
  intros H. unfold normalize_quotes.
  apply (replace_all_lacks _ _ _ t single_quoted_needs_quote), H.
Qed.

(** The first unit of a text that satisfies [P], if there is one. *)
Lemma lacks_or_first P (t : str) :
  lacks P t = true \/
  exists pre d rest, t = pre ++ d :: rest /\ lacks P pre = true /\ P d = true.
Proof.
  induction t as [|a t IH]; [now left|].
  destruct (P a) eqn:A.
  - right. now exists [], a, t.
  - destruct IH as [L|[pre [d [rest [E [L D]]]]]].
    + left. cbn [lacks forallb]. rewrite A. exact L.
    + right. exists (a :: pre), d, rest. rewrite E.
      repeat split; [|exact D]. cbn [lacks forallb]. rewrite A. exact L.
Qed.

Lemma drop_space_run (ws rest : str) :
  forallb is_space ws = true -> no_space_ahead rest -> drop_space (ws ++ rest) = rest.
Proof.
  induction ws as [|w ws IH]; intros H R.
  - destruct rest as [|a rest]; [reflexivity|]. cbn [app drop_space].
    cbn [no_space_ahead] in R. now rewrite R.
  - cbn [forallb] in H. apply andb_prop in H as [Hw H].
    cbn [app drop_space]. rewrite Hw. now apply IH.
Qed.

Lemma drop_ident_run (run rest : str) :
  forallb ident_part run = true ->
  match rest with [] => True | a :: _ => ident_part a = false end ->
  drop_ident (run ++ rest) = rest.
Proof.
  induction run as [|w run IH]; intros H R.
  - destruct rest as [|a rest]; [reflexivity|]. cbn [app drop_ident]. now rewrite R.
  - cbn [forallb] in H. apply andb_prop in H as [Hw H].
    cbn [app drop_ident]. rewrite Hw. now apply IH.
Qed.

Lemma key_follows_intro (ws1 : str) i0 (irest ws2 ws3 post : str) :
  forallb is_space ws1 = true -> ident_start i0 = true ->
  forallb ident_part irest = true -> forallb is_space ws2 = true ->
  key_follows (ws1 ++ i0 :: irest ++ ws2 ++ 58 :: ws3 ++ post) = true.
Proof.
  intros H1 Hi0 Hi H2. unfold key_follows.
  rewrite drop_space_run
    by (try exact H1; cbn [no_space_ahead]; now apply ident_start_not_space).
  rewrite Hi0. cbn [andb].
  rewrite drop_ident_run.
  - rewrite drop_space_run; [apply N.eqb_refl|exact H2|reflexivity].
  - exact Hi.
  - destruct ws2 as [|w ws2]; [reflexivity|]. cbn [app].
    cbn [forallb] in H2. apply andb_prop in H2 as [H2 _].
    now apply space_not_ident_part.
Qed.

(** ** Key quoting, opener by opener *)

(** C3 (amended).  Key quoting is settled at the first opening brace or
    comma of the text.  When optional white space, a bare identifier (a
    letter or underscore, then letters, digits, underscores and hyphens),
    optional white space and a colon follow it, the identifier is wrapped in
    double quotes and the stage goes on after the white space that follows
    the colon; when they do not, the opener is left as it is and the stage
    goes on right after it; a text without opener is left as it is.  So every
    such identifier is quoted, whatever stands before it.  The sample input
    with the keys name and age normalizes to the object with these two
    members. *)
Theorem key_quoting :
  (forall pre d ws1 i0 irest ws2 ws3 post,
     lacks is_opener pre = true ->
     is_opener d = true -> forallb is_space ws1 = true ->
     ident_start i0 = true -> forallb ident_part irest = true ->
     forallb is_space ws2 = true -> forallb is_space ws3 = true ->
     no_space_ahead post ->
     quote_keys (pre ++ d :: ws1 ++ i0 :: irest ++ ws2 ++ 58 :: ws3 ++ post) =
     pre ++ d :: ws1 ++ 34 :: i0 :: irest ++ 34 :: ws2 ++ 58 :: ws3 ++ quote_keys post) /\
  (forall pre d rest,
     lacks is_opener pre = true -> key_follows rest = false ->
     quote_keys (pre ++ d :: rest) = pre ++ d :: quote_keys rest) /\
  (forall rest,
     key_follows rest = true <->
     exists ws1 i0 irest ws2 ws3 post,
       rest = ws1 ++ i0 :: irest ++ ws2 ++ 58 :: ws3 ++ post /\
       forallb is_space ws1 = true /\ ident_start i0 = true /\
       forallb ident_part irest = true /\ forallb is_space ws2 = true /\
       forallb is_space ws3 = true /\ no_space_ahead post) /\
  (forall t, lacks is_opener t = true -> quote_keys t = t) /\
  (forall t,
     lacks is_opener t = true \/
     exists pre d rest,
       t = pre ++ d :: rest /\ lacks is_opener pre = true /\ is_opener d = true) /\
  quote_keys (txt "{name: `Ann`, age: 3}") = txt "{`name`: `Ann`, `age`: 3}" /\
  parseJsonFlexible (txt "{name: `Ann`, age: 3}") =
  JObj [(txt "name", JStr (txt "Ann")); (txt "age", JNum (Fin 3 0))] /\
  parseJsonFlexible (txt "{name: `Ann`, age: 3}") =
  parseJsonSafely (txt "{`name`:`Ann`,`age`:3}") /\
  quote_keys (txt "{`a`: 1, b: 2}") = txt "{`a`: 1, `b`: 2}" /\
  quote_keys (txt "{a: [1, 2], b: 3}") = txt "{`a`: [1, 2], `b`: 3}" /\
  parseJsonFlexible (txt "{a: [1, 2], b: 3}") =
  JObj [(txt "a", JArr [JNum (Fin 1 0); JNum (Fin 1 1)]); (txt "b", JNum (Fin 3 0))].
Proof.
  split; [exact quote_keys_first|].
  split; [exact quote_keys_not_a_key|].
  split.
  { intros rest. split; [apply key_follows_true|].
    intros (ws1 & i0 & irest & ws2 & ws3 & post & -> & H1 & Hi0 & Hi & H2 & _).
    now apply key_follows_intro. }
  split; [exact quote_keys_no_opener|].
  split; [exact (lacks_or_first is_opener)|].
  repeat split; vm_compute; reflexivity.
Qed.

Lemma key_quoting_witness :
  quote_keys (txt "[" ++ 123 :: txt "  " ++ 97 :: txt "-b_1" ++ txt " " ++ 58 :: txt " " ++ txt "1}") =
  txt "[" ++ 123 :: txt "  " ++ 34 :: 97 :: txt "-b_1" ++ 34 :: txt " " ++ 58 :: txt " "
    ++ quote_keys (txt "1}").
Proof.
  apply (proj1 key_quoting (txt "[") 123 (txt "  ") 97 (txt "-b_1") (txt " ") (txt " ") (txt "1}"));
    reflexivity.
Defined.

(** ** Quote normalization, apostrophe by apostrophe *)

(** C2 (amended).  Quote normalization is settled at the first apostrophe
    of the text, whether or not it stands inside a double-quoted string.
    When plain units and backslash escapes (an escaped apostrophe does not
    end the literal) lead from it to a closing apostrophe, the literal is
    rewritten to a double-quoted one whose body has every escaped apostrophe
    unescaped and every double quote escaped, and the stage goes on after
    the closing apostrophe; when they do not, the apostrophe is left as it is
    and the stage goes on right after it; a text without apostrophe is left
    as it is.  The sample input with the escaped quote normalizes to the
    object whose member msg is the string it's ok. *)
Theorem quote_normalization :
  (forall pre ts post,
     lacks (ch 39) pre = true -> forallb token_ok ts = true ->
     normalize_quotes (pre ++ 39 :: literal_body ts ++ 39 :: post) =
     pre ++ 34 :: escape_double (unescape_single ts) ++ 34 :: normalize_quotes post) /\
  (forall pre rest,
     lacks (ch 39) pre = true -> closes rest = false ->
     normalize_quotes (pre ++ 39 :: rest) = pre ++ 39 :: normalize_quotes rest) /\
  (forall rest,
     closes rest = true <->
     exists ts post, forallb token_ok ts = true /\ rest = literal_body ts ++ 39 :: post) /\
  (forall t, lacks (ch 39) t = true -> normalize_quotes t = t) /\
  (forall t,
     lacks (ch 39) t = true \/
     exists pre d rest, t = pre ++ d :: rest /\ lacks (ch 39) pre = true /\ ch 39 d = true) /\
  literal_body [Plain 105; Plain 116; Escaped 39; Plain 115] = txt "it\'s" /\
  escape_double (unescape_single [Plain 105; Plain 116; Escaped 39; Plain 115]) = txt "it's" /\
  escape_double (unescape_single [Plain 97; Plain 34; Plain 98]) = txt "a\`b" /\
  normalize_quotes (txt "{'msg': 'it\'s ok'}") = txt "{`msg`: `it's ok`}" /\
  parseJsonFlexible (txt "{'msg': 'it\'s ok'}") = JObj [(txt "msg", JStr (txt "it's ok"))].
Proof.
  split; [exact normalize_quotes_first|].
  split; [exact normalize_quotes_unpaired|].
  split.
  { intros rest. split; [apply closes_true|].
    intros (ts & post & T & ->). now apply closes_literal. }
  split; [exact normalize_quotes_no_quote|].
  split; [exact (lacks_or_first (ch 39))|].
  repeat split; vm_compute; reflexivity.
Qed.

Lemma quote_normalization_witness :
  normalize_quotes (txt "{" ++ 39 :: literal_body [Plain 97; Escaped 39] ++ 39 :: txt ": 'b'}") =
  txt "{" ++ 34 :: escape_double (unescape_single [Plain 97; Escaped 39])
    ++ 34 :: normalize_quotes (txt ": 'b'}").
Proof.
  apply (proj1 quote_normalization (txt "{") [Plain 97; Escaped 39] (txt ": 'b'}"));
    reflexivity.
Defined.

(** C2 as stated fails for a literal that follows an apostrophe inside a
    double-quoted string: the apostrophe of the string is paired with the
    opening apostrophe of the literal, the literal is not rewritten, and the
    text is not decoded. *)
Lemma quotes_paired_across_strings :
  closes (txt "s`, 'x']") = true /\
  closes (txt "]") = false /\
  normalize_quotes (txt "[`it's`, 'x']") = txt "[`it`s\`, `x']" /\
  includes (normalize_quotes (txt "[`it's`, 'x']")) (txt "'x'") = false /\
  includes (normalize_quotes (txt "[`it's`, 'x']")) (txt "`x`") = false /\
  parseJsonFlexible (txt "[`it's`, 'x']") = JNull /\
  parseJsonFlexible (txt "[`its`, 'x']") = JArr [JStr (txt "its"); JStr (txt "x")].
Proof. repeat split; vm_compute; reflexivity. Qed.

(** ** Comment stripping, position by position *)














(** ** The paste and the infinities *)

Lemma without_infinities_finite (v : value) :
  finite_value v = true -> without_infinities v = v.
Proof.
  induction v as [| b | x | s | items IH | ms IH] using value_induction; intros F;
    try reflexivity.
  - destruct x as [m e|neg]; [reflexivity|discriminate].
  - cbn [without_infinities finite_value] in *. f_equal.
    rewrite forallb_forall in F. rewrite Forall_forall in IH.
    rewrite <- (map_id items) at 2. apply map_ext_in.
    intros c Ic. apply (IH c Ic), (F c Ic).
  - cbn [without_infinities finite_value] in *. f_equal.
    rewrite forallb_forall in F. rewrite Forall_forall in IH.
    rewrite <- (map_id ms) at 2. apply map_ext_in.
    intros [k c] Ic. cbn [fst snd]. f_equal. apply (IH (k, c) Ic), (F (k, c) Ic).
Qed.

(** The paths of a value do not depend on its numbers. *)
Lemma extractPaths_without_infinities (v : value) :
  forall base, extractPaths (without_infinities v) base = extractPaths v base.
Proof.
  induction v as [| b | x | s | items IH | ms IH] using value_induction; intros base;
    try reflexivity.
  - destruct x as [m e|neg]; reflexivity.
  - cbn [without_infinities extractPaths]. generalize 0%nat.
    induction IH as [|c items Hc _ IHitems]; intros i; [reflexivity|].
    cbn [map]. rewrite Hc, IHitems. reflexivity.
  - cbn [without_infinities extractPaths].
    induction IH as [|[k c] ms Hc _ IHms]; [reflexivity|].
    cbn [map fst snd] in *. rewrite Hc, IHms. reflexivity.
Qed.

(** X4.  A paste that decodes to a value other than [null] replaces the
    document by the two-space serialization of the value, announces the
    paste, closes the overlay and keeps the buffer.  The document then
    decodes to that value with [null] in the place of every infinity (to the
    value itself when it has none), and the flat list shows the paths of the
    value under the label data. *)
Theorem applyPastedJson_shows_the_value (st : state) :
  parseJsonFlexible (trim (pasteBuffer st)) <> JNull ->
  rawJson (applyPastedJson st) =
    JSON_stringify (parseJsonFlexible (trim (pasteBuffer st))) /\
  toast (applyPastedJson st) = Some (txt "Pasted JSON") /\
  isPasteOverlayOpen (applyPastedJson st) = false /\
  pasteBuffer (applyPastedJson st) = pasteBuffer st /\
  parsedObject (applyPastedJson st) =
    without_infinities (parseJsonFlexible (trim (pasteBuffer st))) /\
  (finite_value (parseJsonFlexible (trim (pasteBuffer st))) = true ->
   parsedObject (applyPastedJson st) = parseJsonFlexible (trim (pasteBuffer st))) /\
  allPaths (applyPastedJson st) =
    extractPaths (parseJsonFlexible (trim (pasteBuffer st))) (txt "data").
Proof.
  intros H. rewrite (applyPastedJson_accepts st H).
  assert (P : parsedObject
                (mkstate (JSON_stringify (parseJsonFlexible (trim (pasteBuffer st))))
                   (Some (txt "Pasted JSON")) false (pasteBuffer st)) =
              without_infinities (parseJsonFlexible (trim (pasteBuffer st)))).
  { unfold parsedObject, parseJsonSafely. cbn [rawJson].
    now rewrite (JSON_stringify_decodes _ (parseJsonFlexible_wf _)). }
  repeat (split; [reflexivity|]). split; [exact P|]. split.
  - intros F. rewrite P. now apply without_infinities_finite.
  - unfold allPaths. rewrite P.
    rewrite <- (extractPaths_without_infinities (parseJsonFlexible _)).
    destruct (truthy _) eqn:T; [reflexivity|].
    symmetry. now apply extractPaths_falsy.
Qed.

Lemma applyPastedJson_shows_the_value_witness :
  rawJson (applyPastedJson (view overflowing_paste)) =
    JSON_stringify (parseJsonFlexible (trim (pasteBuffer (view overflowing_paste)))) /\
  toast (applyPastedJson (view overflowing_paste)) = Some (txt "Pasted JSON") /\
  isPasteOverlayOpen (applyPastedJson (view overflowing_paste)) = false /\
  pasteBuffer (applyPastedJson (view overflowing_paste)) =
    pasteBuffer (view overflowing_paste) /\
  parsedObject (applyPastedJson (view overflowing_paste)) =
    without_infinities (parseJsonFlexible (trim (pasteBuffer (view overflowing_paste)))) /\
  (finite_value (parseJsonFlexible (trim (pasteBuffer (view overflowing_paste)))) = true ->
   parsedObject (applyPastedJson (view overflowing_paste)) =
   parseJsonFlexible (trim (pasteBuffer (view overflowing_paste)))) /\
  allPaths (applyPastedJson (view overflowing_paste)) =
    extractPaths (parseJsonFlexible (trim (pasteBuffer (view overflowing_paste))))
      (txt "data").
Proof.
  apply (applyPastedJson_shows_the_value (view overflowing_paste)).
  vm_compute. discriminate.
Defined.

(** ** The bare word undefined, position by position *)

Lemma exec_undefined_mismatch b (t : str) c k :
  starts_with UNDEFINED t = false -> exec re_undefined (mkpos b t) c k = None.
Proof.
  intros H. unfold re_undefined, lit. change (txt "undefined") with UNDEFINED.
  unfold UNDEFINED in *. cbn [map cat exec after before].
  destruct (xorb _ _); [|reflexivity].
  unfold ch.
  repeat (destruct t as [|? t]; [reflexivity|];
          cbn [starts_with] in H; cbn [exec after];
          match goal with
          | |- context [if ?a =? ?n then _ else _] =>
              destruct (a =? n); [cbn [andb] in H|reflexivity]
          end).
  cbn [starts_with] in H. discriminate.
Qed.

Lemma exec_undefined_at b (t : str) :
  exec re_undefined (mkpos b t) [] accept =
  if stands_alone b t then Some (mkpos (Some 100) (skipn 9 t), []) else None.
Proof.
  unfold stands_alone. destruct (starts_with UNDEFINED t) eqn:S.
  - apply starts_with_spec in S as [post ->]. rewrite exec_undefined.
    change (skipn 9 (UNDEFINED ++ post)) with post.
    now rewrite andb_true_r.
  - rewrite exec_undefined_mismatch by exact S.
    now rewrite andb_false_r.
Qed.

Lemma stands_alone_spec b (t : str) :
  stands_alone b t = true <->
  word_at b = false /\
  exists post, t = UNDEFINED ++ post /\ word_at (hd_error post) = false.
Proof.
  unfold stands_alone. rewrite !andb_true_iff, !negb_true_iff, starts_with_spec.
  split.
  - intros [[B [post ->]] A]. split; [exact B|]. now exists post.
  - intros [B [post [-> A]]]. split; [split; [exact B|now exists post]|exact A].
Qed.

Lemma replace_undefined_at_word b (post : str) :
  word_at b = false -> word_at (hd_error post) = false ->
  replace_undefined_at b (UNDEFINED ++ post) =
  txt "null" ++ replace_undefined_at (Some 100) post.
Proof.
  intros Hb Ha. unfold replace_undefined_at.
  pose proof (exec_undefined b post) as M.
  rewrite Hb, Ha in M. cbn [negb andb] in M.
  now rewrite (replace_at_match _ _ _ _ _ _ _ M) by discriminate.
Qed.

Lemma replace_undefined_at_keep b a (s : str) :
  stands_alone b (a :: s) = false ->
  replace_undefined_at b (a :: s) = a :: replace_undefined_at (Some a) s.
Proof.
  intros H. unfold replace_undefined_at. apply replace_at_none.
  now rewrite exec_undefined_at, H.
Qed.

Lemma replace_undefined_at_nil b : replace_undefined_at b [] = [].
Proof.
  unfold replace_undefined_at, replace_at. cbn [after length replace_from].
  now rewrite exec_undefined_mismatch.
Qed.

(** X18.  The stage of the bare word, at a position of the text: where the
    word undefined stands as a word of its own (no letter, digit or
    underscore directly before or after it) it is replaced by null and the
    stage goes on after it; anywhere else the unit is kept and the stage goes
    on after it, so that the word as part of a longer word is left as it
    is, whatever stands before it in the text. *)
Theorem replace_undefined_first :
  (forall t, replace_undefined t = replace_undefined_at None t) /\
  (forall b post,
     word_at b = false -> word_at (hd_error post) = false ->
     replace_undefined_at b (UNDEFINED ++ post) =
     txt "null" ++ replace_undefined_at (Some 100) post) /\
  (forall b a s,
     stands_alone b (a :: s) = false ->
     replace_undefined_at b (a :: s) = a :: replace_undefined_at (Some a) s) /\
  (forall b, replace_undefined_at b [] = []) /\
  (forall b t,
     stands_alone b t = true <->
     word_at b = false /\
     exists post, t = UNDEFINED ++ post /\ word_at (hd_error post) = false) /\
  (forall pre post,
     lacks (ch 117) pre = true ->
     word_at (prev_of None pre) = false -> word_at (hd_error post) = false ->
     replace_undefined (pre ++ UNDEFINED ++ post) =
     pre ++ txt "null" ++ replace_undefined post) /\
  (forall pre post,
     lacks (ch 117) pre = true -> lacks (ch 117) post = true ->
     word_at (prev_of None pre) = true \/ word_at (hd_error post) = true ->
     replace_undefined (pre ++ UNDEFINED ++ post) = pre ++ UNDEFINED ++ post) /\
  UNDEFINED = txt "undefined" /\
  replace_undefined (txt "{`user`: undefined, `u`: [undefined]}") =
  txt "{`user`: null, `u`: [null]}" /\
  parseJsonFlexible (txt "{`user`: undefined}") = JObj [(txt "user", JNull)] /\
  parseJsonFlexible (txt "{a: undefined, b: [undefined], undefined_c: 1}") =
  JObj [(txt "a", JNull); (txt "b", JArr [JNull]); (txt "undefined_c", JNum (Fin 1 0))].
Proof.
  split; [reflexivity|].
  split; [exact replace_undefined_at_word|].
  split; [exact replace_undefined_at_keep|].
  split; [exact replace_undefined_at_nil|].
  split; [exact stands_alone_spec|].
  split; [|split; [|split; [|split; [|split]]]].
  - intros pre post Hpre Hb Ha. unfold replace_undefined, replace_all.
    rewrite (replace_at_skip _ _ _ undefined_needs_head) by exact Hpre.
    pose proof (exec_undefined (prev_of None pre) post) as M.
    rewrite Hb, Ha in M. cbn [negb andb] in M.
    rewrite (replace_at_match _ _ _ _ _ _ _ M) by discriminate.
    now rewrite (replace_undefined_context _ (Some 100) None post Ha).
  - intros pre post Hpre Hpost H. unfold replace_undefined, replace_all.
    rewrite (replace_at_skip _ _ _ undefined_needs_head) by exact Hpre.
    f_equal.
    assert (M : exec re_undefined (mkpos (prev_of None pre) (UNDEFINED ++ post))
                  [] accept = None).
    { rewrite exec_undefined. destruct H as [-> | ->]; [reflexivity|].
      now rewrite andb_false_r. }
    change (UNDEFINED ++ post)
      with (117 :: [110; 100; 101; 102; 105; 110; 101; 100] ++ post) in *.
    rewrite replace_at_none by exact M. f_equal.
    apply replace_at_lacks with (P := ch 117); [exact undefined_needs_head|].
    rewrite lacks_app, Hpost. reflexivity.
  - reflexivity.
  - vm_compute. reflexivity.
  - vm_compute. reflexivity.
  - vm_compute. reflexivity.
Qed.
